(** * Interpretator: the indentation-sensitive lexer and the tree-walking
      evaluator, embedded from lexer.h / lexer.cpp, runtime.h / runtime.cpp
      and statement.h / statement.cpp. *)

From Stdlib Require Import ZArith Ascii String List Bool Lia.
From stdpp Require Import base option list strings gmap pretty.

Set Warnings "-register-all".

Local Open Scope string_scope.
Local Open Scope Z_scope.

(** ** Results of running C++ code

    A C++ call either returns, throws, has undefined behaviour, or (for the
    loops that are run with a bound on their iterations) did not finish
    within the bound. *)

Inductive result (E A : Type) : Type :=
| Ok (a : A)
| Throw (e : E)
| Undefined
| OutOfFuel.

Arguments Ok {E A} a.
Arguments Throw {E A} e.
Arguments Undefined {E A}.
Arguments OutOfFuel {E A}.

#[global] Instance result_ret {E} : MRet (result E) := fun _ a => Ok a.

#[global] Instance result_bind {E} : MBind (result E) := fun _ _ k m =>
  match m with
  | Ok a => k a
  | Throw e => Throw e
  | Undefined => Undefined
  | OutOfFuel => OutOfFuel
  end.

(** size_t is 64 bits wide; unsigned arithmetic wraps around. *)
Definition size_t_modulus : Z := 2 ^ 64.
Definition wrap_size_t (z : Z) : Z := z mod size_t_modulus.

(** int is 32 bits wide. *)
Definition INT_MIN : Z := - 2 ^ 31.
Definition INT_MAX : Z := 2 ^ 31 - 1.
Definition in_int (z : Z) : bool := (INT_MIN <=? z) && (z <=? INT_MAX).

(** ** lexer.h: tokens *)

Module token_type.
Inductive Token : Type :=
| Number (value : Z) | Id (value : string) | Char (value : ascii) | String (value : string)
| Class | Return | If | Else | Def | Newline | Print | Indent | Dedent | And | Or | Not
| Eq | NotEq | LessOrEq | GreaterOrEq | None | True | False | Eof.
End token_type.

Module parse.

Abbreviation Token := token_type.Token.

(** Exceptions that can leave the Lexer's constructor. *)
Inductive lexer_exception : Type :=
| out_of_range (what : string)
| invalid_argument (what : string).

Abbreviation lresult := (result lexer_exception).

(** *** The character stream (std::istream over one line)

    [buf] is what is left to read; [eofbit] and [failbit] are the stream's
    state flags.  badbit is never raised by the operations the lexer uses on
    a string stream (putback is only reached right after an extraction). *)

Record istream : Type := mk_istream {
  buf : string;
  eofbit : bool;
  failbit : bool
}.

Definition stringstream (line : string) : istream :=
  {| buf := line; eofbit := false; failbit := false |}.

Definition good (input : istream) : bool := negb (eofbit input) && negb (failbit input).

Definition set_fail (input : istream) : istream :=
  {| buf := buf input; eofbit := eofbit input; failbit := true |}.

Definition set_eof (input : istream) : istream :=
  {| buf := buf input; eofbit := true; failbit := failbit input |}.

(** input.peek(): the next character without extracting it; at the end of
    the data it raises eofbit and yields EOF (here [None]); on a stream that
    is not good the sentry raises failbit and the result is EOF. *)
Definition peek (input : istream) : option ascii * istream :=
  if good input then
    match buf input with
    | EmptyString => (None, set_eof input)
    | String.String c _ => (Some c, input)
    end
  else (None, set_fail input).

(** input.ignore(): extracts and drops one character; eofbit at the end. *)
Definition ignore (input : istream) : istream :=
  if good input then
    match buf input with
    | EmptyString => set_eof input
    | String.String _ rest => {| buf := rest; eofbit := false; failbit := false |}
    end
  else set_fail input.

(** input.get() and [input >> std::noskipws >> c]: extract one character;
    when there is none, eofbit and failbit are raised and nothing is
    extracted (get() yields EOF, the target of >> keeps its old value). *)
Definition get (input : istream) : option ascii * istream :=
  if good input then
    match buf input with
    | EmptyString => (None, set_fail (set_eof input))
    | String.String c rest => (Some c, {| buf := rest; eofbit := false; failbit := false |})
    end
  else (None, set_fail input).

(** input.putback(c): clears eofbit, then steps the read position back by
    one and stores [c] there; on a stream that is still not good only
    failbit is raised. *)
Definition putback (c : ascii) (input : istream) : istream :=
  let cleared := {| buf := buf input; eofbit := false; failbit := failbit input |} in
  if good cleared then
    {| buf := String.String c (buf input); eofbit := false; failbit := false |}
  else set_fail cleared.

(** *** <cctype> in the "C" locale; EOF and bytes above 127 are in no class. *)

Definition in_range (lo hi c : ascii) : bool :=
  ((nat_of_ascii lo <=? nat_of_ascii c) && (nat_of_ascii c <=? nat_of_ascii hi))%nat.

Definition isdigit (c : ascii) : bool := in_range "0" "9" c.
Definition isalpha (c : ascii) : bool := in_range "a" "z" c || in_range "A" "Z" c.
Definition isalnum (c : ascii) : bool := isalpha c || isdigit c.

(** The characters written with an escape in the C++ source. *)
Definition dquote : ascii := "034"%char.
Definition newline : ascii := "010"%char.
Definition tab : ascii := "009"%char.
Definition backslash : ascii := "092"%char.

(** What a char holds after [char ch = input.get()]: the character, or
    EOF (-1) narrowed to char. *)
Definition char_of_int (p : option ascii) : ascii := default "255"%char p.

(** A test on the int that peek() returned: EOF fails every test. *)
Definition peek_is (p : option ascii) (c : ascii) : bool :=
  match p with
  | Some x => Ascii.eqb x c
  | Datatypes.None => false
  end.

Definition peek_sat (f : ascii -> bool) (p : option ascii) : bool :=
  match p with
  | Some x => f x
  | Datatypes.None => false
  end.

(** *** The Lexer object *)

Record Lexer : Type := {
  current_token_ : Token;
  tokens_ : list Token;
  current_index_ : nat;
  indent_size_ : Z
}.

(** Members as their default initialisers leave them: a value-initialised
    variant holds its first alternative, Number{0}. *)
Definition Lexer_init : Lexer :=
  {| current_token_ := token_type.Number 0; tokens_ := [];
     current_index_ := 0%nat; indent_size_ := 0 |}.

Definition push_back (t : Token) (lx : Lexer) : Lexer :=
  {| current_token_ := current_token_ lx; tokens_ := tokens_ lx ++ [t];
     current_index_ := current_index_ lx; indent_size_ := indent_size_ lx |}.

Definition set_indent_size (z : Z) (lx : Lexer) : Lexer :=
  {| current_token_ := current_token_ lx; tokens_ := tokens_ lx;
     current_index_ := current_index_ lx; indent_size_ := z |}.

Definition key_words_token_ (word : string) : option Token :=
  if String.eqb word "class" then Some token_type.Class
  else if String.eqb word "return" then Some token_type.Return
  else if String.eqb word "if" then Some token_type.If
  else if String.eqb word "else" then Some token_type.Else
  else if String.eqb word "def" then Some token_type.Def
  else if String.eqb word "print" then Some token_type.Print
  else if String.eqb word "and" then Some token_type.And
  else if String.eqb word "or" then Some token_type.Or
  else if String.eqb word "not" then Some token_type.Not
  else if String.eqb word "None" then Some token_type.None
  else if String.eqb word "True" then Some token_type.True
  else if String.eqb word "False" then Some token_type.False
  else Datatypes.None.

Definition special_operators_token_ (sign : string) : option Token :=
  if String.eqb sign "==" then Some token_type.Eq
  else if String.eqb sign "!=" then Some token_type.NotEq
  else if String.eqb sign "<=" then Some token_type.LessOrEq
  else if String.eqb sign ">=" then Some token_type.GreaterOrEq
  else Datatypes.None.

Definition special_operators_ (c : ascii) : bool :=
  existsb (Ascii.eqb c) ["="; "!"; "<"; ">"]%char.

Definition special_symbols_ (c : ascii) : bool :=
  existsb (Ascii.eqb c) ["'"; dquote; "n"; "t"]%char.

Definition IsChar (c : ascii) : bool :=
  existsb (Ascii.eqb c)
    ["."; ","; "("; "+"; ")"; "-"; "*"; "/"; ":"; "@"; "%"; "$"; "^"; "&"; ";"; "?";
     "="; "<"; ">"; "!"; "{"; "}"; "["; "]"]%char.

Fixpoint StringIsEmpty (str : string) : bool :=
  match str with
  | EmptyString => true
  | String.String c rest =>
      if negb (Ascii.eqb c " ") then
        if Ascii.eqb c "#" then true else false
      else StringIsEmpty rest
  end.

(** *** lexer.h: ReadString

    [c] is the local [char c]: [None] until the first extraction succeeds.
    The test after the loop reads [c]; doing so while it is still
    uninitialised is undefined behaviour. *)

Fixpoint ReadString_loop (fuel : nat) (pred : ascii -> bool) (input : istream)
    (res : string) (c : option ascii) : lresult (istream * string * option ascii) :=
  match fuel with
  | O => OutOfFuel
  | S fuel' =>
      if eofbit input then Ok (input, res, c)
      else
        match get input with
        | (Some c', input1) =>
            if negb (pred c') then Ok (input1, res, Some c')
            else if Ascii.eqb c' backslash then
              let '(p, input2) := get input1 in
              let ch := char_of_int p in
              let res' :=
                if special_symbols_ ch then
                  let ch' := if Ascii.eqb ch "n" then newline
                             else if Ascii.eqb ch "t" then tab else ch in
                  res ++ String.String ch' EmptyString
                else res in
              ReadString_loop fuel' pred input2 res' (Some c')
            else ReadString_loop fuel' pred input1 (res ++ String.String c' EmptyString) (Some c')
        | (Datatypes.None, input1) => ReadString_loop fuel' pred input1 res c
        end
  end.

Definition ReadString (fuel : nat) (pred : ascii -> bool) (input : istream)
    : lresult (string * istream) :=
  '(input1, res, c) ← ReadString_loop fuel pred input EmptyString Datatypes.None;
  match c with
  | Datatypes.None => Undefined
  | Some c =>
      if negb (pred c) && negb (Ascii.eqb c "'") && negb (Ascii.eqb c dquote)
      then Ok (res, putback c input1)
      else Ok (res, input1)
  end.

(** *** lexer.cpp *)

(** std::stoi as LoadNumber uses it, on the run of digits ReadString
    returned (no sign, no leading white space): the decimal value, or
    std::out_of_range when it does not fit an int. *)
Definition digit_value (c : ascii) : Z := Z.of_nat (nat_of_ascii c) - 48.

Fixpoint stoi_digits (s : string) (acc : Z) : Z :=
  match s with
  | EmptyString => acc
  | String.String c rest =>
      if isdigit c then stoi_digits rest (10 * acc + digit_value c) else acc
  end.

Definition stoi (s : string) : lresult Z :=
  match s with
  | EmptyString => Throw (invalid_argument "stoi")
  | String.String c _ =>
      if isdigit c then
        let v := stoi_digits s 0 in
        if v <=? INT_MAX then Ok v else Throw (out_of_range "stoi")
      else Throw (invalid_argument "stoi")
  end.

Definition NextToken (lx : Lexer) : Token * Lexer :=
  match tokens_ lx !! current_index_ lx with
  | Some t =>
      (t, {| current_token_ := t; tokens_ := tokens_ lx;
             current_index_ := S (current_index_ lx); indent_size_ := indent_size_ lx |})
  | Datatypes.None => (current_token_ lx, lx)
  end.

Definition CurrentToken (lx : Lexer) : Token := current_token_ lx.

Definition LoadChar (c : ascii) (lx : Lexer) : Lexer := push_back (token_type.Char c) lx.

Definition LoadEof (lx : Lexer) : Lexer := push_back token_type.Eof lx.

Definition LoadEndl (lx : Lexer) : Lexer :=
  match last (tokens_ lx) with
  | Datatypes.None => lx
  | Some token_type.Newline => lx
  | Some _ => push_back token_type.Newline lx
  end.

Fixpoint LoadDedent (fuel : nat) (current_indent : Z) (lx : Lexer) : lresult Lexer :=
  match fuel with
  | O => OutOfFuel
  | S fuel' =>
      if indent_size_ lx >? current_indent then
        LoadDedent fuel' current_indent
          (push_back token_type.Dedent (set_indent_size (wrap_size_t (indent_size_ lx - 2)) lx))
      else Ok lx
  end.

Fixpoint LoadIndent (fuel : nat) (current_indent : Z) (lx : Lexer) : lresult Lexer :=
  match fuel with
  | O => OutOfFuel
  | S fuel' =>
      if indent_size_ lx <? current_indent then
        LoadIndent fuel' current_indent
          (push_back token_type.Indent (set_indent_size (wrap_size_t (indent_size_ lx + 2)) lx))
      else Ok lx
  end.

Definition LoadNumber (fuel : nat) (lx : Lexer) (input : istream) : lresult (Lexer * istream) :=
  '(number, input1) ← ReadString fuel isdigit input;
  v ← stoi number;
  Ok (push_back (token_type.Number v) lx, input1).

Definition LoadString (fuel : nat) (lx : Lexer) (input : istream) : lresult (Lexer * istream) :=
  let '(p, input1) := get input in
  let end_ := char_of_int p in
  '(dest, input2) ← ReadString fuel (fun c => negb (Ascii.eqb c end_)) input1;
  Ok (push_back (token_type.String dest) lx, input2).

Definition LoadWord (fuel : nat) (lx : Lexer) (input : istream) : lresult (Lexer * istream) :=
  '(word, input1) ← ReadString fuel (fun c => Ascii.eqb c "_" || isalnum c) input;
  match key_words_token_ word with
  | Some t => Ok (push_back t lx, input1)
  | Datatypes.None => Ok (push_back (token_type.Id word) lx, input1)
  end.

Definition LoadSign (lx : Lexer) (input : istream) : lresult (Lexer * istream) :=
  let '(p, input1) := get input in
  let first := char_of_int p in
  let '(q, input2) := peek input1 in
  if peek_is q "=" then
    let '(r, input3) := get input2 in
    let second := char_of_int r in
    match special_operators_token_ (String.String first (String.String second EmptyString)) with
    | Some t => Ok (push_back t lx, input3)
    | Datatypes.None => Throw (out_of_range "unordered_map::at")
    end
  else Ok (LoadChar first lx, input2).

(** The do-while of LoadTab: [i] counts the spaces it drops. *)
Fixpoint LoadTab_loop (fuel : nat) (i : Z) (input : istream) : lresult (Z * istream) :=
  match fuel with
  | O => OutOfFuel
  | S fuel' =>
      let i1 := wrap_size_t (i + 1) in
      let input1 := ignore input in
      let '(p, input2) := peek input1 in
      if peek_is p " " then LoadTab_loop fuel' i1 input2 else Ok (i1, input2)
  end.

Definition LoadTab (fuel : nat) (lx : Lexer) (input : istream) : lresult (Lexer * istream) :=
  let '(p, input1) := peek input in
  if peek_is p " " then
    '(i, input2) ← LoadTab_loop fuel 0 input1;
    lx1 ← (if i >? indent_size_ lx then LoadIndent fuel i lx else LoadDedent fuel i lx);
    Ok (lx1, input2)
  else
    lx1 ← LoadDedent fuel 0 lx;
    Ok (lx1, input1).

(** One pass through the body of LoadTokens' while loop; the flag says
    whether the pass left the loop through [break]. *)
Definition LoadTokens_body (fuel : nat) (lx : Lexer) (input : istream)
    : lresult (bool * Lexer * istream) :=
  let '(p, input) := peek input in
  let input := if peek_is p " " then ignore input else input in
  let '(p, input) := peek input in
  if peek_is p "#" then Ok (true, lx, input)
  else
    let '(p, input) := peek input in
    '(lx, input) ← (if peek_sat isdigit p then LoadNumber fuel lx input else Ok (lx, input));
    let '(p, input) := peek input in
    let '(quote, input) :=
      if peek_is p dquote then (true, input)
      else let '(q, input) := peek input in (peek_is q "'", input) in
    '(lx, input) ← (if quote : bool then LoadString fuel lx input else Ok (lx, input));
    let '(p, input) := peek input in
    let '(letter, input) :=
      if peek_is p "_" then (true, input)
      else let '(q, input) := peek input in (peek_sat isalpha q, input) in
    '(lx, input) ← (if letter : bool then LoadWord fuel lx input else Ok (lx, input));
    let '(p, input) := peek input in
    if IsChar (char_of_int p) then
      let '(q, input) := peek input in
      if special_operators_ (char_of_int q) then
        '(lx, input) ← LoadSign lx input;
        Ok (false, lx, input)
      else
        let '(r, input) := get input in
        Ok (false, LoadChar (char_of_int r) lx, input)
    else Ok (false, lx, input).

(** The while loop of LoadTokens, run for at most [k] passes; the loops
    inside a pass are bounded by [fuel]. *)
Fixpoint LoadTokens_loop (fuel k : nat) (lx : Lexer) (input : istream)
    : lresult (Lexer * istream) :=
  match k with
  | O => OutOfFuel
  | S k' =>
      if eofbit input then Ok (lx, input)
      else
        '(brk, lx1, input1) ← LoadTokens_body fuel lx input;
        if brk : bool then Ok (lx1, input1) else LoadTokens_loop fuel k' lx1 input1
  end.

Definition LoadTokens (fuel : nat) (lx : Lexer) (input : istream) : lresult (Lexer * istream) :=
  LoadTokens_loop fuel fuel lx input.

Definition ParseString (fuel : nat) (lx : Lexer) (input : istream) : lresult (Lexer * istream) :=
  '(lx1, input1) ← LoadTab fuel lx input;
  LoadTokens fuel lx1 input1.

(** The lines std::getline hands out: the text between line feeds, and what
    follows the last line feed when that is not empty.  [line] is the part
    of the current line read so far. *)
Fixpoint getlines (input : string) (line : string) : list string :=
  match input with
  | EmptyString =>
      match line with
      | EmptyString => []
      | _ => [line]
      end
  | String.String c rest =>
      if Ascii.eqb c newline then line :: getlines rest EmptyString
      else getlines rest (line ++ String.String c EmptyString)
  end.

(** The while loop of ParseTextOnTokens, over the lines of the input. *)
Fixpoint ParseLines (fuel : nat) (lines : list string) (lx : Lexer) : lresult Lexer :=
  match lines with
  | [] => Ok lx
  | line :: rest =>
      if negb (StringIsEmpty line) then
        '(lx1, _) ← ParseString fuel lx (stringstream line);
        ParseLines fuel rest (LoadEndl lx1)
      else ParseLines fuel rest lx
  end.

Definition ParseTextOnTokens (fuel : nat) (input : string) (lx : Lexer) : lresult Lexer :=
  lx1 ← ParseLines fuel (getlines input EmptyString) lx;
  lx2 ← LoadDedent fuel 0 lx1;
  Ok (snd (NextToken (LoadEof lx2))).

(** Lexer::Lexer(istream&). *)
Definition Lexer_ctor (fuel : nat) (input : string) : lresult Lexer :=
  ParseTextOnTokens fuel input Lexer_init.

(** *** Observations on a token stream *)

(** Token::Is<T>() for the structural markers. *)
Definition Is_Newline (t : Token) : bool :=
  match t with token_type.Newline => true | _ => false end.
Definition Is_Indent (t : Token) : bool :=
  match t with token_type.Indent => true | _ => false end.
Definition Is_Dedent (t : Token) : bool :=
  match t with token_type.Dedent => true | _ => false end.
Definition Is_Eof (t : Token) : bool :=
  match t with token_type.Eof => true | _ => false end.

(** How many tokens of a stream satisfy [p]. *)
Definition count (p : Token -> bool) (l : list Token) : nat :=
  length (List.filter p l).

(** Whether some Newline is directly followed by another one. *)
Fixpoint adjacent_Newlines (l : list Token) : bool :=
  match l with
  | t1 :: rest =>
      match rest with
      | t2 :: _ => (Is_Newline t1 && Is_Newline t2) || adjacent_Newlines rest
      | [] => false
      end
  | [] => false
  end.

(** The spec's wording of the end of the stream: the token in front of
    Eof is not a Newline. *)
Definition Eof_not_after_Newline (toks : list Token) : Prop :=
  forall i, toks !! S i = Some token_type.Eof -> toks !! i <> Some token_type.Newline.

(** The lexer states a client can observe: what the constructor returns,
    and what any number of NextToken calls make of it. *)
Inductive reachable : Lexer -> Prop :=
| reachable_ctor fuel input lx :
    Lexer_ctor fuel input = Ok lx -> reachable lx
| reachable_NextToken lx :
    reachable lx -> reachable (snd (NextToken lx)).

(** *** lexer.cpp: comparing and printing tokens *)

(** variant::index(): the position of the alternative in TokenBase. *)
Definition index (t : Token) : nat :=
  match t with
  | token_type.Number _ => 0 | token_type.Id _ => 1 | token_type.Char _ => 2
  | token_type.String _ => 3 | token_type.Class => 4 | token_type.Return => 5
  | token_type.If => 6 | token_type.Else => 7 | token_type.Def => 8
  | token_type.Newline => 9 | token_type.Print => 10 | token_type.Indent => 11
  | token_type.Dedent => 12 | token_type.And => 13 | token_type.Or => 14
  | token_type.Not => 15 | token_type.Eq => 16 | token_type.NotEq => 17
  | token_type.LessOrEq => 18 | token_type.GreaterOrEq => 19 | token_type.None => 20
  | token_type.True => 21 | token_type.False => 22 | token_type.Eof => 23
  end%nat.

(** A token struct type T, as the templates Is<T>, As<T>, TryAs<T> and
    Expect<T> use it: [A] is what a T holds ([unit] for the empty structs),
    [make] builds the token T{a}, [TryAs] is std::get_if<T>. *)
Record token_struct (A : Type) : Type := {
  make : A -> Token;
  TryAs : Token -> option A
}.
Arguments make {A} _ _.
Arguments TryAs {A} _ _.

Definition Number_ : token_struct Z :=
  {| make := token_type.Number;
     TryAs t := match t with token_type.Number v => Some v | _ => Datatypes.None end |}.
Definition Id_ : token_struct string :=
  {| make := token_type.Id;
     TryAs t := match t with token_type.Id v => Some v | _ => Datatypes.None end |}.
Definition Char_ : token_struct ascii :=
  {| make := token_type.Char;
     TryAs t := match t with token_type.Char v => Some v | _ => Datatypes.None end |}.
Definition String_ : token_struct string :=
  {| make := token_type.String;
     TryAs t := match t with token_type.String v => Some v | _ => Datatypes.None end |}.

(** The struct type of a token without payload (Class, Newline, Eof, ...). *)
Definition marker (t : Token) : token_struct unit :=
  {| make _ := t;
     TryAs t' := if (index t' =? index t)%nat then Some tt else Datatypes.None |}.

Definition Is {A} (T : token_struct A) (t : Token) : bool :=
  match TryAs T t with Some _ => true | Datatypes.None => false end.

(** operator==(const Token&, const Token&).  After the test on index() the
    two tokens hold the same alternative, so As<T>() on [rhs] does not throw. *)
Definition Token_eq (lhs rhs : Token) : bool :=
  if negb (index lhs =? index rhs)%nat then false
  else
    match TryAs Char_ lhs, TryAs Char_ rhs with
    | Some a, Some b => Ascii.eqb a b
    | _, _ =>
        match TryAs Number_ lhs, TryAs Number_ rhs with
        | Some a, Some b => a =? b
        | _, _ =>
            match TryAs String_ lhs, TryAs String_ rhs with
            | Some a, Some b => String.eqb a b
            | _, _ =>
                match TryAs Id_ lhs, TryAs Id_ rhs with
                | Some a, Some b => String.eqb a b
                | _, _ => true
                end
            end
        end
    end.

Definition Token_ne (lhs rhs : Token) : bool := negb (Token_eq lhs rhs).

(** operator<<(ostream&, const Token&): the text sent to the stream. *)
Definition braced (type value : string) : string :=
  type ++ String.String "{" (value ++ String.String "}" EmptyString).

Definition UNVALUED_OUTPUT : list (Token * string) :=
  [(token_type.Class, "Class"); (token_type.Return, "Return"); (token_type.If, "If");
   (token_type.Else, "Else"); (token_type.Def, "Def"); (token_type.Newline, "Newline");
   (token_type.Print, "Print"); (token_type.Indent, "Indent"); (token_type.Dedent, "Dedent");
   (token_type.And, "And"); (token_type.Or, "Or"); (token_type.Not, "Not");
   (token_type.Eq, "Eq"); (token_type.NotEq, "NotEq"); (token_type.LessOrEq, "LessOrEq");
   (token_type.GreaterOrEq, "GreaterOrEq"); (token_type.None, "None");
   (token_type.True, "True"); (token_type.False, "False"); (token_type.Eof, "Eof")].

Fixpoint unvalued_output (checks : list (Token * string)) (rhs : Token) : string :=
  match checks with
  | (type, text) :: rest =>
      if Is (marker type) rhs then text else unvalued_output rest rhs
  | [] => "Unknown token :("
  end.

Definition Token_output (rhs : Token) : string :=
  match TryAs Number_ rhs with
  | Some v => braced "Number" (pretty v)
  | Datatypes.None =>
      match TryAs Id_ rhs with
      | Some v => braced "Id" v
      | Datatypes.None =>
          match TryAs String_ rhs with
          | Some v => braced "String" v
          | Datatypes.None =>
              match TryAs Char_ rhs with
              | Some v => braced "Char" (String.String v EmptyString)
              | Datatypes.None => unvalued_output UNVALUED_OUTPUT rhs
              end
          end
      end
  end.

(** *** lexer.h: Expect and ExpectNext *)

Inductive LexerError : Type :=
| Build_LexerError (what : string).

(** Expect<T>(): what the current token holds as a T. *)
Definition Expect {A} (T : token_struct A) (lx : Lexer) : result LexerError A :=
  match TryAs T (current_token_ lx) with
  | Some a => Ok a
  | Datatypes.None => Throw (Build_LexerError "The token is not of the appropriate type")
  end.

(** Expect<T, U>(value), for a T with a [value] member that [ne] (the
    operator != of its type) compares with [value]. *)
Definition Expect_value {A} (T : token_struct A) (ne : A -> A -> bool) (value : A) (lx : Lexer)
    : result LexerError unit :=
  a ← Expect T lx;
  if ne a value then Throw (Build_LexerError "A token with an invalid value") else Ok tt.

(** ExpectNext: the lexer is advanced also when the test then fails. *)
Definition ExpectNext {A} (T : token_struct A) (lx : Lexer) : result LexerError A * Lexer :=
  let lx' := snd (NextToken lx) in (Expect T lx', lx').

Definition ExpectNext_value {A} (T : token_struct A) (ne : A -> A -> bool) (value : A)
    (lx : Lexer) : result LexerError unit * Lexer :=
  let lx' := snd (NextToken lx) in (Expect_value T ne value lx', lx').

End parse.


(** ** statement.h: the nodes of the syntax tree

    A node that holds a runtime object as a member ([value_] of a
    ValueStatement, [cls_] of a NewInstance) or a handle to one ([cls_] of a
    ClassDefinition) is given by the address of that object. *)

Module ast.

(** The comparators of runtime.h that a Comparison is built with. *)
Inductive Comparator : Type :=
| Equal | Less | NotEqual | Greater | LessOrEqual | GreaterOrEqual.

Inductive Statement : Type :=
| ValueStatement (value_ : nat)
| VariableValue (dotted_ids_ : list string)
| Assignment (var_ : string) (rv_ : Statement)
| FieldAssignment (object_ : list string) (field_name_ : string) (rv_ : Statement)
| None
| Print (args_ : list Statement)
| MethodCall (object_ : Statement) (method_ : string) (args_ : list Statement)
| NewInstance (cls_ : nat) (args_ : list Statement)
| Stringify (argument_ : Statement)
| Add (lhs_ rhs_ : Statement)
| Sub (lhs_ rhs_ : Statement)
| Mult (lhs_ rhs_ : Statement)
| Div (lhs_ rhs_ : Statement)
| Or (lhs_ rhs_ : Statement)
| And (lhs_ rhs_ : Statement)
| Not (argument_ : Statement)
| Compound (args_ : list Statement)
| MethodBody (body_ : Statement)
| Return (statement_ : Statement)
| ClassDefinition (cls_ : option nat)
| IfElse (condition_ if_body_ : Statement) (else_body_ : option Statement)
| Comparison (cmp_ : Comparator) (lhs_ rhs_ : Statement).

End ast.

(** ** runtime.h, runtime.cpp: the object model *)

Module runtime.

(** An ObjectHolder is a null pointer or the address of an object. *)
Abbreviation ObjectHolder := (option nat).

Abbreviation Closure := (gmap string ObjectHolder).

Record Method : Type := {
  name : string;
  formal_params : list string;
  body : ast.Statement
}.

(** A Class is never changed once it is built, so the class a [parent_]
    pointer or an instance's [cls_] reference leads to is given by value. *)
Inductive Class : Type :=
| Build_Class (name_ : string) (methods_ : list Method) (parent_ : option Class).

Definition name_ (c : Class) : string := let 'Build_Class n _ _ := c in n.
Definition methods_ (c : Class) : list Method := let 'Build_Class _ m _ := c in m.
Definition parent_ (c : Class) : option Class := let 'Build_Class _ _ p := c in p.

Inductive Object : Type :=
| Number (value_ : Z)
| String (value_ : string)
| Bool (value_ : bool)
| Class_ (c : Class)
| ClassInstance (cls_ : Class) (closure_ : Closure).

(** The objects made so far, by address, and the text written so far to
    the Context's output stream.  An address is never used twice, and the
    cell of an object stays in [heap] after the object is destroyed.
    [owned] lists the objects made by ObjectHolder::Own while the program
    runs: such an object is destroyed with the last holder that owns it.
    Every other object is a member of a node of the tree (the constant of a
    ValueStatement, the instance of a NewInstance) or is kept by one (the
    class of a ClassDefinition) and outlives the run.  [held] lists what
    the functions that are suspended keep: the closures of the callers,
    their vectors of arguments and the operands they have evaluated. *)
Record State : Type := {
  heap : list Object;
  output : string;
  owned : list nat;
  held : list nat
}.

Inductive exception : Type :=
| runtime_error (what : string)
| thrown_ObjectHolder (v : ObjectHolder).

(** *** Computations over a state *)

Definition M (S A : Type) : Type := S -> result exception A * S.

#[global] Instance M_ret {S} : MRet (M S) := fun _ a s => (Ok a, s).

#[global] Instance M_bind {S} : MBind (M S) := fun _ _ k m s =>
  match m s with
  | (Ok a, s') => k a s'
  | (Throw e, s') => (Throw e, s')
  | (Undefined, s') => (Undefined, s')
  | (OutOfFuel, s') => (OutOfFuel, s')
  end.

Definition throw {S A} (e : exception) : M S A := fun s => (Throw e, s).
Definition undefined {S A} : M S A := fun s => (Undefined, s).
Definition out_of_fuel {S A} : M S A := fun s => (OutOfFuel, s).

(** Execute works on the caller's closure and on the state. *)
Abbreviation Env := (Closure * State)%type.

Definition on_state {A} (m : M State A) : M Env A := fun '(closure, st) =>
  let '(r, st') := m st in (r, (closure, st')).

Definition get_closure : M Env Closure := fun '(closure, st) => (Ok closure, (closure, st)).
Definition set_closure (closure : Closure) : M Env unit := fun '(_, st) => (Ok tt, (closure, st)).
Definition get_state {S} : M S S := fun s => (Ok s, s).

(** ObjectHolder::Own: a new object behind the last address in use. *)
Definition Own (o : Object) : M State ObjectHolder := fun st =>
  (Ok (Some (length (heap st))),
   {| heap := heap st ++ [o]; output := output st;
      owned := length (heap st) :: owned st; held := held st |}).

(** ObjectHolder::Share: a handle to an object that already exists. *)
Definition Share (a : nat) : ObjectHolder := Some a.

(** ObjectHolder::Get, followed to the object.  A tree built against the
    heap holds no address outside it; such an address reads as null. *)
Definition Get (st : State) (h : ObjectHolder) : option Object :=
  a ← h; heap st !! a.

Definition write (text : string) : M State unit := fun st =>
  (Ok tt, {| heap := heap st; output := output st ++ text;
             owned := owned st; held := held st |}).

(** The holders [hs] of a running function are added to what is kept, and
    what was kept in [st0] is put back when the function is left. *)
Definition pin (hs : list ObjectHolder) (st : State) : State :=
  {| heap := heap st; output := output st; owned := owned st;
     held := omap id hs ++ held st |}.

Definition restore (st0 st : State) : State :=
  {| heap := heap st; output := output st; owned := owned st; held := held st0 |}.

(** Whether a closure has a holder of the object at [a]. *)
Definition holds (closure : Closure) (a : nat) : bool :=
  bool_decide (Some a ∈ (map_to_list closure).*2).

(** Whether some holder has the object at [a] while the function on
    [closure] runs: one of [closure], a field of an instance (the instances
    are members of NewInstance nodes), or a holder of a suspended function. *)
Definition kept (closure : Closure) (st : State) (a : nat) : bool :=
  holds closure a
  || existsb (fun o => match o with
                       | ClassInstance _ fields => holds fields a
                       | _ => false
                       end) (heap st)
  || bool_decide (a ∈ held st).

(** Whether the object at [a] still exists: it was not made by Own, or a
    holder has it. *)
Definition alive (closure : Closure) (st : State) (a : nat) : bool :=
  negb (bool_decide (a ∈ owned st)) || kept closure st a.

Definition IsTrue (st : State) (object : ObjectHolder) : bool :=
  match Get st object with
  | Some (Number v) => negb (v =? 0)
  | Some (String s) => negb (String.eqb s EmptyString)
  | Some (Bool b) => b
  | _ => false
  end.

Fixpoint GetMethod (c : Class) (method : string) : option Method :=
  match c with
  | Build_Class _ methods parent =>
      match List.find (fun m => String.eqb (name m) method) methods with
      | Some m => Some m
      | Datatypes.None =>
          match parent with
          | Some p => GetMethod p method
          | Datatypes.None => Datatypes.None
          end
      end
  end.

(** ClassInstance::HasMethod, on the instance's class. *)
Definition HasMethod (cls_ : Class) (method : string) (argument_count : nat) : bool :=
  match GetMethod cls_ method with
  | Some m => (length (formal_params m) =? argument_count)%nat
  | Datatypes.None => false
  end.

(** unordered_map::emplace keeps the entry a key already has. *)
Definition emplace (k : string) (v : ObjectHolder) (closure : Closure) : Closure :=
  match closure !! k with
  | Some _ => closure
  | Datatypes.None => <[k := v]> closure
  end.

Fixpoint emplace_args (params : list string) (actual_args : list ObjectHolder)
    (closure : Closure) : Closure :=
  match params, actual_args with
  | p :: params', v :: actual_args' => emplace_args params' actual_args' (emplace p v closure)
  | _, _ => closure
  end.

(** [os << this]: the text of a pointer is implementation-defined. *)
Definition pointer_text (a : nat) : string := "0x" ++ pretty a.

(** Signed arithmetic whose result does not fit an int is undefined. *)
Definition int_result {S} (z : Z) : M S Z :=
  if in_int z then mret z else undefined.

End runtime.

(** ** statement.cpp and the calls of runtime.cpp that run statements *)

Module eval.
Import runtime.

(** Runs a computation on a closure of its own, which is dropped afterwards. *)
Definition with_closure {A} (closure : Closure) (m : M Env A) : M State A := fun st =>
  let '(r, (_, st')) := m (closure, st) in (r, st').

Definition get_st : M Env State := on_state get_state.

(** Runs [m] in the same function while the local holders [hs] exist. *)
Definition holding {A} (hs : list ObjectHolder) (m : M Env A) : M Env A :=
  fun '(closure, st) =>
    let '(r, (closure', st')) := m (closure, pin hs st) in (r, (closure', restore st st')).

(** Runs a call that leaves the function: its closure and its local
    holders [hs] exist until the call comes back. *)
Definition in_call {A} (hs : list ObjectHolder) (m : M State A) : M Env A :=
  fun '(closure, st) =>
    let '(r, st') := m (pin (hs ++ (map_to_list closure).*2) st) in
    (r, (closure, restore st st')).

(** try { ... } catch (const ObjectHolder& result) { return result; } return {}; *)
Definition catch_ObjectHolder {S} (m : M S ObjectHolder) : M S ObjectHolder := fun s =>
  match m s with
  | (Ok _, s') => (Ok Datatypes.None, s')
  | (Throw (thrown_ObjectHolder result), s') => (Ok result, s')
  | other => other
  end.

(** ptr_obj->Fields()[field_name] = v, on the instance at address [a]. *)
Definition set_field (a : nat) (field_name : string) (v : ObjectHolder) : M State unit := fun st =>
  match heap st !! a with
  | Some (ClassInstance cls fields) =>
      (Ok tt, {| heap := <[a := ClassInstance cls (<[field_name := v]> fields)]> (heap st);
                 output := output st; owned := owned st; held := held st |})
  | _ => (Undefined, st)
  end.

(** VariableValue::Execute: the walk along the dotted names; [copy] is the
    closure the next name is looked up in. *)
Fixpoint resolve (st : State) (copy : Closure) (dotted_ids : list string)
    : result exception ObjectHolder :=
  match dotted_ids with
  | [] => Ok Datatypes.None
  | field_name :: rest =>
      match copy !! field_name with
      | Datatypes.None => Throw (runtime_error ("Not field" ++ field_name))
      | Some h =>
          match rest with
          | [] => Ok h
          | _ :: _ =>
              match Get st h with
              | Some (ClassInstance _ fields) => resolve st fields rest
              | _ => Throw (runtime_error "This isn't object")
              end
          end
      end
  end.

Definition VariableValue_Execute (dotted_ids_ : list string) : M Env ObjectHolder :=
  fun '(closure, st) => (resolve st closure dotted_ids_, (closure, st)).

(** The loop of Compound::Execute, which drops every result at once. *)
Fixpoint ExecuteArgs (exec : ast.Statement -> M Env ObjectHolder) (args_ : list ast.Statement)
    : M Env (list ObjectHolder) :=
  match args_ with
  | [] => mret []
  | arg :: rest =>
      v ← exec arg;
      vs ← ExecuteArgs exec rest;
      mret (v :: vs)
  end.

(** The loop of MethodCall::Execute and NewInstance::Execute: the vector
    [params] holds the results so far while the next argument runs. *)
Fixpoint ExecuteParams (exec : ast.Statement -> M Env ObjectHolder)
    (params : list ObjectHolder) (args_ : list ast.Statement) : M Env (list ObjectHolder) :=
  match args_ with
  | [] => mret params
  | arg :: rest =>
      v ← holding params (exec arg);
      ExecuteParams exec (params ++ [v]) rest
  end.

(** The loop of Print::Execute.  Of the holder an argument returns only
    Get() is kept: the holder is gone when Print is called on the pointer,
    which then dangles unless another holder owns the object. *)
Fixpoint PrintArgs (exec : ast.Statement -> M Env ObjectHolder) (print : nat -> M State string)
    (args_ : list ast.Statement) : M Env unit :=
  match args_ with
  | [] => mret tt
  | arg :: rest =>
      h ← exec arg;
      closure ← get_closure;
      st ← get_st;
      _ ← match h, Get st h with
          | Some a, Some _ =>
              if alive closure st a then
                text ← in_call [] (print a); on_state (write text)
              else undefined
          | _, _ => on_state (write "None")
          end;
      _ ← match rest with
          | [] => mret tt
          | _ :: _ => on_state (write " ")
          end;
      PrintArgs exec print rest
  end.

(** The comparators derived from Equal and Less. *)
Section comparators.
Context (Equal Less : ObjectHolder -> ObjectHolder -> M State bool).

Definition NotEqual (lhs rhs : ObjectHolder) : M State bool :=
  b ← Equal lhs rhs; mret (negb b).

Definition LessOrEqual (lhs rhs : ObjectHolder) : M State bool :=
  b ← Less lhs rhs; if b : bool then mret true else Equal lhs rhs.

Definition Greater (lhs rhs : ObjectHolder) : M State bool :=
  b ← LessOrEqual lhs rhs; mret (negb b).

Definition GreaterOrEqual (lhs rhs : ObjectHolder) : M State bool :=
  b ← Less lhs rhs; mret (negb b).

Definition apply_Comparator (cmp_ : ast.Comparator) : ObjectHolder -> ObjectHolder -> M State bool :=
  match cmp_ with
  | ast.Equal => Equal
  | ast.Less => Less
  | ast.NotEqual => NotEqual
  | ast.Greater => Greater
  | ast.LessOrEqual => LessOrEqual
  | ast.GreaterOrEqual => GreaterOrEqual
  end.
End comparators.

(** Execute, Call, Print, Equal and Less call one another; [fuel] bounds
    the depth of these calls.  In [closure[var_] = rv_->Execute(...)] and
    [ptr_obj->Fields()[field_name_] = rv_->Execute(...)] the right operand
    of the assignment is run first (the sources are C++17).  A local
    ObjectHolder ([lhs], the vector [params]) exists while the rest of its
    function runs; the holder of [IsTrue(x->Execute(...))] or of a dropped
    result is gone at the end of its expression. *)
Fixpoint Execute (fuel : nat) (s : ast.Statement) {struct fuel} : M Env ObjectHolder :=
  match fuel with
  | O => out_of_fuel
  | S fuel' =>
      match s with
      | ast.ValueStatement value_ => mret (Share value_)
      | ast.VariableValue dotted_ids_ => VariableValue_Execute dotted_ids_
      | ast.Assignment var_ rv_ =>
          v ← Execute fuel' rv_;
          closure ← get_closure;
          _ ← set_closure (<[var_ := v]> closure);
          mret v
      | ast.FieldAssignment object_ field_name_ rv_ =>
          h ← VariableValue_Execute object_;
          st ← get_st;
          match h, Get st h with
          | Some a, Some (ClassInstance _ _) =>
              v ← Execute fuel' rv_;
              _ ← on_state (set_field a field_name_ v);
              mret v
          | _, _ => mret Datatypes.None
          end
      | ast.None => mret Datatypes.None
      | ast.Print args_ =>
          _ ← PrintArgs (Execute fuel') (Object_Print fuel') args_;
          _ ← on_state (write (String.String parse.newline EmptyString));
          mret Datatypes.None
      | ast.MethodCall object_ method_ args_ =>
          h ← Execute fuel' object_;
          st ← get_st;
          match h, Get st h with
          | Some a, Some (ClassInstance _ _) =>
              params ← ExecuteParams (Execute fuel') [] args_;
              in_call params (Call fuel' a method_ params)
          | _, _ => mret Datatypes.None
          end
      | ast.NewInstance cls_ args_ =>
          st ← get_st;
          match heap st !! cls_ with
          | Some (ClassInstance cls _) =>
              _ ← (if HasMethod cls "__init__" (length args_) then
                     params ← ExecuteParams (Execute fuel') [] args_;
                     _ ← in_call params (Call fuel' cls_ "__init__" params);
                     mret tt
                   else mret tt);
              mret (Share cls_)
          | _ => undefined
          end
      | ast.Stringify argument_ =>
          h ← Execute fuel' argument_;
          closure ← get_closure;
          st ← get_st;
          match h, Get st h with
          | Some a, Some _ =>
              if alive closure st a then
                text ← in_call [] (Object_Print fuel' a);
                on_state (Own (String text))
              else undefined
          | _, _ => on_state (Own (String "None"))
          end
      | ast.Add lhs_ rhs_ =>
          lhs ← Execute fuel' lhs_;
          rhs ← holding [lhs] (Execute fuel' rhs_);
          st ← get_st;
          match Get st lhs, Get st rhs with
          | Some (Number l), Some (Number r) =>
              z ← int_result (l + r); on_state (Own (Number z))
          | Some (String l), Some (String r) => on_state (Own (String (l ++ r)))
          | Some (ClassInstance _ _), _ =>
              match lhs with
              | Some a => in_call [lhs; rhs] (Call fuel' a "__add__" [rhs])
              | Datatypes.None => undefined
              end
          | _, _ => throw (runtime_error "The operator is not overloaded +")
          end
      | ast.Sub lhs_ rhs_ =>
          lhs ← Execute fuel' lhs_;
          rhs ← holding [lhs] (Execute fuel' rhs_);
          st ← get_st;
          match Get st lhs, Get st rhs with
          | Some (Number l), Some (Number r) =>
              z ← int_result (l - r); on_state (Own (Number z))
          | _, _ => throw (runtime_error "The operator is not overloaded -")
          end
      | ast.Mult lhs_ rhs_ =>
          lhs ← Execute fuel' lhs_;
          rhs ← holding [lhs] (Execute fuel' rhs_);
          st ← get_st;
          match Get st lhs, Get st rhs with
          | Some (Number l), Some (Number r) =>
              z ← int_result (l * r); on_state (Own (Number z))
          | _, _ => throw (runtime_error "The operator is not overloaded *")
          end
      | ast.Div lhs_ rhs_ =>
          lhs ← Execute fuel' lhs_;
          rhs ← holding [lhs] (Execute fuel' rhs_);
          st ← get_st;
          match Get st lhs, Get st rhs with
          | Some (Number l), Some (Number r) =>
              if negb (r =? 0) then
                z ← int_result (Z.quot l r); on_state (Own (Number z))
              else throw (runtime_error "The denominator is zero")
          | _, _ => throw (runtime_error "The operator is not overloaded /")
          end
      | ast.Or lhs_ rhs_ =>
          lhs ← Execute fuel' lhs_;
          st ← get_st;
          if negb (IsTrue st lhs) then
            rhs ← Execute fuel' rhs_;
            st' ← get_st;
            on_state (Own (Bool (IsTrue st' rhs)))
          else on_state (Own (Bool true))
      | ast.And lhs_ rhs_ =>
          lhs ← Execute fuel' lhs_;
          st ← get_st;
          if IsTrue st lhs then
            rhs ← Execute fuel' rhs_;
            st' ← get_st;
            on_state (Own (Bool (IsTrue st' rhs)))
          else on_state (Own (Bool false))
      | ast.Not argument_ =>
          v ← Execute fuel' argument_;
          st ← get_st;
          on_state (Own (Bool (negb (IsTrue st v))))
      | ast.Compound args_ =>
          _ ← ExecuteArgs (Execute fuel') args_;
          mret Datatypes.None
      | ast.MethodBody body_ => catch_ObjectHolder (Execute fuel' body_)
      | ast.Return statement_ =>
          v ← Execute fuel' statement_;
          throw (thrown_ObjectHolder v)
      | ast.ClassDefinition cls_ =>
          st ← get_st;
          match Get st cls_ with
          | Some (Class_ c) =>
              closure ← get_closure;
              _ ← set_closure (<[name_ c := cls_]> closure);
              mret cls_
          | _ => undefined
          end
      | ast.IfElse condition_ if_body_ else_body_ =>
          c ← Execute fuel' condition_;
          st ← get_st;
          if IsTrue st c then Execute fuel' if_body_
          else
            match else_body_ with
            | Some else_body => Execute fuel' else_body
            | Datatypes.None => mret Datatypes.None
            end
      | ast.Comparison cmp_ lhs_ rhs_ =>
          lhs ← Execute fuel' lhs_;
          rhs ← holding [lhs] (Execute fuel' rhs_);
          b ← in_call [lhs; rhs] (apply_Comparator (Equal fuel') (Less fuel') cmp_ lhs rhs);
          on_state (Own (Bool b))
      end
  end

(** ClassInstance::Call on the instance at address [self]. *)
with Call (fuel : nat) (self : nat) (method : string) (actual_args : list ObjectHolder)
    {struct fuel} : M State ObjectHolder :=
  match fuel with
  | O => out_of_fuel
  | S fuel' =>
      st ← get_state;
      match heap st !! self with
      | Some (ClassInstance cls _) =>
          if HasMethod cls method (length actual_args) then
            match GetMethod cls method with
            | Some m =>
                let closure := emplace_args (formal_params m) actual_args ∅ in
                let closure := emplace "self" (Share self) closure in
                with_closure closure (Execute fuel' (body m))
            | Datatypes.None => undefined
            end
          else throw (runtime_error ("No method " ++ method))
      | _ => undefined
      end
  end

(** Object::Print of the object at address [self]: the text it sends to
    the stream, after the calls it makes on the way. *)
with Object_Print (fuel : nat) (self : nat) {struct fuel} : M State string :=
  match fuel with
  | O => out_of_fuel
  | S fuel' =>
      st ← get_state;
      match heap st !! self with
      | Some (Number v) => mret (pretty v)
      | Some (String s) => mret s
      | Some (Bool b) => mret (if b then "True" else "False")
      | Some (Class_ c) => mret ("Class " ++ name_ c)
      | Some (ClassInstance cls _) =>
          if HasMethod cls "__str__" 0 then
            r ← Call fuel' self "__str__" [];
            match r with
            | Some a => Object_Print fuel' a
            | Datatypes.None => undefined
            end
          else mret (pointer_text self)
      | Datatypes.None => undefined
      end
  end

with Equal (fuel : nat) (lhs rhs : ObjectHolder) {struct fuel} : M State bool :=
  match fuel with
  | O => out_of_fuel
  | S fuel' =>
      st ← get_state;
      match Get st lhs, Get st rhs with
      | Datatypes.None, Datatypes.None => mret true
      | Some (Number l), Some (Number r) => mret (l =? r)
      | Some (String l), Some (String r) => mret (String.eqb l r)
      | Some (Bool l), Some (Bool r) => mret (Bool.eqb l r)
      | Some (ClassInstance cls _), _ =>
          if HasMethod cls "__eq__" 1 then
            match lhs with
            | Some a =>
                r ← Call fuel' a "__eq__" [rhs];
                st' ← get_state;
                mret (IsTrue st' r)
            | Datatypes.None => undefined
            end
          else throw (runtime_error "Cannot compare objects for equality")
      | _, _ => throw (runtime_error "Cannot compare objects for equality")
      end
  end

with Less (fuel : nat) (lhs rhs : ObjectHolder) {struct fuel} : M State bool :=
  match fuel with
  | O => out_of_fuel
  | S fuel' =>
      st ← get_state;
      (* if (!lhs && !rhs) { runtime_error(...); }  builds an exception
         object and drops it: nothing is thrown at this point *)
      let _ := match Get st lhs, Get st rhs with
               | Datatypes.None, Datatypes.None =>
                   Some (runtime_error "Cannot compare objects for less")
               | _, _ => Datatypes.None
               end in
      match Get st lhs, Get st rhs with
      | Some (Number l), Some (Number r) => mret (l <? r)
      | Some (String l), Some (String r) => mret (String.ltb l r)
      | Some (Bool l), Some (Bool r) => mret (negb l && r)
      | Some (ClassInstance cls _), _ =>
          if HasMethod cls "__lt__" 1 then
            match lhs with
            | Some a =>
                r ← Call fuel' a "__lt__" [rhs];
                st' ← get_state;
                mret (IsTrue st' r)
            | Datatypes.None => undefined
            end
          else throw (runtime_error "Cannot compare objects for less")
      | _, _ => throw (runtime_error "Cannot compare objects for less")
      end
  end.

End eval.

(** ** Vocabulary for the properties of the lexer *)

Module LexerSpec.
Import parse.
Local Open Scope list_scope.

(** Tokens of a line's body: LoadTokens pushes none of the four structural
    markers. *)
Definition is_body (t : Token) : bool :=
  negb (Is_Newline t || Is_Indent t || Is_Dedent t || Is_Eof t).

(** One push onto the token vector while a line is read, together with the
    change of indent_size_ that goes with it. *)
Inductive emit : Lexer -> Lexer -> Prop :=
| emit_body t lx :
    is_body t = true -> emit lx (push_back t lx)
| emit_Indent lx :
    indent_size_ lx + 2 < size_t_modulus ->
    emit lx (push_back token_type.Indent (set_indent_size (indent_size_ lx + 2) lx))
| emit_Dedent lx :
    2 <= indent_size_ lx ->
    emit lx (push_back token_type.Dedent (set_indent_size (indent_size_ lx - 2) lx)).

Definition emits : Lexer -> Lexer -> Prop := rtc emit.

(** What holds of the lexer all the time lines are read. *)
Record lexing_inv (lx : Lexer) : Prop := {
  inv_range : 0 <= indent_size_ lx < size_t_modulus;
  inv_balance :
    indent_size_ lx
    = 2 * (Z.of_nat (count Is_Indent (tokens_ lx)) - Z.of_nat (count Is_Dedent (tokens_ lx)));
  inv_no_Eof : Forall (fun t => Is_Eof t = false) (tokens_ lx);
  inv_no_adjacent : adjacent_Newlines (tokens_ lx) = false;
  inv_cursor : current_index_ lx = 0%nat
}.

(** Between two lines the stream is empty or ends in Newline. *)
Definition at_line_start (lx : Lexer) : Prop :=
  last (tokens_ lx) = None \/ last (tokens_ lx) = Some token_type.Newline.

(** The cursor of a reachable lexer: the stream ends in its only Eof, the
    cursor is one past the current token. *)
Definition cursor_inv (lx : Lexer) : Prop :=
  exists body i,
    tokens_ lx = body ++ [token_type.Eof]
    /\ Forall (fun t => t <> token_type.Eof) body
    /\ current_index_ lx = S i
    /\ tokens_ lx !! i = Some (current_token_ lx).

Definition src_assign : string := "x = 1" ++ String.String newline EmptyString.

Definition src_nested : string :=
  "if x:" ++ String.String newline "  if y:" ++ String.String newline "    print 1".

End LexerSpec.

(** ** Vocabulary for the properties of the evaluator, and sample programs *)

Module EvalSpec.
Import runtime eval.
Local Open Scope list_scope.

(** The state after ObjectHolder::Own has put [o] behind the heap. *)
Definition allocated (o : Object) (st : State) : State :=
  {| heap := heap st ++ [o]; output := output st;
     owned := length (heap st) :: owned st; held := held st |}.

(** The state after [text] has been written to the output stream. *)
Definition written (text : string) (st : State) : State :=
  {| heap := heap st; output := (output st ++ text)%string;
     owned := owned st; held := held st |}.

(** Numbers, Strings and Bools: the objects Own is called with. *)
Definition is_value (o : Object) : bool :=
  match o with
  | Number _ | String _ | Bool _ => true
  | _ => false
  end.

(** What a run may have done to the state, from [st] to [st']: it wrote
    text behind the output; it made objects (the addresses in use only
    grow, what is new is made by Own, and what was there is owned or not
    as before); every instance is still at its address, with its class and
    with every field it had still set, and no instance has appeared; the
    classes are the same; and the Numbers, Strings and Bools that are
    members of nodes are unchanged. *)
Definition extends (st st' : State) : Prop :=
  (exists text, output st' = (output st ++ text)%string)
  /\ (length (heap st) <= length (heap st'))%nat
  /\ (forall a, (a < length (heap st))%nat -> a ∈ owned st' <-> a ∈ owned st)
  /\ (forall a, (length (heap st) <= a < length (heap st'))%nat -> a ∈ owned st')
  /\ (forall a cls fields,
        heap st !! a = Some (ClassInstance cls fields) ->
        exists fields',
          heap st' !! a = Some (ClassInstance cls fields')
          /\ forall k, is_Some (fields !! k) -> is_Some (fields' !! k))
  /\ (forall a cls fields',
        heap st' !! a = Some (ClassInstance cls fields') ->
        exists fields, heap st !! a = Some (ClassInstance cls fields))
  /\ (forall a c, heap st !! a = Some (Class_ c) <-> heap st' !! a = Some (Class_ c))
  /\ (forall a o,
        heap st !! a = Some o -> is_value o = true -> a ∉ owned st ->
        heap st' !! a = Some o).

Definition state_mono {A} (m : M State A) : Prop :=
  forall st r st', m st = (r, st') -> extends st st'.

Definition env_mono {A} (m : M Env A) : Prop :=
  forall closure st r closure' st', m (closure, st) = (r, (closure', st')) -> extends st st'.

(** The nodes with a left and a right operand. *)
Inductive binary : (ast.Statement -> ast.Statement -> ast.Statement) -> Prop :=
| binary_Add : binary ast.Add
| binary_Sub : binary ast.Sub
| binary_Mult : binary ast.Mult
| binary_Div : binary ast.Div
| binary_Comparison cmp_ : binary (ast.Comparison cmp_).

(** [runs fuel s env m env_m]: the node [s], executed in [env] with the
    bound [S fuel], comes to run [m] in [env_m], the operands before having
    returned.  [m] is the execution of an operand or a call the node
    makes; every node but MethodBody is listed with every computation it
    runs. *)
Inductive runs (fuel : nat) : ast.Statement -> Env -> forall A, M Env A -> Env -> Prop :=
| runs_Assignment var_ rv_ env :
    runs fuel (ast.Assignment var_ rv_) env _ (Execute fuel rv_) env
| runs_FieldAssignment_object object_ field_name_ rv_ env :
    runs fuel (ast.FieldAssignment object_ field_name_ rv_) env
      _ (VariableValue_Execute object_) env
| runs_FieldAssignment object_ field_name_ rv_ closure st a cls fields :
    resolve st closure object_ = Ok (Some a) ->
    heap st !! a = Some (ClassInstance cls fields) ->
    runs fuel (ast.FieldAssignment object_ field_name_ rv_) (closure, st)
      _ (Execute fuel rv_) (closure, st)
| runs_Print_arg arg rest env :
    runs fuel (ast.Print (arg :: rest)) env _ (Execute fuel arg) env
| runs_Print_object arg rest env a closure1 st1 o :
    Execute fuel arg env = (Ok (Some a), (closure1, st1)) ->
    heap st1 !! a = Some o ->
    alive closure1 st1 a = true ->
    runs fuel (ast.Print (arg :: rest)) env _ (in_call [] (Object_Print fuel a)) (closure1, st1)
| runs_Print_next arg rest env closure1 st1 A (m : M Env A) env_m :
    PrintArgs (Execute fuel) (Object_Print fuel) [arg] env = (Ok tt, (closure1, st1)) ->
    rest <> [] ->
    runs fuel (ast.Print rest) (closure1, written " " st1) A m env_m ->
    runs fuel (ast.Print (arg :: rest)) env A m env_m
| runs_MethodCall_object object_ method_ args_ env :
    runs fuel (ast.MethodCall object_ method_ args_) env _ (Execute fuel object_) env
| runs_MethodCall_arg object_ method_ before arg after env a closure1 st1 cls fields params env2 :
    Execute fuel object_ env = (Ok (Some a), (closure1, st1)) ->
    heap st1 !! a = Some (ClassInstance cls fields) ->
    ExecuteParams (Execute fuel) [] before (closure1, st1) = (Ok params, env2) ->
    runs fuel (ast.MethodCall object_ method_ (before ++ arg :: after)) env
      _ (holding params (Execute fuel arg)) env2
| runs_MethodCall_Call object_ method_ args_ env a closure1 st1 cls fields params env2 :
    Execute fuel object_ env = (Ok (Some a), (closure1, st1)) ->
    heap st1 !! a = Some (ClassInstance cls fields) ->
    ExecuteParams (Execute fuel) [] args_ (closure1, st1) = (Ok params, env2) ->
    runs fuel (ast.MethodCall object_ method_ args_) env
      _ (in_call params (Call fuel a method_ params)) env2
| runs_NewInstance_arg cls_ before arg after closure st cls fields params env2 :
    heap st !! cls_ = Some (ClassInstance cls fields) ->
    HasMethod cls "__init__" (length (before ++ arg :: after)) = true ->
    ExecuteParams (Execute fuel) [] before (closure, st) = (Ok params, env2) ->
    runs fuel (ast.NewInstance cls_ (before ++ arg :: after)) (closure, st)
      _ (holding params (Execute fuel arg)) env2
| runs_NewInstance_Call cls_ args_ closure st cls fields params env2 :
    heap st !! cls_ = Some (ClassInstance cls fields) ->
    HasMethod cls "__init__" (length args_) = true ->
    ExecuteParams (Execute fuel) [] args_ (closure, st) = (Ok params, env2) ->
    runs fuel (ast.NewInstance cls_ args_) (closure, st)
      _ (in_call params (Call fuel cls_ "__init__" params)) env2
| runs_Stringify_arg argument_ env :
    runs fuel (ast.Stringify argument_) env _ (Execute fuel argument_) env
| runs_Stringify_object argument_ env a closure1 st1 o :
    Execute fuel argument_ env = (Ok (Some a), (closure1, st1)) ->
    heap st1 !! a = Some o ->
    alive closure1 st1 a = true ->
    runs fuel (ast.Stringify argument_) env _ (in_call [] (Object_Print fuel a)) (closure1, st1)
| runs_lhs op lhs_ rhs_ env :
    binary op ->
    runs fuel (op lhs_ rhs_) env _ (Execute fuel lhs_) env
| runs_rhs op lhs_ rhs_ env lhs env1 :
    binary op ->
    Execute fuel lhs_ env = (Ok lhs, env1) ->
    runs fuel (op lhs_ rhs_) env _ (holding [lhs] (Execute fuel rhs_)) env1
| runs_Add_Call lhs_ rhs_ env a env1 rhs closure2 st2 cls fields :
    Execute fuel lhs_ env = (Ok (Some a), env1) ->
    holding [Some a] (Execute fuel rhs_) env1 = (Ok rhs, (closure2, st2)) ->
    heap st2 !! a = Some (ClassInstance cls fields) ->
    runs fuel (ast.Add lhs_ rhs_) env
      _ (in_call [Some a; rhs] (Call fuel a "__add__" [rhs])) (closure2, st2)
| runs_Comparison_cmp cmp_ lhs_ rhs_ env lhs env1 rhs env2 :
    Execute fuel lhs_ env = (Ok lhs, env1) ->
    holding [lhs] (Execute fuel rhs_) env1 = (Ok rhs, env2) ->
    runs fuel (ast.Comparison cmp_ lhs_ rhs_) env
      _ (in_call [lhs; rhs] (apply_Comparator (Equal fuel) (Less fuel) cmp_ lhs rhs)) env2
| runs_Or_lhs lhs_ rhs_ env :
    runs fuel (ast.Or lhs_ rhs_) env _ (Execute fuel lhs_) env
| runs_Or_rhs lhs_ rhs_ env lhs closure1 st1 :
    Execute fuel lhs_ env = (Ok lhs, (closure1, st1)) ->
    IsTrue st1 lhs = false ->
    runs fuel (ast.Or lhs_ rhs_) env _ (Execute fuel rhs_) (closure1, st1)
| runs_And_lhs lhs_ rhs_ env :
    runs fuel (ast.And lhs_ rhs_) env _ (Execute fuel lhs_) env
| runs_And_rhs lhs_ rhs_ env lhs closure1 st1 :
    Execute fuel lhs_ env = (Ok lhs, (closure1, st1)) ->
    IsTrue st1 lhs = true ->
    runs fuel (ast.And lhs_ rhs_) env _ (Execute fuel rhs_) (closure1, st1)
| runs_Not argument_ env :
    runs fuel (ast.Not argument_) env _ (Execute fuel argument_) env
| runs_Compound before s after env vs env1 :
    ExecuteArgs (Execute fuel) before env = (Ok vs, env1) ->
    runs fuel (ast.Compound (before ++ s :: after)) env _ (Execute fuel s) env1
| runs_Return statement_ env :
    runs fuel (ast.Return statement_) env _ (Execute fuel statement_) env
| runs_IfElse_condition condition_ if_body_ else_body_ env :
    runs fuel (ast.IfElse condition_ if_body_ else_body_) env _ (Execute fuel condition_) env
| runs_IfElse_if condition_ if_body_ else_body_ env c closure1 st1 :
    Execute fuel condition_ env = (Ok c, (closure1, st1)) ->
    IsTrue st1 c = true ->
    runs fuel (ast.IfElse condition_ if_body_ else_body_) env
      _ (Execute fuel if_body_) (closure1, st1)
| runs_IfElse_else condition_ if_body_ else_body env c closure1 st1 :
    Execute fuel condition_ env = (Ok c, (closure1, st1)) ->
    IsTrue st1 c = false ->
    runs fuel (ast.IfElse condition_ if_body_ (Some else_body)) env
      _ (Execute fuel else_body) (closure1, st1).

(** The spec's wording of method resolution: the chain of a class is its
    own methods in declaration order followed by the chain of its parent,
    and a name resolves to the first method of the chain that carries it. *)
Fixpoint method_chain (c : Class) : list Method :=
  match c with
  | Build_Class _ methods parent =>
      methods ++ match parent with
                 | Some p => method_chain p
                 | None => []
                 end
  end.

Definition first_named (method : string) (chain : list Method) (m : Method) : Prop :=
  exists before after,
    chain = before ++ m :: after
    /\ name m = method
    /\ Forall (fun x => name x <> method) before.

Definition closure_n : Closure := <["n" := Some 0%nat]> ∅.

Definition state_n : State := {| heap := [Number 5]; output := EmptyString; owned := []; held := [] |}.

(** A falsy and a truthy constant, and a right operand that prints. *)
Definition state_01 : State := {| heap := [Number 0; Number 1]; output := EmptyString; owned := []; held := [] |}.

Definition print_one : ast.Statement := ast.Print [ast.ValueStatement 1].

Definition state_7_2 : State :=
  {| heap := [Number 7; Number (-7); Number 2; Number 0]; output := EmptyString; owned := []; held := [] |}.

Definition method_m (params : list string) : Method :=
  {| name := "m"; formal_params := params; body := ast.None |}.

Definition class_A : Class := Build_Class "A" [method_m ["x"]] None.

Definition class_B : Class := Build_Class "B" [method_m ["x"; "y"]] (Some class_A).

Definition class_B' : Class :=
  Build_Class "B" [{| name := "g"; formal_params := []; body := ast.None |}] (Some class_A).

(** The method of the spec's scenario: [if n: return n] then [return 42]. *)
Definition body_f : ast.Statement :=
  ast.MethodBody
    (ast.Compound
       [ast.IfElse (ast.VariableValue ["n"]) (ast.Return (ast.VariableValue ["n"])) None;
        ast.Return (ast.ValueStatement 0)]).

Definition state_f : State := {| heap := [Number 42; Number 5]; output := EmptyString; owned := []; held := [] |}.

Definition closure_f : Closure := <["n" := Some 1%nat]> ∅.

(** A class without methods, a factory whose method [make] runs the node
    [C()], and the program
      f = Factory(); a = f.make(); a.x = 7; b = f.make(); print b.x *)
Definition class_C : Class := Build_Class "C" [] None.

Definition class_Factory : Class :=
  Build_Class "Factory"
    [{| name := "make"; formal_params := [];
        body := ast.MethodBody (ast.Return (ast.NewInstance 1 [])) |}] None.

Definition state_factory : State :=
  {| heap := [ClassInstance class_Factory ∅; ClassInstance class_C ∅; Number 7];
     output := EmptyString; owned := []; held := [] |}.

(** A class whose __init__ stores its argument in the field [x], and a
    state whose instance of that class has the field [y] set. *)
Definition class_Init : Class :=
  Build_Class "Init"
    [{| name := "__init__"; formal_params := ["v"];
        body := ast.FieldAssignment ["self"] "x" (ast.VariableValue ["v"]) |}] None.

Definition state_init : State :=
  {| heap := [ClassInstance class_Init (<["y" := Some 1%nat]> ∅); Number 1; Number 2];
     output := EmptyString; owned := []; held := [] |}.

(** A body whose return sits in the left operand of a sum under a negation. *)
Definition body_deep : ast.Statement :=
  ast.MethodBody
    (ast.Not (ast.Add (ast.Return (ast.ValueStatement 1)) (ast.Print [ast.ValueStatement 0]))).

Definition call_make : ast.Statement := ast.MethodCall (ast.VariableValue ["f"]) "make" [].

Definition program_factory : ast.Statement :=
  ast.Compound
    [ast.Assignment "f" (ast.NewInstance 0 []);
     ast.Assignment "a" call_make;
     ast.FieldAssignment ["a"] "x" (ast.ValueStatement 2);
     ast.Assignment "b" call_make;
     ast.Print [ast.VariableValue ["b"; "x"]]].

End EvalSpec.

(** ** Further vocabulary for the lexer *)

Module LexerSpec2.
Import parse.
Local Open Scope list_scope.

(** A run of [n] spaces. *)
Fixpoint spaces (n : nat) : string :=
  match n with
  | O => EmptyString
  | S n' => String.String " " (spaces n')
  end.

(** A line that holds spaces only, or spaces and then a comment. *)
Definition blank_line (line : string) : Prop :=
  exists n rest,
    line = (spaces n ++ rest)%string
    /\ (rest = EmptyString \/ exists comment, rest = String.String "#" comment).

(** What a token of the stream may carry. *)
Definition token_ok (t : Token) : Prop :=
  match t with
  | token_type.Number v => 0 <= v <= INT_MAX
  | token_type.Id word => key_words_token_ word = None
  | token_type.Char c => IsChar c = true
  | _ => True
  end.

(** No prefix of the stream closes more blocks than it has opened. *)
Definition prefix_balanced (l : list Token) : Prop :=
  forall k, (count Is_Dedent (take k l) <= count Is_Indent (take k l))%nat.

(** The tokens pushed from [lx] to [lx'] all satisfy [P]. *)
Definition pushes (P : Token -> Prop) (lx lx' : Lexer) : Prop :=
  exists new, tokens_ lx' = tokens_ lx ++ new /\ Forall P new.

Definition src_compare : string := "if x<=10: print -y".

(** A text without the quote character [q] and without backslash. *)
Fixpoint plain_text (q : ascii) (s : string) : bool :=
  match s with
  | EmptyString => true
  | String.String c rest =>
      negb (Ascii.eqb c q) && negb (Ascii.eqb c backslash) && plain_text q rest
  end.

Definition is_quote (q : ascii) : bool := Ascii.eqb q "'" || Ascii.eqb q dquote.

(** Whether a text starts with a space. *)
Definition starts_with_space (s : string) : bool :=
  match s with
  | String.String c _ => Ascii.eqb c " "
  | EmptyString => false
  end.

(** The indentation LoadTab settles on for a line with [k] leading spaces
    when indent_size_ was [s]: [k] rounded to an even number, upwards when
    the line is deeper than [s] and downwards otherwise. *)
Definition quantized_indent (s k : Z) : Z :=
  if s <? k then k + k mod 2 else k - k mod 2.

End LexerSpec2.

(** ** Further vocabulary for the evaluator *)

Module EvalSpec2.
Import runtime eval EvalSpec.
Local Open Scope list_scope.

(** What the six comparators mean on two ints. *)
Definition compare_int (cmp_ : ast.Comparator) (l r : Z) : bool :=
  match cmp_ with
  | ast.Equal => l =? r
  | ast.Less => l <? r
  | ast.NotEqual => negb (l =? r)
  | ast.Greater => l >? r
  | ast.LessOrEqual => l <=? r
  | ast.GreaterOrEqual => l >=? r
  end.

(** The value a name has in the closure of a call: the argument of the
    first formal parameter with that name, else the receiver for [self]. *)
Definition bound_in_call (self : nat) (params : list string) (actual_args : list ObjectHolder)
    (x : string) : option ObjectHolder :=
  match List.find (fun pv => String.eqb (fst pv) x) (combine params actual_args) with
  | Some pv => Some (snd pv)
  | None => if String.eqb x "self" then Some (Share self) else None
  end.

(** The text Object::Print sends for an object that is not an instance. *)
Definition value_text (o : Object) : option string :=
  match o with
  | Number v => Some (pretty v)
  | String s => Some s
  | Bool b => Some (if b then "True" else "False")%string
  | Class_ c => Some ("Class " ++ name_ c)%string
  | ClassInstance _ _ => None
  end.

(** The text of a constant or of the None node, when printed.  The
    constant of a ValueStatement is a member of the node: no object that
    Own has made. *)
Definition constant_text (st : State) (s : ast.Statement) : option string :=
  match s with
  | ast.ValueStatement a =>
      if bool_decide (a ∈ owned st) then None else o ← heap st !! a; value_text o
  | ast.None => Some "None"%string
  | _ => None
  end.

(** Texts with one space between neighbours. *)
Fixpoint join_with_space (texts : list string) : string :=
  match texts with
  | [] => EmptyString
  | [t] => t
  | t :: rest => (t ++ " " ++ join_with_space rest)%string
  end.

Definition end_of_line : string := String.String parse.newline EmptyString.

(** A class whose method [first] returns its parameter [x], whose method
    [me] returns [self], and whose method [hidden] has a parameter that is
    itself called [self]. *)
Definition class_Echo : Class :=
  Build_Class "Echo"
    [{| name := "first"; formal_params := ["x"; "x"];
        body := ast.MethodBody (ast.Return (ast.VariableValue ["x"])) |};
     {| name := "me"; formal_params := [];
        body := ast.MethodBody (ast.Return (ast.VariableValue ["self"])) |};
     {| name := "hidden"; formal_params := ["self"];
        body := ast.MethodBody (ast.Return (ast.VariableValue ["self"])) |}] None.
(** A class whose __str__ returns the empty handle, and a class without
    methods used as the left operand of +. *)
Definition class_Mute : Class :=
  Build_Class "Mute" [{| name := "__str__"; formal_params := []; body := ast.None |}] None.
Definition state_mute : State :=
  {| heap := [ClassInstance class_Mute ∅; ClassInstance class_C ∅; Number 1];
     output := EmptyString; owned := []; held := [] |}.

Definition state_echo : State :=
  {| heap := [ClassInstance class_Echo ∅; Number 1; Number 2]; output := EmptyString; owned := []; held := [] |}.

(** A class that defines __sub__, and a state with one instance of it. *)
Definition class_Minus : Class :=
  Build_Class "Minus"
    [{| name := "__sub__"; formal_params := ["other"];
        body := ast.MethodBody (ast.Return (ast.VariableValue ["other"])) |}] None.
Definition state_minus : State :=
  {| heap := [ClassInstance class_Minus ∅; Number 5; Number 3]; output := EmptyString; owned := []; held := [] |}.

End EvalSpec2.

(** * Properties of the lexer *)

Module LexerFacts.
Import parse LexerSpec.
Local Open Scope list_scope.

Lemma wrap_size_t_small z : 0 <= z < size_t_modulus -> wrap_size_t z = z.
Proof. intros H. unfold wrap_size_t. now apply Z.mod_small. Qed.

Lemma count_snoc p l t :
  count p (l ++ [t]) = (count p l + (if p t then 1 else 0))%nat.
Proof.
  unfold count. rewrite List.filter_app, length_app. simpl.
  destruct (p t); reflexivity.
Qed.

Lemma adjacent_Newlines_snoc l t :
  adjacent_Newlines (l ++ [t])
  = adjacent_Newlines l
    || match last l with
       | Some x => Is_Newline x && Is_Newline t
       | None => false
       end.
Proof.
  induction l as [|a l IH]; [reflexivity|].
  destruct l as [|b l].
  - simpl. now rewrite !orb_false_r.
  - change ((a :: b :: l) ++ [t]) with (a :: ((b :: l) ++ [t])).
    change (last (a :: b :: l)) with (last (b :: l)).
    cbn [adjacent_Newlines app] in *. rewrite IH.
    now rewrite orb_assoc.
Qed.

Lemma count_none p l : Forall (fun t => p t = false) l -> count p l = 0%nat.
Proof.
  unfold count. induction 1 as [|t l Ht _ IH]; [reflexivity|].
  cbn [List.filter]. now rewrite Ht.
Qed.

Lemma emit_inv lx lx' : emit lx lx' -> lexing_inv lx -> lexing_inv lx'.
Proof.
  intros Hstep [Hr Hb He Ha Hc].
  destruct Hstep as [t lx Ht | lx Hlt | lx Hge].
  - unfold is_body in Ht. apply negb_true_iff in Ht.
    apply orb_false_iff in Ht as [Ht HEof].
    apply orb_false_iff in Ht as [Ht HDed].
    apply orb_false_iff in Ht as [HNl HInd].
    split; cbn [push_back tokens_ indent_size_ current_index_].
    + exact Hr.
    + rewrite !count_snoc, HInd, HDed, !Nat.add_0_r. exact Hb.
    + apply Forall_app. split; [exact He|]. now constructor.
    + rewrite adjacent_Newlines_snoc, Ha, HNl.
      destruct (last (tokens_ lx)); [now rewrite andb_false_r|reflexivity].
    + exact Hc.
  - split; cbn [push_back set_indent_size tokens_ indent_size_ current_index_].
    + lia.
    + rewrite !count_snoc. cbn [Is_Indent Is_Dedent]. lia.
    + apply Forall_app. split; [exact He|]. now constructor.
    + rewrite adjacent_Newlines_snoc, Ha. cbn [Is_Newline].
      destruct (last (tokens_ lx)); [now rewrite andb_false_r|reflexivity].
    + exact Hc.
  - split; cbn [push_back set_indent_size tokens_ indent_size_ current_index_].
    + lia.
    + rewrite !count_snoc. cbn [Is_Indent Is_Dedent]. lia.
    + apply Forall_app. split; [exact He|]. now constructor.
    + rewrite adjacent_Newlines_snoc, Ha. cbn [Is_Newline].
      destruct (last (tokens_ lx)); [now rewrite andb_false_r|reflexivity].
    + exact Hc.
Qed.

Lemma emits_inv lx lx' : emits lx lx' -> lexing_inv lx -> lexing_inv lx'.
Proof. induction 1; eauto using emit_inv. Qed.

Lemma emits_body t lx : is_body t = true -> emits lx (push_back t lx).
Proof. intros H. apply rtc_once. now constructor. Qed.

Lemma emits_trans lx1 lx2 lx3 : emits lx1 lx2 -> emits lx2 lx3 -> emits lx1 lx3.
Proof. apply rtc_trans. Qed.

(** Splits the first monadic step of a computation that returned. *)
Ltac bind_ok H :=
  match type of H with
  | mbind _ ?m = Ok _ =>
      let E := fresh "E" in
      destruct m as [?| | |] eqn:E; cbn [mbind result_bind] in H; try discriminate H
  end.

Lemma key_words_token_body word t : key_words_token_ word = Some t -> is_body t = true.
Proof.
  unfold key_words_token_.
  repeat (destruct (String.eqb word _); [intros [= <-]; reflexivity|]).
  discriminate.
Qed.

Lemma special_operators_token_body sign t :
  special_operators_token_ sign = Some t -> is_body t = true.
Proof.
  unfold special_operators_token_.
  repeat (destruct (String.eqb sign _); [intros [= <-]; reflexivity|]).
  discriminate.
Qed.

Lemma LoadNumber_emits fuel lx input lx' input' :
  LoadNumber fuel lx input = Ok (lx', input') -> emits lx lx'.
Proof.
  unfold LoadNumber. intros H.
  bind_ok H. destruct a as [number input1]. bind_ok H.
  injection H as <- _. now apply emits_body.
Qed.

Lemma LoadString_emits fuel lx input lx' input' :
  LoadString fuel lx input = Ok (lx', input') -> emits lx lx'.
Proof.
  unfold LoadString. destruct (get input) as [p input1]. intros H.
  bind_ok H. destruct a as [dest input2].
  injection H as <- _. now apply emits_body.
Qed.

Lemma LoadWord_emits fuel lx input lx' input' :
  LoadWord fuel lx input = Ok (lx', input') -> emits lx lx'.
Proof.
  unfold LoadWord. intros H.
  bind_ok H. destruct a as [word input1].
  destruct (key_words_token_ word) as [t|] eqn:Hkw; injection H as <- _.
  - apply emits_body. eauto using key_words_token_body.
  - now apply emits_body.
Qed.

Lemma LoadSign_emits lx input lx' input' :
  LoadSign lx input = Ok (lx', input') -> emits lx lx'.
Proof.
  unfold LoadSign. destruct (get input) as [p input1].
  destruct (peek input1) as [q input2].
  destruct (peek_is q "=").
  - destruct (get input2) as [r input3].
    destruct (special_operators_token_ _) as [t|] eqn:Hop; [|discriminate].
    intros [= <- _]. apply emits_body. eauto using special_operators_token_body.
  - intros [= <- _]. now apply emits_body.
Qed.

Lemma LoadTokens_body_emits fuel lx input brk lx' input' :
  LoadTokens_body fuel lx input = Ok (brk, lx', input') -> emits lx lx'.
Proof.
  unfold LoadTokens_body.
  destruct (peek input) as [p0 i0].
  destruct (peek (if peek_is p0 " " then ignore i0 else i0)) as [p1 i1].
  destruct (peek_is p1 "#"); [intros [= _ <- _]; apply rtc_refl|].
  destruct (peek i1) as [p2 i2].
  intros H. bind_ok H. destruct a as [lx1 i3].
  assert (emits lx lx1) as H1.
  { destruct (peek_sat isdigit p2); [eauto using LoadNumber_emits|].
    injection E as <- _. apply rtc_refl. }
  clear E. destruct (peek i3) as [p4 i4].
  destruct (if peek_is p4 dquote then (true, i4)
            else let '(q, input) := peek i4 in (peek_is q "'", input)) as [quote i5].
  bind_ok H. destruct a as [lx2 i6].
  assert (emits lx1 lx2) as H2.
  { destruct quote; [eauto using LoadString_emits|].
    injection E as <- _. apply rtc_refl. }
  clear E. destruct (peek i6) as [p7 i7].
  destruct (if peek_is p7 "_" then (true, i7)
            else let '(q, input) := peek i7 in (peek_sat isalpha q, input)) as [letter i8].
  bind_ok H. destruct a as [lx3 i9].
  assert (emits lx2 lx3) as H3.
  { destruct letter; [eauto using LoadWord_emits|].
    injection E as <- _. apply rtc_refl. }
  clear E. destruct (peek i9) as [p10 i10].
  assert (emits lx lx3) as H03 by eauto using emits_trans.
  destruct (IsChar (char_of_int p10)).
  - destruct (peek i10) as [q11 i11].
    destruct (special_operators_ (char_of_int q11)).
    + bind_ok H. destruct a as [lx4 i12]. injection H as _ <- _.
      eauto using emits_trans, LoadSign_emits.
    + destruct (get i11) as [r i12]. injection H as _ <- _.
      eapply emits_trans; [exact H03|]. now apply emits_body.
  - injection H as _ <- _. exact H03.
Qed.

Lemma LoadTokens_loop_emits fuel k : forall lx input lx' input',
  LoadTokens_loop fuel k lx input = Ok (lx', input') -> emits lx lx'.
Proof.
  induction k as [|k IH]; intros lx input lx' input' H; [discriminate|].
  cbn [LoadTokens_loop] in H.
  destruct (eofbit input); [injection H as <- _; apply rtc_refl|].
  bind_ok H. destruct a as [[brk lx1] input1].
  apply LoadTokens_body_emits in E.
  destruct brk.
  - injection H as <- _. exact E.
  - eauto using emits_trans.
Qed.

Lemma size_t_modulus_eq : size_t_modulus = 18446744073709551616.
Proof. reflexivity. Qed.

(** LoadDedent: the invariant makes indent_size_ even, so [-= 2] never
    wraps below zero. *)
Lemma LoadDedent_emits fuel current_indent : forall lx lx',
  0 <= current_indent ->
  lexing_inv lx ->
  LoadDedent fuel current_indent lx = Ok lx' ->
  emits lx lx'
  /\ indent_size_ lx' <= current_indent
  /\ exists n, tokens_ lx' = tokens_ lx ++ replicate n token_type.Dedent.
Proof.
  induction fuel as [|fuel IH]; intros lx lx' Hc Hinv H; [discriminate|].
  cbn [LoadDedent] in H.
  destruct (Z.gtb_spec (indent_size_ lx) current_indent) as [Hgt|Hle].
  - pose proof (inv_balance _ Hinv) as Hb. pose proof (inv_range _ Hinv) as Hr.
    rewrite wrap_size_t_small in H by lia.
    assert (emit lx (push_back token_type.Dedent
                       (set_indent_size (indent_size_ lx - 2) lx))) as Hstep
      by (constructor; lia).
    apply IH in H as (Hem & Hle & n & Hn); [|exact Hc|eauto using emit_inv].
    split; [eapply rtc_l; eauto|]. split; [exact Hle|].
    exists (S n). rewrite Hn. cbn [push_back set_indent_size tokens_ replicate].
    now rewrite <- app_assoc.
  - injection H as <-. split; [apply rtc_refl|]. split; [lia|].
    exists 0%nat. cbn [replicate]. now rewrite app_nil_r.
Qed.

(** LoadIndent towards the largest size_t never returns: [+= 2] steps over
    it and wraps to zero. *)
Lemma LoadIndent_max fuel : forall lx lx',
  (exists k, indent_size_ lx = 2 * k) ->
  0 <= indent_size_ lx < size_t_modulus ->
  LoadIndent fuel (size_t_modulus - 1) lx <> Ok lx'.
Proof.
  induction fuel as [|fuel IH]; intros lx lx' [k Hk] Hr; [discriminate|].
  cbn [LoadIndent]. rewrite size_t_modulus_eq in *.
  destruct (Z.ltb_spec (indent_size_ lx) (18446744073709551616 - 1)) as [Hlt|Hge]; [|lia].
  apply IH; cbn [push_back set_indent_size indent_size_].
  - unfold wrap_size_t. rewrite size_t_modulus_eq, Z.mod_eq by lia.
    exists (k + 1 - 9223372036854775808 * ((indent_size_ lx + 2) / 18446744073709551616)).
    lia.
  - unfold wrap_size_t. rewrite size_t_modulus_eq. apply Z.mod_pos_bound. lia.
Qed.

Lemma LoadIndent_emits fuel current_indent : forall lx lx',
  0 <= current_indent < size_t_modulus ->
  lexing_inv lx ->
  LoadIndent fuel current_indent lx = Ok lx' ->
  emits lx lx'.
Proof.
  induction fuel as [|fuel IH]; intros lx lx' Hc Hinv H; [discriminate|].
  cbn [LoadIndent] in H.
  destruct (Z.ltb_spec (indent_size_ lx) current_indent) as [Hlt|Hge].
  - pose proof (inv_balance _ Hinv) as Hb. pose proof (inv_range _ Hinv) as Hr.
    destruct (Z.lt_ge_cases (indent_size_ lx + 2) size_t_modulus) as [Hfit|Hwrap].
    + rewrite wrap_size_t_small in H by lia.
      assert (emit lx (push_back token_type.Indent
                         (set_indent_size (indent_size_ lx + 2) lx))) as Hstep
        by (constructor; lia).
      eapply rtc_l; [exact Hstep|]. eapply IH; eauto using emit_inv.
    + exfalso.
      assert (current_indent = size_t_modulus - 1) as -> by lia.
      revert H. apply LoadIndent_max; cbn [push_back set_indent_size indent_size_].
      * replace (indent_size_ lx + 2) with size_t_modulus by lia.
        exists 0. reflexivity.
      * unfold wrap_size_t. apply Z.mod_pos_bound. reflexivity.
  - injection H as <-. apply rtc_refl.
Qed.

Lemma LoadTab_loop_range fuel : forall i input i' input',
  LoadTab_loop fuel i input = Ok (i', input') -> 0 <= i' < size_t_modulus.
Proof.
  induction fuel as [|fuel IH]; intros i input i' input' H; [discriminate|].
  cbn [LoadTab_loop] in H. destruct (peek (ignore input)) as [p input2].
  destruct (peek_is p " "); [eauto|].
  injection H as <- _. unfold wrap_size_t. apply Z.mod_pos_bound. reflexivity.
Qed.

Lemma LoadTab_emits fuel lx input lx' input' :
  lexing_inv lx ->
  LoadTab fuel lx input = Ok (lx', input') -> emits lx lx'.
Proof.
  unfold LoadTab. intros Hinv H. destruct (peek input) as [p input1].
  destruct (peek_is p " ").
  - bind_ok H. destruct a as [i input2]. apply LoadTab_loop_range in E.
    bind_ok H. injection H as <- _.
    destruct (i >? indent_size_ lx).
    + eauto using LoadIndent_emits.
    + eapply LoadDedent_emits; eauto. lia.
  - bind_ok H. injection H as <- _.
    eapply LoadDedent_emits; eauto. lia.
Qed.

Lemma ParseString_emits fuel lx input lx' input' :
  lexing_inv lx ->
  ParseString fuel lx input = Ok (lx', input') -> emits lx lx'.
Proof.
  unfold ParseString, LoadTokens. intros Hinv H.
  bind_ok H. destruct a as [lx1 input1].
  eauto using emits_trans, LoadTab_emits, LoadTokens_loop_emits.
Qed.

Lemma LoadEndl_inv lx : lexing_inv lx -> lexing_inv (LoadEndl lx) /\ at_line_start (LoadEndl lx).
Proof.
  intros Hinv. unfold LoadEndl, at_line_start.
  destruct (last (tokens_ lx)) as [t|] eqn:Hlast; [|now auto].
  assert (Is_Newline t = true \/ Is_Newline t = false) as [Hnl|Hnl]
    by (destruct (Is_Newline t); auto).
  { destruct t; try discriminate Hnl. now auto. }
  assert (lexing_inv (push_back token_type.Newline lx)
          /\ (last (tokens_ (push_back token_type.Newline lx)) = None
              \/ last (tokens_ (push_back token_type.Newline lx)) = Some token_type.Newline)).
  { destruct Hinv as [Hr Hb He Ha Hc].
    split; [split|]; cbn [push_back tokens_ indent_size_ current_index_].
    - exact Hr.
    - rewrite !count_snoc. cbn [Is_Indent Is_Dedent]. rewrite !Nat.add_0_r. exact Hb.
    - apply Forall_app. split; [exact He|]. now constructor.
    - rewrite adjacent_Newlines_snoc, Ha, Hlast, Hnl. reflexivity.
    - exact Hc.
    - right. apply last_snoc. }
  destruct t; try discriminate Hnl; exact H.
Qed.

Lemma ParseLines_inv fuel lines : forall lx lx',
  lexing_inv lx -> at_line_start lx ->
  ParseLines fuel lines lx = Ok lx' ->
  lexing_inv lx' /\ at_line_start lx'.
Proof.
  induction lines as [|line lines IH]; intros lx lx' Hinv Hstart H.
  - injection H as <-. now split.
  - cbn [ParseLines] in H. destruct (negb (StringIsEmpty line)); [|eauto].
    bind_ok H. destruct a as [lx1 input1].
    apply ParseString_emits in E; [|exact Hinv].
    destruct (LoadEndl_inv lx1) as [Hinv1 Hstart1]; eauto using emits_inv.
Qed.

Lemma Lexer_init_inv : lexing_inv Lexer_init /\ at_line_start Lexer_init.
Proof.
  split; [split|]; cbn; try (constructor; fail); try reflexivity.
  - rewrite size_t_modulus_eq. lia.
  - now left.
Qed.

(** The constructor, taken apart: the state when the last line is read,
    the state after the closing LoadDedent, and the result. *)
Lemma Lexer_ctor_inv fuel input lx :
  Lexer_ctor fuel input = Ok lx ->
  exists lx1 lx2 n,
    ParseLines fuel (getlines input EmptyString) Lexer_init = Ok lx1
    /\ LoadDedent fuel 0 lx1 = Ok lx2
    /\ lx = snd (NextToken (LoadEof lx2))
    /\ at_line_start lx1
    /\ lexing_inv lx2 /\ indent_size_ lx2 = 0
    /\ tokens_ lx2 = tokens_ lx1 ++ replicate n token_type.Dedent.
Proof.
  unfold Lexer_ctor, ParseTextOnTokens. intros H.
  bind_ok H. rename a into lx1. bind_ok H. rename a into lx2.
  injection H as <-.
  destruct Lexer_init_inv as [Hinv0 Hstart0].
  destruct (ParseLines_inv _ _ _ _ Hinv0 Hstart0 E) as [Hinv1 Hstart1].
  destruct (LoadDedent_emits _ _ _ _ (Z.le_refl 0) Hinv1 E0) as (Hem & Hle & n & Hn).
  assert (lexing_inv lx2) as Hinv2 by eauto using emits_inv.
  exists lx1, lx2, n. repeat split; try assumption; try reflexivity;
    try apply Hinv2.
  pose proof (inv_range _ Hinv2). lia.
Qed.

Lemma tokens_NextToken lx : tokens_ (snd (NextToken lx)) = tokens_ lx.
Proof. unfold NextToken. now destruct (tokens_ lx !! current_index_ lx). Qed.

Lemma Is_Eof_false t : Is_Eof t = false <-> t <> token_type.Eof.
Proof. destruct t; cbn; split; congruence. Qed.

Lemma adjacent_Newlines_lookup l :
  adjacent_Newlines l = false ->
  forall i, l !! i = Some token_type.Newline -> l !! S i <> Some token_type.Newline.
Proof.
  induction l as [|a l IH]; intros H i Hi; [discriminate|].
  destruct l as [|b l]; [now destruct i|].
  cbn [adjacent_Newlines] in H. apply orb_false_iff in H as [Hab Hrest].
  destruct i as [|i].
  - cbn in Hi |- *. injection Hi as ->. intros [= ->]. discriminate.
  - apply (IH Hrest i). exact Hi.
Qed.

Lemma last_app_replicate (l : list Token) n t :
  last (l ++ replicate n t) = match n with O => last l | S _ => Some t end.
Proof.
  destruct n as [|n]; [cbn; now rewrite app_nil_r|].
  replace (replicate (S n) t) with (replicate n t ++ [t]).
  - rewrite app_assoc. apply last_snoc.
  - change [t] with (replicate 1 t). rewrite <- replicate_add.
    f_equal. lia.
Qed.

(** C1, as the code has it: when the constructor returns, the token stream
    is some tokens without Eof followed by one Eof; no Newline is directly
    followed by a Newline; and the token in front of Eof, when there is one,
    is a Newline or a Dedent. *)
Theorem token_stream_shape fuel input lx :
  Lexer_ctor fuel input = Ok lx ->
  exists body,
    tokens_ lx = body ++ [token_type.Eof]
    /\ Forall (fun t => t <> token_type.Eof) body
    /\ count Is_Eof (tokens_ lx) = 1%nat
    /\ (forall i, tokens_ lx !! i = Some token_type.Newline ->
                  tokens_ lx !! S i <> Some token_type.Newline)
    /\ (last body = None \/ last body = Some token_type.Newline
        \/ last body = Some token_type.Dedent).
Proof.
  intros H. apply Lexer_ctor_inv in H
    as (lx1 & lx2 & n & _ & _ & -> & Hstart & Hinv & _ & Hn).
  exists (tokens_ lx2). rewrite tokens_NextToken. cbn [LoadEof push_back tokens_].
  split; [reflexivity|]. split; [|split; [|split]].
  - eapply Forall_impl; [apply (inv_no_Eof _ Hinv)|].
    intros t. apply Is_Eof_false.
  - rewrite count_snoc, (count_none _ _ (inv_no_Eof _ Hinv)). reflexivity.
  - apply adjacent_Newlines_lookup.
    rewrite adjacent_Newlines_snoc, (inv_no_adjacent _ Hinv). cbn [Is_Newline].
    destruct (last (tokens_ lx2)); [now rewrite andb_false_r|reflexivity].
  - rewrite Hn, last_app_replicate. destruct n; [|now auto].
    destruct Hstart; auto.
Qed.

Lemma token_stream_shape_witness :
  exists lx, Lexer_ctor 8 src_assign = Ok lx
    /\ exists body,
         tokens_ lx = body ++ [token_type.Eof]
         /\ Forall (fun t => t <> token_type.Eof) body
         /\ count Is_Eof (tokens_ lx) = 1%nat
         /\ (forall i, tokens_ lx !! i = Some token_type.Newline ->
                       tokens_ lx !! S i <> Some token_type.Newline)
         /\ (last body = None \/ last body = Some token_type.Newline
             \/ last body = Some token_type.Dedent).
Proof.
  eexists. split; [vm_compute; reflexivity|].
  apply (token_stream_shape 8 src_assign). vm_compute. reflexivity.
Defined.

(** C1 as the spec words it fails on the one-line program [x = 1]: its
    stream is Id, Char, Number, Newline, Eof, so Eof directly follows a
    Newline. *)
Lemma Newline_before_Eof :
  exists lx, Lexer_ctor 8 src_assign = Ok lx
    /\ tokens_ lx = [token_type.Id "x"; token_type.Char "="; token_type.Number 1;
                     token_type.Newline; token_type.Eof]
    /\ ~ Eof_not_after_Newline (tokens_ lx).
Proof.
  eexists. split; [vm_compute; reflexivity|]. split; [reflexivity|].
  intros H. apply (H 3%nat); reflexivity.
Qed.

(** C4: when the constructor returns, the stream holds as many Indent as
    Dedent tokens, and the closing LoadDedent has brought indent_size_ back
    to zero in the state LoadEof is applied to. *)
Theorem Indent_Dedent_balanced fuel input lx :
  Lexer_ctor fuel input = Ok lx ->
  count Is_Indent (tokens_ lx) = count Is_Dedent (tokens_ lx)
  /\ exists lx1 lx2,
       ParseLines fuel (getlines input EmptyString) Lexer_init = Ok lx1
       /\ LoadDedent fuel 0 lx1 = Ok lx2
       /\ indent_size_ lx2 = 0
       /\ lx = snd (NextToken (LoadEof lx2))
       /\ tokens_ lx = tokens_ lx2 ++ [token_type.Eof]
       /\ indent_size_ lx = 0.
Proof.
  intros H. apply Lexer_ctor_inv in H
    as (lx1 & lx2 & n & Hlines & Hded & -> & _ & Hinv & Hz & _).
  assert (tokens_ (snd (NextToken (LoadEof lx2))) = tokens_ lx2 ++ [token_type.Eof]) as Ht
    by now rewrite tokens_NextToken.
  split.
  - rewrite Ht, !count_snoc. cbn [Is_Indent Is_Dedent].
    pose proof (inv_balance _ Hinv). lia.
  - exists lx1, lx2. repeat split; try assumption.
    unfold NextToken. now destruct (_ !! _).
Qed.

Lemma Indent_Dedent_balanced_witness :
  exists lx, Lexer_ctor 12 src_nested = Ok lx
    /\ count Is_Indent (tokens_ lx) = 2%nat
    /\ count Is_Indent (tokens_ lx) = count Is_Dedent (tokens_ lx)
    /\ indent_size_ lx = 0.
Proof.
  eexists. split; [vm_compute; reflexivity|]. split; [reflexivity|].
  destruct (Indent_Dedent_balanced 12 src_nested _ eq_refl)
    as (Hc & lx1 & lx2 & _ & _ & _ & _ & _ & Hz).
  split; [exact Hc|exact Hz].
Defined.

Lemma cursor_inv_NextToken lx : cursor_inv lx -> cursor_inv (snd (NextToken lx)).
Proof.
  intros (body & i & Ht & Hb & Hi & Hcur). unfold NextToken.
  destruct (tokens_ lx !! current_index_ lx) as [t|] eqn:Hnext; cbn [snd].
  - exists body, (current_index_ lx). cbn. rewrite Hnext. auto.
  - exists body, i. auto.
Qed.

Lemma reachable_cursor_inv lx : reachable lx -> cursor_inv lx.
Proof.
  induction 1 as [fuel input lx H | lx _ IH]; [|now apply cursor_inv_NextToken].
  apply Lexer_ctor_inv in H as (lx1 & lx2 & n & _ & _ & -> & _ & Hinv & _ & _).
  exists (tokens_ lx2), 0%nat. rewrite tokens_NextToken.
  unfold NextToken. cbn [LoadEof push_back tokens_ current_index_].
  rewrite (inv_cursor _ Hinv).
  assert (Forall (fun t => t <> token_type.Eof) (tokens_ lx2)) as Hb.
  { eapply Forall_impl; [apply (inv_no_Eof _ Hinv)|]. intros t. apply Is_Eof_false. }
  destruct ((tokens_ lx2 ++ [token_type.Eof]) !! 0%nat) as [t|] eqn:H0.
  - cbn [snd tokens_ current_index_ current_token_]. auto.
  - now destruct (tokens_ lx2).
Qed.

(** The bound on the loops only cuts runs short: a run that returns
    within a bound returns the same within every larger one. *)
Lemma ReadString_loop_mono pred fuel : forall fuel' input res c r,
  (fuel <= fuel')%nat ->
  ReadString_loop fuel pred input res c = Ok r ->
  ReadString_loop fuel' pred input res c = Ok r.
Proof.
  induction fuel as [|fuel IH]; intros [|fuel'] input res c r Hle H;
    try discriminate H; [lia|].
  cbn [ReadString_loop] in H |- *.
  destruct (eofbit input); [exact H|].
  destruct (get input) as [[c'|] input1].
  - destruct (negb (pred c')); [exact H|].
    destruct (Ascii.eqb c' backslash).
    + destruct (get input1) as [p input2]. apply IH; [lia|exact H].
    + apply IH; [lia|exact H].
  - apply IH; [lia|exact H].
Qed.

Lemma ReadString_mono pred fuel fuel' input r :
  (fuel <= fuel')%nat ->
  ReadString fuel pred input = Ok r -> ReadString fuel' pred input = Ok r.
Proof.
  unfold ReadString. intros Hle H. bind_ok H.
  now rewrite (ReadString_loop_mono _ _ _ _ _ _ _ Hle E).
Qed.

Lemma LoadDedent_mono current_indent fuel : forall fuel' lx lx',
  (fuel <= fuel')%nat ->
  LoadDedent fuel current_indent lx = Ok lx' -> LoadDedent fuel' current_indent lx = Ok lx'.
Proof.
  induction fuel as [|fuel IH]; intros [|fuel'] lx lx' Hle H;
    try discriminate H; [lia|].
  cbn [LoadDedent] in H |- *.
  destruct (indent_size_ lx >? current_indent); [|exact H].
  apply IH; [lia|exact H].
Qed.

Lemma LoadIndent_mono current_indent fuel : forall fuel' lx lx',
  (fuel <= fuel')%nat ->
  LoadIndent fuel current_indent lx = Ok lx' -> LoadIndent fuel' current_indent lx = Ok lx'.
Proof.
  induction fuel as [|fuel IH]; intros [|fuel'] lx lx' Hle H;
    try discriminate H; [lia|].
  cbn [LoadIndent] in H |- *.
  destruct (indent_size_ lx <? current_indent); [|exact H].
  apply IH; [lia|exact H].
Qed.

Lemma LoadTab_loop_mono fuel : forall fuel' i input r,
  (fuel <= fuel')%nat ->
  LoadTab_loop fuel i input = Ok r -> LoadTab_loop fuel' i input = Ok r.
Proof.
  induction fuel as [|fuel IH]; intros [|fuel'] i input r Hle H;
    try discriminate H; [lia|].
  cbn [LoadTab_loop] in H |- *.
  destruct (peek (ignore input)) as [p input2].
  destruct (peek_is p " "); [|exact H].
  apply IH; [lia|exact H].
Qed.

Lemma LoadTab_mono fuel fuel' lx input r :
  (fuel <= fuel')%nat ->
  LoadTab fuel lx input = Ok r -> LoadTab fuel' lx input = Ok r.
Proof.
  unfold LoadTab. intros Hle H. destruct (peek input) as [p input1].
  destruct (peek_is p " ").
  - bind_ok H. destruct a as [i input2].
    rewrite (LoadTab_loop_mono _ _ _ _ _ Hle E). cbn [mbind result_bind].
    bind_ok H. destruct (i >? indent_size_ lx).
    + now rewrite (LoadIndent_mono _ _ _ _ _ Hle E0).
    + now rewrite (LoadDedent_mono _ _ _ _ _ Hle E0).
  - bind_ok H. now rewrite (LoadDedent_mono _ _ _ _ _ Hle E).
Qed.

Lemma LoadNumber_mono fuel fuel' lx input r :
  (fuel <= fuel')%nat ->
  LoadNumber fuel lx input = Ok r -> LoadNumber fuel' lx input = Ok r.
Proof.
  unfold LoadNumber. intros Hle H. bind_ok H.
  now rewrite (ReadString_mono _ _ _ _ _ Hle E).
Qed.

Lemma LoadString_mono fuel fuel' lx input r :
  (fuel <= fuel')%nat ->
  LoadString fuel lx input = Ok r -> LoadString fuel' lx input = Ok r.
Proof.
  unfold LoadString. intros Hle H. destruct (get input) as [p input1]. bind_ok H.
  now rewrite (ReadString_mono _ _ _ _ _ Hle E).
Qed.

Lemma LoadWord_mono fuel fuel' lx input r :
  (fuel <= fuel')%nat ->
  LoadWord fuel lx input = Ok r -> LoadWord fuel' lx input = Ok r.
Proof.
  unfold LoadWord. intros Hle H. bind_ok H.
  now rewrite (ReadString_mono _ _ _ _ _ Hle E).
Qed.

Lemma LoadTokens_body_mono fuel fuel' lx input r :
  (fuel <= fuel')%nat ->
  LoadTokens_body fuel lx input = Ok r -> LoadTokens_body fuel' lx input = Ok r.
Proof.
  unfold LoadTokens_body. intros Hle H.
  destruct (peek input) as [p0 i0].
  destruct (peek (if peek_is p0 " " then ignore i0 else i0)) as [p1 i1].
  destruct (peek_is p1 "#"); [exact H|].
  destruct (peek i1) as [p2 i2].
  bind_ok H. destruct a as [lx1 i3].
  assert ((if peek_sat isdigit p2 then LoadNumber fuel' lx i2 else Ok (lx, i2))
          = Ok (lx1, i3)) as ->
    by (destruct (peek_sat isdigit p2); eauto using LoadNumber_mono).
  cbn [mbind result_bind]. clear E. destruct (peek i3) as [p4 i4].
  destruct (if peek_is p4 dquote then (true, i4)
            else let '(q, input) := peek i4 in (peek_is q "'", input)) as [quote i5].
  bind_ok H. destruct a as [lx2 i6].
  assert ((if quote then LoadString fuel' lx1 i5 else Ok (lx1, i5)) = Ok (lx2, i6)) as ->
    by (destruct quote; eauto using LoadString_mono).
  cbn [mbind result_bind]. clear E. destruct (peek i6) as [p7 i7].
  destruct (if peek_is p7 "_" then (true, i7)
            else let '(q, input) := peek i7 in (peek_sat isalpha q, input)) as [letter i8].
  bind_ok H. destruct a as [lx3 i9].
  assert ((if letter then LoadWord fuel' lx2 i8 else Ok (lx2, i8)) = Ok (lx3, i9)) as ->
    by (destruct letter; eauto using LoadWord_mono).
  cbn [mbind result_bind]. exact H.
Qed.

Lemma LoadTokens_loop_mono fuel fuel' k : forall k' lx input r,
  (fuel <= fuel')%nat -> (k <= k')%nat ->
  LoadTokens_loop fuel k lx input = Ok r -> LoadTokens_loop fuel' k' lx input = Ok r.
Proof.
  induction k as [|k IH]; intros [|k'] lx input r Hle Hk H;
    try discriminate H; [lia|].
  cbn [LoadTokens_loop] in H |- *.
  destruct (eofbit input); [exact H|].
  bind_ok H. rewrite (LoadTokens_body_mono _ _ _ _ _ Hle E). cbn [mbind result_bind].
  destruct a as [[brk lx1] input1]. destruct brk; [exact H|].
  apply IH; [exact Hle|lia|exact H].
Qed.

Lemma ParseString_mono fuel fuel' lx input r :
  (fuel <= fuel')%nat ->
  ParseString fuel lx input = Ok r -> ParseString fuel' lx input = Ok r.
Proof.
  unfold ParseString, LoadTokens. intros Hle H. bind_ok H.
  rewrite (LoadTab_mono _ _ _ _ _ Hle E). cbn [mbind result_bind].
  destruct a as [lx1 input1]. eauto using LoadTokens_loop_mono.
Qed.

Lemma ParseLines_mono fuel fuel' lines : forall lx lx',
  (fuel <= fuel')%nat ->
  ParseLines fuel lines lx = Ok lx' -> ParseLines fuel' lines lx = Ok lx'.
Proof.
  induction lines as [|line lines IH]; intros lx lx' Hle H; [exact H|].
  cbn [ParseLines] in H |- *. destruct (negb (StringIsEmpty line)); [|eauto].
  bind_ok H. rewrite (ParseString_mono _ _ _ _ _ Hle E). cbn [mbind result_bind].
  destruct a as [lx1 input1]. eauto.
Qed.

Lemma Lexer_ctor_mono fuel fuel' input lx :
  (fuel <= fuel')%nat ->
  Lexer_ctor fuel input = Ok lx -> Lexer_ctor fuel' input = Ok lx.
Proof.
  unfold Lexer_ctor, ParseTextOnTokens. intros Hle H. bind_ok H.
  rewrite (ParseLines_mono _ _ _ _ _ Hle E). cbn [mbind result_bind].
  bind_ok H. now rewrite (LoadDedent_mono _ _ _ _ _ Hle E0).
Qed.

(** So the lexer the constructor returns does not depend on the bound. *)
Lemma Lexer_ctor_deterministic fuel1 fuel2 input lx1 lx2 :
  Lexer_ctor fuel1 input = Ok lx1 -> Lexer_ctor fuel2 input = Ok lx2 -> lx1 = lx2.
Proof.
  intros H1 H2.
  apply (Lexer_ctor_mono _ (Nat.max fuel1 fuel2)) in H1; [|lia].
  apply (Lexer_ctor_mono _ (Nat.max fuel1 fuel2)) in H2; [|lia].
  congruence.
Qed.

(** C5: in a reachable lexer whose current token is Eof, NextToken returns
    Eof and leaves the whole lexer (cursor and current token included) as
    it was, however often it is called. *)
Theorem NextToken_at_Eof lx :
  reachable lx ->
  CurrentToken lx = token_type.Eof ->
  NextToken lx = (token_type.Eof, lx)
  /\ forall n, Nat.iter n (fun l => snd (NextToken l)) lx = lx.
Proof.
  intros Hreach Hcur. unfold CurrentToken in Hcur.
  destruct (reachable_cursor_inv _ Hreach) as (body & i & Ht & Hb & Hi & Hlook).
  assert (NextToken lx = (token_type.Eof, lx)) as Hnext.
  { unfold NextToken. rewrite Hcur in *.
    destruct (Nat.lt_ge_cases i (length body)) as [Hlt|Hge].
    - exfalso. rewrite Ht, lookup_app_l in Hlook by exact Hlt.
      rewrite Forall_forall in Hb. apply (Hb token_type.Eof); [|reflexivity].
      eapply list_elem_of_lookup_2. exact Hlook.
    - rewrite Hi, (lookup_ge_None_2 (tokens_ lx) (S i)); [reflexivity|].
      rewrite Ht, length_app. cbn. lia. }
  split; [exact Hnext|].
  induction n as [|n IH]; [reflexivity|].
  rewrite Nat.iter_succ, IH, Hnext. reflexivity.
Qed.

Lemma NextToken_at_Eof_witness :
  exists lx,
    Lexer_ctor 8 src_assign = Ok lx
    /\ let lxE := Nat.iter 4 (fun l => snd (NextToken l)) lx in
       CurrentToken lxE = token_type.Eof
       /\ NextToken lxE = (token_type.Eof, lxE)
       /\ forall n, Nat.iter n (fun l => snd (NextToken l)) lxE = lxE.
Proof.
  eexists. split; [vm_compute; reflexivity|].
  cbv zeta. split; [reflexivity|].
  apply NextToken_at_Eof; [|reflexivity].
  do 4 apply reachable_NextToken.
  apply (reachable_ctor 8 src_assign). vm_compute. reflexivity.
Defined.

End LexerFacts.

(** * Properties of the evaluator *)

Module EvalFacts.
Import runtime eval EvalSpec.
Local Open Scope list_scope.

Lemma Own_fresh o st :
  Own o st = (Ok (Some (length (heap st))), allocated o st)
  /\ heap st !! length (heap st) = None
  /\ heap (allocated o st) !! length (heap st) = Some o.
Proof.
  split; [reflexivity|]. split.
  - apply lookup_ge_None_2. lia.
  - cbn. apply list_lookup_middle. reflexivity.
Qed.

Lemma restore_pin hs st : restore st (pin hs st) = st.
Proof. now destruct st. Qed.

(** Runs the first step of a sequence whose outcome is known. *)
Lemma bind_Ok {S A B} (m : M S A) (k : A -> M S B) s a s' :
  m s = (Ok a, s') -> (m ≫= k) s = k a s'.
Proof. intros H. unfold mbind, M_bind. now rewrite H. Qed.

Lemma bind_Throw {S A B} (m : M S A) (k : A -> M S B) s e s' :
  m s = (Throw e, s') -> (m ≫= k) s = (Throw e, s').
Proof. intros H. unfold mbind, M_bind. now rewrite H. Qed.

Lemma string_app_assoc (s1 s2 s3 : string) :
  ((s1 ++ s2) ++ s3 = s1 ++ (s2 ++ s3))%string.
Proof.
  induction s1 as [|c s1 IH]; [reflexivity|].
  change (String.String c ((s1 ++ s2) ++ s3) = String.String c (s1 ++ (s2 ++ s3)))%string.
  now rewrite IH.
Qed.

Lemma string_app_nil_r (s : string) : (s ++ EmptyString)%string = s.
Proof.
  induction s as [|c s IH]; [reflexivity|].
  change (String.String c (s ++ EmptyString) = String.String c s)%string. now rewrite IH.
Qed.

(** A step that leaves the objects alone and at most writes. *)
Lemma extends_same_objects st st' :
  heap st' = heap st -> owned st' = owned st ->
  (exists text, output st' = (output st ++ text)%string) ->
  extends st st'.
Proof.
  intros Hh Ho Hout. unfold extends. rewrite Hh, Ho.
  repeat apply conj; try tauto; try lia; eauto.
Qed.

Lemma extends_refl st : extends st st.
Proof.
  apply extends_same_objects; [reflexivity..|].
  exists EmptyString. now rewrite string_app_nil_r.
Qed.

Lemma extends_trans st1 st2 st3 : extends st1 st2 -> extends st2 st3 -> extends st1 st3.
Proof.
  intros ([t1 Ho1] & Hl1 & Hk1 & Hn1 & Hi1 & Hb1 & Hc1 & Hv1)
         ([t2 Ho2] & Hl2 & Hk2 & Hn2 & Hi2 & Hb2 & Hc2 & Hv2).
  unfold extends. repeat apply conj.
  - exists (t1 ++ t2)%string. now rewrite Ho2, Ho1, string_app_assoc.
  - lia.
  - intros a Ha. rewrite Hk2 by lia. now apply Hk1.
  - intros a Ha. destruct (decide (a < length (heap st2))%nat) as [Hlt|Hge].
    + apply Hk2; [exact Hlt|]. apply Hn1. lia.
    + apply Hn2. lia.
  - intros a cls fields Ha.
    destruct (Hi1 a cls fields Ha) as (fields1 & Ha1 & Hkeys1).
    destruct (Hi2 a cls fields1 Ha1) as (fields2 & Ha2 & Hkeys2).
    exists fields2. split; [exact Ha2|]. auto.
  - intros a cls fields3 Ha.
    destruct (Hb2 a cls fields3 Ha) as (fields2 & Ha2).
    apply (Hb1 a cls fields2 Ha2).
  - intros a c. now rewrite Hc1, Hc2.
  - intros a o Ha Hval Hown. apply Hv2; [now apply Hv1|exact Hval|].
    rewrite Hk1; [exact Hown|]. eapply lookup_lt_Some. exact Ha.
Qed.

Lemma extends_allocated o st : is_value o = true -> extends st (allocated o st).
Proof.
  intros Hval. unfold extends, allocated. cbn [heap output owned].
  rewrite length_app. cbn [length].
  assert (forall a x, (heap st ++ [o]) !! a = Some x ->
            heap st !! a = Some x \/ (a = length (heap st) /\ x = o)) as Hsplit.
  { intros a x Hx. destruct (decide (a < length (heap st))%nat) as [Hlt|Hge].
    - left. now rewrite lookup_app_l in Hx by exact Hlt.
    - right. rewrite lookup_app_r in Hx by lia.
      destruct (a - length (heap st))%nat as [|n] eqn:E; [|now destruct n].
      injection Hx as <-. split; [lia|reflexivity]. }
  assert (forall a x, heap st !! a = Some x -> (heap st ++ [o]) !! a = Some x) as Hkeep.
  { intros a x Hx. rewrite lookup_app_l by (eapply lookup_lt_Some; exact Hx). exact Hx. }
  repeat apply conj.
  - exists EmptyString. now rewrite string_app_nil_r.
  - lia.
  - intros a Ha. rewrite elem_of_cons. split; [|tauto]. intros [->|H]; [lia|exact H].
  - intros a Ha. rewrite elem_of_cons. left. lia.
  - intros a cls fields Ha. exists fields. auto.
  - intros a cls fields' Ha. destruct (Hsplit _ _ Ha) as [H|[_ Heq]]; [eauto|].
    rewrite <- Heq in Hval. discriminate.
  - intros a c. split; [apply Hkeep|].
    intros Ha. destruct (Hsplit _ _ Ha) as [H|[_ Heq]]; [exact H|].
    rewrite <- Heq in Hval. discriminate.
  - intros a x Ha _ _. now apply Hkeep.
Qed.

Lemma extends_written text st : extends st (written text st).
Proof. apply extends_same_objects; [reflexivity..|]. now exists text. Qed.

Lemma extends_pin hs st : extends st (pin hs st).
Proof.
  apply extends_same_objects; [reflexivity..|].
  exists EmptyString. cbn. now rewrite string_app_nil_r.
Qed.

Lemma extends_restore st0 st : extends st (restore st0 st).
Proof.
  apply extends_same_objects; [reflexivity..|].
  exists EmptyString. cbn. now rewrite string_app_nil_r.
Qed.

Lemma extends_set_field a cls fields fields' st :
  heap st !! a = Some (ClassInstance cls fields) ->
  (forall k, is_Some (fields !! k) -> is_Some (fields' !! k)) ->
  extends st {| heap := <[a := ClassInstance cls fields']> (heap st); output := output st;
                owned := owned st; held := held st |}.
Proof.
  intros Ha Hkeys. pose proof (lookup_lt_Some _ _ _ Ha) as Hlt.
  unfold extends. cbn [heap output owned]. rewrite length_insert.
  repeat apply conj; try tauto; try lia.
  - exists EmptyString. now rewrite string_app_nil_r.
  - intros b cls' fields0 Hb. destruct (decide (a = b)) as [<-|Hne].
    + rewrite Ha in Hb. injection Hb as <- <-.
      exists fields'. split; [now apply list_lookup_insert_eq|exact Hkeys].
    + rewrite list_lookup_insert_ne by exact Hne. eauto.
  - intros b cls' fields0 Hb. destruct (decide (a = b)) as [<-|Hne].
    + rewrite list_lookup_insert_eq in Hb by exact Hlt. injection Hb as <- _. eauto.
    + rewrite list_lookup_insert_ne in Hb by exact Hne. eauto.
  - intros b c. destruct (decide (a = b)) as [<-|Hne].
    + rewrite list_lookup_insert_eq by exact Hlt. rewrite Ha. split; discriminate.
    + now rewrite list_lookup_insert_ne by exact Hne.
  - intros b o Hb Hval _. destruct (decide (a = b)) as [<-|Hne].
    + rewrite Ha in Hb. injection Hb as <-. discriminate.
    + now rewrite list_lookup_insert_ne by exact Hne.
Qed.

Lemma env_mono_bind {A B} (m : M Env A) (k : A -> M Env B) :
  env_mono m -> (forall a, env_mono (k a)) -> env_mono (m ≫= k).
Proof.
  intros Hm Hk closure st r closure' st'. unfold mbind, M_bind.
  destruct (m (closure, st)) as [[a| | |] [closure1 st1]] eqn:E; intros H;
    try (injection H as _ <- <-; eapply Hm; exact E).
  eapply extends_trans; [eapply Hm; exact E|eapply Hk; exact H].
Qed.

Lemma state_mono_bind {A B} (m : M State A) (k : A -> M State B) :
  state_mono m -> (forall a, state_mono (k a)) -> state_mono (m ≫= k).
Proof.
  intros Hm Hk st r st'. unfold mbind, M_bind.
  destruct (m st) as [[a| | |] st1] eqn:E; intros H;
    try (injection H as _ <-; eapply Hm; exact E).
  eapply extends_trans; [eapply Hm; exact E|eapply Hk; exact H].
Qed.

(** A computation that hands the state on as it got it. *)
Lemma env_mono_same {A} (m : M Env A) :
  (forall closure st, snd (snd (m (closure, st))) = st) -> env_mono m.
Proof.
  intros Hm closure st r closure' st' H. specialize (Hm closure st).
  rewrite H in Hm. cbn in Hm. subst st'. apply extends_refl.
Qed.

Lemma state_mono_same {A} (m : M State A) :
  (forall st, snd (m st) = st) -> state_mono m.
Proof.
  intros Hm st r st' H. specialize (Hm st). rewrite H in Hm. cbn in Hm.
  subst st'. apply extends_refl.
Qed.

Lemma env_mono_on_state {A} (m : M State A) : state_mono m -> env_mono (on_state m).
Proof.
  intros Hm closure st r closure' st'. unfold on_state.
  destruct (m st) as [r1 st1] eqn:E. intros [= _ _ <-]. eapply Hm. exact E.
Qed.

Lemma state_mono_with_closure {A} closure (m : M Env A) :
  env_mono m -> state_mono (with_closure closure m).
Proof.
  intros Hm st r st'. unfold with_closure.
  destruct (m (closure, st)) as [r1 [closure1 st1]] eqn:E. intros [= _ <-].
  eapply Hm. exact E.
Qed.

Lemma env_mono_catch (m : M Env ObjectHolder) : env_mono m -> env_mono (catch_ObjectHolder m).
Proof.
  intros Hm closure st r closure' st'. unfold catch_ObjectHolder.
  destruct (m (closure, st)) as [[v|[what|v]| |] [closure1 st1]] eqn:E;
    intros [= _ <- <-]; eapply Hm; exact E.
Qed.

Lemma state_mono_Own o : is_value o = true -> state_mono (Own o).
Proof. intros Hval st r st' [= _ <-]. now apply extends_allocated. Qed.

Lemma env_mono_holding {A} hs (m : M Env A) : env_mono m -> env_mono (holding hs m).
Proof.
  intros Hm closure st r closure' st'. unfold holding.
  destruct (m (closure, pin hs st)) as [r1 [closure1 st1]] eqn:E. intros [= _ _ <-].
  eapply extends_trans; [apply extends_pin|].
  eapply extends_trans; [eapply Hm; exact E|apply extends_restore].
Qed.

Lemma env_mono_in_call {A} hs (m : M State A) : state_mono m -> env_mono (in_call hs m).
Proof.
  intros Hm closure st r closure' st'. unfold in_call.
  destruct (m (pin _ st)) as [r1 st1] eqn:E. intros [= _ _ <-].
  eapply extends_trans; [apply extends_pin|].
  eapply extends_trans; [eapply Hm; exact E|apply extends_restore].
Qed.

Lemma state_mono_write text : state_mono (write text).
Proof. intros st r st' [= _ <-]. apply (extends_written text st). Qed.

Lemma state_mono_set_field a field_name v : state_mono (set_field a field_name v).
Proof.
  intros st r st'. unfold set_field.
  destruct (heap st !! a) as [[| | | |cls fields]|] eqn:Ha;
    try (intros [= _ <-]; apply extends_refl).
  intros [= _ <-]. eapply extends_set_field; [exact Ha|].
  intros k Hk. destruct (decide (field_name = k)) as [<-|Hne].
  - rewrite lookup_insert_eq. eauto.
  - now rewrite lookup_insert_ne by exact Hne.
Qed.

Lemma env_mono_ExecuteArgs exec args_ :
  (forall s, env_mono (exec s)) -> env_mono (ExecuteArgs exec args_).
Proof.
  intros Hexec. induction args_ as [|arg rest IH]; cbn [ExecuteArgs].
  - now apply env_mono_same.
  - apply env_mono_bind; [apply Hexec|intros v].
    apply env_mono_bind; [exact IH|intros vs]. now apply env_mono_same.
Qed.

Lemma env_mono_ExecuteParams exec args_ : forall params,
  (forall s, env_mono (exec s)) -> env_mono (ExecuteParams exec params args_).
Proof.
  induction args_ as [|arg rest IH]; intros params Hexec; cbn [ExecuteParams].
  - now apply env_mono_same.
  - apply env_mono_bind; [apply env_mono_holding, Hexec|intros v]. now apply IH.
Qed.

Ltac mono_step :=
  match goal with
  | |- env_mono (mbind _ _) => apply env_mono_bind; [|intros ?]
  | |- state_mono (mbind _ _) => apply state_mono_bind; [|intros ?]
  | |- env_mono (on_state _) => apply env_mono_on_state
  | |- env_mono (catch_ObjectHolder _) => apply env_mono_catch
  | |- env_mono (ExecuteArgs _ _) => apply env_mono_ExecuteArgs; intros ?
  | |- env_mono (ExecuteParams _ _ _) => apply env_mono_ExecuteParams; intros ?
  | |- env_mono (holding _ _) => apply env_mono_holding
  | |- env_mono (in_call _ _) => apply env_mono_in_call
  | |- state_mono (with_closure _ _) => apply state_mono_with_closure
  | |- state_mono (Own _) => apply state_mono_Own; reflexivity
  | |- state_mono (write _) => apply state_mono_write
  | |- state_mono (set_field _ _ _) => apply state_mono_set_field
  | |- env_mono (match ?x with _ => _ end) => destruct x
  | |- state_mono (match ?x with _ => _ end) => destruct x
  | |- env_mono _ =>
      solve [apply env_mono_same; intros ? ?; reflexivity
            | apply env_mono_same; intros ? ?; unfold int_result;
              match goal with |- context [in_int ?z] => destruct (in_int z) end; reflexivity]
  | |- state_mono _ => solve [apply state_mono_same; intros ?; reflexivity]
  end.

Lemma env_mono_PrintArgs exec print args_ :
  (forall s, env_mono (exec s)) -> (forall a, state_mono (print a)) ->
  env_mono (PrintArgs exec print args_).
Proof.
  intros Hexec Hprint. induction args_ as [|arg rest IH]; cbn [PrintArgs].
  - now apply env_mono_same.
  - apply env_mono_bind; [apply Hexec|intros h].
    apply env_mono_bind; [now apply env_mono_same|intros closure0].
    apply env_mono_bind; [now apply env_mono_same|intros st0].
    apply env_mono_bind; [repeat (first [apply Hprint | mono_step])|intros _].
    apply env_mono_bind; [repeat mono_step|intros _]. exact IH.
Qed.

Lemma env_mono_resolve dotted_ids_ : env_mono (VariableValue_Execute dotted_ids_).
Proof. apply env_mono_same. intros closure st. reflexivity. Qed.

Lemma state_mono_apply_Comparator (equal less : ObjectHolder -> ObjectHolder -> M State bool)
    cmp_ lhs rhs :
  (forall l r, state_mono (equal l r)) -> (forall l r, state_mono (less l r)) ->
  state_mono (apply_Comparator equal less cmp_ lhs rhs).
Proof.
  intros HE HL.
  destruct cmp_; cbn [apply_Comparator];
    unfold NotEqual, Greater, LessOrEqual, GreaterOrEqual;
    repeat (first [apply HE | apply HL | mono_step]).
Qed.

Lemma Execute_mono_all fuel :
  (forall s, env_mono (Execute fuel s))
  /\ (forall self method actual_args, state_mono (Call fuel self method actual_args))
  /\ (forall self, state_mono (Object_Print fuel self))
  /\ (forall lhs rhs, state_mono (Equal fuel lhs rhs))
  /\ (forall lhs rhs, state_mono (Less fuel lhs rhs)).
Proof.
  induction fuel as [|fuel (IHE & IHC & IHP & IHEq & IHLt)].
  - repeat apply conj; intros; cbn [Execute Call Object_Print Equal Less]; mono_step.
  - repeat apply conj.
    + intros s. destruct s; cbn [Execute];
        repeat (first [ apply IHE | apply IHC | apply IHP
                      | apply env_mono_resolve
                      | apply env_mono_PrintArgs; [exact IHE|exact IHP]
                      | apply state_mono_apply_Comparator; [exact IHEq|exact IHLt]
                      | mono_step ]).
    + intros self method actual_args. cbn [Call].
      repeat (first [apply IHE | mono_step]).
    + intros self. cbn [Object_Print].
      repeat (first [apply IHC | apply IHP | mono_step]).
    + intros lhs rhs. cbn [Equal].
      repeat (first [apply IHC | mono_step]).
    + intros lhs rhs. cbn [Less]. cbv zeta.
      repeat (first [apply IHC | mono_step]).
Qed.

Lemma bind_Undefined {S A B} (m : M S A) (k : A -> M S B) s s' :
  m s = (Undefined, s') -> (m ≫= k) s = (Undefined, s').
Proof. intros H. unfold mbind, M_bind. now rewrite H. Qed.

(** C3: Less on two empty handles throws its runtime_error (the one at the
    end of the function) and leaves the state alone; whatever the bound on
    the depth of calls, it returns no boolean. *)
Theorem Less_none_none_throws :
  (forall fuel st,
     Less (S fuel) None None st
     = (Throw (runtime_error "Cannot compare objects for less"), st))
  /\ (forall fuel st b st', Less fuel None None st <> (Ok b, st')).
Proof.
  split.
  - intros fuel st. reflexivity.
  - intros [|fuel] st b st'; discriminate.
Qed.

(** C10: when the object chain of a FieldAssignment resolves to something
    that is not a class instance (a Number, a String, an empty handle), the
    node returns the empty handle and leaves closure, heap and output as
    they were, whatever its right-hand side is: the right-hand side is not
    run. *)
Theorem FieldAssignment_on_non_instance fuel object_ field_name_ rv_ closure st h :
  resolve st closure object_ = Ok h ->
  (forall cls fields, Get st h <> Some (ClassInstance cls fields)) ->
  Execute (S fuel) (ast.FieldAssignment object_ field_name_ rv_) (closure, st)
  = (Ok None, (closure, st)).
Proof.
  intros Hres Hnot. cbn [Execute].
  erewrite bind_Ok; [|unfold VariableValue_Execute; rewrite Hres; reflexivity].
  erewrite bind_Ok; [|reflexivity].
  destruct h as [a|]; [|reflexivity].
  destruct (Get st (Some a)) as [[| | | |cls fields]|] eqn:Hget; try reflexivity.
  now destruct (Hnot cls fields).
Qed.

Lemma FieldAssignment_on_non_instance_witness :
  resolve state_n closure_n ["n"] = Ok (Some 0%nat)
  /\ Execute 3 (ast.FieldAssignment ["n"] "x" (ast.Print [ast.ValueStatement 0]))
       (closure_n, state_n)
     = (Ok None, (closure_n, state_n)).
Proof.
  split; [reflexivity|].
  apply (FieldAssignment_on_non_instance 2 ["n"] "x" _ closure_n state_n (Some 0%nat)).
  - reflexivity.
  - intros cls fields. discriminate.
Defined.

(** C6: And and Or run their right operand only when the left one does not
    settle the result.  With the left operand run to [lhs] in state [st1]:
    And on a falsy [lhs] and Or on a truthy one return a Bool allocated by
    Own in [st1], whatever the right operand is (it is not run: closure,
    heap and output are those the left operand left); otherwise the right
    operand is run and the result is a newly allocated Bool(IsTrue(rhs)). *)
Theorem And_Or_short_circuit fuel lhs_ rhs_ env lhs closure1 st1 :
  Execute fuel lhs_ env = (Ok lhs, (closure1, st1)) ->
  (IsTrue st1 lhs = false ->
     Execute (S fuel) (ast.And lhs_ rhs_) env
     = (Ok (Some (length (heap st1))), (closure1, allocated (Bool false) st1)))
  /\ (IsTrue st1 lhs = true ->
     Execute (S fuel) (ast.Or lhs_ rhs_) env
     = (Ok (Some (length (heap st1))), (closure1, allocated (Bool true) st1)))
  /\ (forall rhs closure2 st2,
        Execute fuel rhs_ (closure1, st1) = (Ok rhs, (closure2, st2)) ->
        (IsTrue st1 lhs = true ->
           Execute (S fuel) (ast.And lhs_ rhs_) env
           = (Ok (Some (length (heap st2))),
              (closure2, allocated (Bool (IsTrue st2 rhs)) st2)))
        /\ (IsTrue st1 lhs = false ->
           Execute (S fuel) (ast.Or lhs_ rhs_) env
           = (Ok (Some (length (heap st2))),
              (closure2, allocated (Bool (IsTrue st2 rhs)) st2)))).
Proof.
  intros Hl. split; [|split].
  - intros Hf. cbn [Execute].
    erewrite bind_Ok by exact Hl. erewrite bind_Ok by reflexivity.
    rewrite Hf. reflexivity.
  - intros Ht. cbn [Execute].
    erewrite bind_Ok by exact Hl. erewrite bind_Ok by reflexivity.
    rewrite Ht. reflexivity.
  - intros rhs closure2 st2 Hr. split.
    + intros Ht. cbn [Execute].
      erewrite bind_Ok by exact Hl. erewrite bind_Ok by reflexivity.
      rewrite Ht. erewrite bind_Ok by exact Hr. erewrite bind_Ok by reflexivity.
      reflexivity.
    + intros Hf. cbn [Execute].
      erewrite bind_Ok by exact Hl. erewrite bind_Ok by reflexivity.
      rewrite Hf. cbn [negb]. erewrite bind_Ok by exact Hr.
      erewrite bind_Ok by reflexivity. reflexivity.
Qed.

Lemma And_Or_short_circuit_witness :
  Execute 3 (ast.And (ast.ValueStatement 0) print_one) (∅, state_01)
  = (Ok (Some 2%nat), (∅, {| heap := [Number 0; Number 1; Bool false];
                             output := EmptyString; owned := [2%nat]; held := [] |}))
  /\ Execute 3 (ast.Or (ast.ValueStatement 1) print_one) (∅, state_01)
     = (Ok (Some 2%nat), (∅, {| heap := [Number 0; Number 1; Bool true];
                                output := EmptyString; owned := [2%nat]; held := [] |}))
  /\ Execute 3 (ast.And (ast.ValueStatement 1) print_one) (∅, state_01)
     = (Ok (Some 2%nat),
        (∅, {| heap := [Number 0; Number 1; Bool false];
               output := "1" ++ String.String parse.newline EmptyString;
               owned := [2%nat]; held := [] |})).
Proof.
  pose proof (And_Or_short_circuit 2 (ast.ValueStatement 0) print_one
                (∅, state_01) (Some 0%nat) ∅ state_01 eq_refl) as (H0 & _ & _).
  pose proof (And_Or_short_circuit 2 (ast.ValueStatement 1) print_one
                (∅, state_01) (Some 1%nat) ∅ state_01 eq_refl) as (_ & H1 & H2).
  split; [exact (H0 eq_refl)|]. split; [exact (H1 eq_refl)|].
  exact (proj1 (H2 None ∅ _ eq_refl) eq_refl).
Defined.

(** The quotient of two ints fits an int, INT_MIN / -1 apart. *)
Lemma quot_in_int l r :
  in_int l = true -> in_int r = true -> r <> 0 ->
  ~ (l = INT_MIN /\ r = -1) ->
  in_int (Z.quot l r) = true.
Proof.
  unfold in_int, INT_MIN, INT_MAX. intros Hl Hr Hr0 Hne.
  apply andb_true_iff in Hl as [Hl1 Hl2]. apply andb_true_iff in Hr as [Hr1 Hr2].
  apply Z.leb_le in Hl1, Hl2, Hr1, Hr2.
  change (- 2 ^ 31) with (-2147483648) in *.
  change (2 ^ 31 - 1) with 2147483647 in *.
  apply andb_true_iff. rewrite !Z.leb_le.
  pose proof (Z.quot_rem' l r) as Hqr.
  pose proof (Z.rem_bound_abs l r Hr0) as Hrem.
  pose proof (Z.rem_sign_mul l r Hr0) as Hsgn.
  nia.
Qed.

(** C7, as the code has it: with both operands run to Numbers [l] and [r],
    Div returns a newly allocated Number holding [l] divided by [r] with
    truncation toward zero when [r] is not zero and the quotient fits an int
    (every case but INT_MIN / -1); it throws "The denominator is zero" when
    [r] is zero; and it throws "The operator is not overloaded /" when an
    operand is not a Number. *)
Theorem Div_on_Numbers fuel lhs_ rhs_ env lhs env1 rhs closure2 st2 :
  Execute fuel lhs_ env = (Ok lhs, env1) ->
  holding [lhs] (Execute fuel rhs_) env1 = (Ok rhs, (closure2, st2)) ->
  (forall l r,
     Get st2 lhs = Some (Number l) -> Get st2 rhs = Some (Number r) ->
     in_int l = true -> in_int r = true ->
     r <> 0 -> ~ (l = INT_MIN /\ r = -1) ->
     Execute (S fuel) (ast.Div lhs_ rhs_) env
     = (Ok (Some (length (heap st2))), (closure2, allocated (Number (Z.quot l r)) st2)))
  /\ (forall l,
        Get st2 lhs = Some (Number l) -> Get st2 rhs = Some (Number 0) ->
        Execute (S fuel) (ast.Div lhs_ rhs_) env
        = (Throw (runtime_error "The denominator is zero"), (closure2, st2)))
  /\ ((forall l, Get st2 lhs <> Some (Number l)) \/ (forall r, Get st2 rhs <> Some (Number r)) ->
        Execute (S fuel) (ast.Div lhs_ rhs_) env
        = (Throw (runtime_error "The operator is not overloaded /"), (closure2, st2))).
Proof.
  intros Hl Hr.
  assert (Execute (S fuel) (ast.Div lhs_ rhs_) env
          = match Get st2 lhs, Get st2 rhs with
            | Some (Number l), Some (Number r) =>
                if negb (r =? 0) then
                  (z ← int_result (Z.quot l r); on_state (Own (Number z))) (closure2, st2)
                else (Throw (runtime_error "The denominator is zero"), (closure2, st2))
            | _, _ => (Throw (runtime_error "The operator is not overloaded /"), (closure2, st2))
            end) as Hdiv.
  { cbn [Execute]. erewrite bind_Ok by exact Hl. erewrite bind_Ok by exact Hr.
    erewrite bind_Ok by reflexivity.
    destruct (Get st2 lhs) as [[l| | | |]|]; try reflexivity.
    destruct (Get st2 rhs) as [[r| | | |]|]; try reflexivity.
    destruct (negb (r =? 0)); reflexivity. }
  rewrite Hdiv. clear Hdiv. split; [|split].
  - intros l r Hgl Hgr Hil Hir Hr0 Hmin. rewrite Hgl, Hgr.
    apply Z.eqb_neq in Hr0 as Hr0'. rewrite Hr0'. cbn [negb].
    unfold int_result. rewrite (quot_in_int l r Hil Hir Hr0 Hmin). reflexivity.
  - intros l Hgl Hgr. rewrite Hgl, Hgr. reflexivity.
  - intros [Hnl|Hnr].
    + destruct (Get st2 lhs) as [[l| | | |]|]; try reflexivity.
      now destruct (Hnl l).
    + destruct (Get st2 lhs) as [[l| | | |]|]; try reflexivity.
      destruct (Get st2 rhs) as [[r| | | |]|]; try reflexivity.
      now destruct (Hnr r).
Qed.

Lemma Div_on_Numbers_witness :
  Execute 2 (ast.Div (ast.ValueStatement 0) (ast.ValueStatement 2)) (∅, state_7_2)
  = (Ok (Some 4%nat), (∅, allocated (Number 3) state_7_2))
  /\ Execute 2 (ast.Div (ast.ValueStatement 1) (ast.ValueStatement 2)) (∅, state_7_2)
     = (Ok (Some 4%nat), (∅, allocated (Number (-3)) state_7_2))
  /\ Execute 2 (ast.Div (ast.ValueStatement 0) (ast.ValueStatement 3)) (∅, state_7_2)
     = (Throw (runtime_error "The denominator is zero"), (∅, state_7_2))
  /\ Execute 2 (ast.Div (ast.ValueStatement 0) ast.None) (∅, state_7_2)
     = (Throw (runtime_error "The operator is not overloaded /"), (∅, state_7_2)).
Proof.
  pose proof (Div_on_Numbers 1 (ast.ValueStatement 0) (ast.ValueStatement 2) (∅, state_7_2)
                (Some 0%nat) (∅, state_7_2) (Some 2%nat) ∅ state_7_2 eq_refl eq_refl)
    as (H72 & _ & _).
  pose proof (Div_on_Numbers 1 (ast.ValueStatement 1) (ast.ValueStatement 2) (∅, state_7_2)
                (Some 1%nat) (∅, state_7_2) (Some 2%nat) ∅ state_7_2 eq_refl eq_refl)
    as (Hm72 & _ & _).
  pose proof (Div_on_Numbers 1 (ast.ValueStatement 0) (ast.ValueStatement 3) (∅, state_7_2)
                (Some 0%nat) (∅, state_7_2) (Some 3%nat) ∅ state_7_2 eq_refl eq_refl)
    as (_ & H70 & _).
  pose proof (Div_on_Numbers 1 (ast.ValueStatement 0) ast.None (∅, state_7_2)
                (Some 0%nat) (∅, state_7_2) None ∅ state_7_2 eq_refl eq_refl)
    as (_ & _ & H7n).
  split; [|split; [|split]].
  - apply (H72 7 2); try reflexivity; [discriminate|]. intros [H _]. discriminate H.
  - apply (Hm72 (-7) 2); try reflexivity; [discriminate|]. intros [H _]. discriminate H.
  - apply (H70 7); reflexivity.
  - apply H7n. right. intros r. discriminate.
Defined.

(** C7 as the spec words it fails on INT_MIN / -1: both operands are
    Numbers and the divisor is not zero, but the quotient does not fit an
    int, the division is undefined and no Number is returned. *)
Lemma Div_INT_MIN_by_minus_one :
  let st := {| heap := [Number INT_MIN; Number (-1)]; output := EmptyString;
               owned := []; held := [] |} in
  in_int INT_MIN = true /\ in_int (-1) = true
  /\ Execute 2 (ast.Div (ast.ValueStatement 0) (ast.ValueStatement 1)) (∅, st)
     = (Undefined, (∅, st)).
Proof. cbv zeta. repeat split. Qed.

Lemma find_first_named method chain m :
  List.find (fun x => String.eqb (name x) method) chain = Some m
  <-> first_named method chain m.
Proof.
  unfold first_named. induction chain as [|x chain IH]; cbn [List.find].
  - split; [discriminate|]. intros (before & after & H & _). now destruct before.
  - destruct (String.eqb_spec (name x) method) as [Heq|Hne].
    + split.
      * intros [= <-]. exists [], chain. repeat split; [assumption|constructor].
      * intros ([|y before] & after & H & Hm & Hb).
        -- now injection H as <- _.
        -- injection H as <- _. apply Forall_cons in Hb as [Hy _]. contradiction.
    + rewrite IH. split.
      * intros (before & after & -> & Hm & Hb).
        exists (x :: before), after. repeat split; [assumption|]. now constructor.
      * intros ([|y before] & after & H & Hm & Hb).
        -- injection H as -> _. contradiction.
        -- injection H as -> ->. apply Forall_cons in Hb as [_ Hb].
           exists before, after. auto.
Qed.

Lemma find_app_methods (f : Method -> bool) l1 l2 :
  List.find f (l1 ++ l2)
  = match List.find f l1 with
    | Some m => Some m
    | None => List.find f l2
    end.
Proof.
  induction l1 as [|x l1 IH]; [reflexivity|].
  cbn [app List.find]. now destruct (f x).
Qed.

Lemma GetMethod_chain : forall c method,
  GetMethod c method
  = List.find (fun x => String.eqb (name x) method) (method_chain c).
Proof.
  fix IH 1. intros [n methods [p|]] method; cbn [GetMethod method_chain].
  - rewrite find_app_methods.
    destruct (List.find _ methods); [reflexivity|]. apply IH.
  - rewrite find_app_methods.
    destruct (List.find _ methods); reflexivity.
Qed.

(** C8: GetMethod returns the first method with the given name on the
    chain own-methods-then-parent, whatever its arity; HasMethod holds
    exactly when that first method has the given number of parameters.  So
    a method of B shadows the same-named methods of its parent A, and a
    name B does not define resolves in A. *)
Theorem method_resolution_order :
  (forall c method m,
     GetMethod c method = Some m <-> first_named method (method_chain c) m)
  /\ (forall c method k,
        HasMethod c method k = true
        <-> exists m, first_named method (method_chain c) m
                      /\ length (formal_params m) = k)
  /\ (forall nameB before mB after A method,
        name mB = method ->
        Forall (fun x => name x <> method) before ->
        let B := Build_Class nameB (before ++ mB :: after) (Some A) in
        GetMethod B method = Some mB
        /\ forall k, HasMethod B method k = (length (formal_params mB) =? k)%nat)
  /\ (forall nameB methodsB A method,
        Forall (fun x => name x <> method) methodsB ->
        let B := Build_Class nameB methodsB (Some A) in
        GetMethod B method = GetMethod A method
        /\ forall k, HasMethod B method k = HasMethod A method k).
Proof.
  assert (forall c method m,
            GetMethod c method = Some m <-> first_named method (method_chain c) m) as H1.
  { intros c method m. rewrite GetMethod_chain. apply find_first_named. }
  split; [exact H1|]. split; [|split].
  - intros c method k. unfold HasMethod. split.
    + destruct (GetMethod c method) as [m|] eqn:Hm; [|discriminate].
      intros Hk. apply Nat.eqb_eq in Hk. exists m. split; [now apply H1|exact Hk].
    + intros (m & Hm & Hk). apply H1 in Hm. rewrite Hm. now apply Nat.eqb_eq.
  - intros nameB before mB after A method Hname Hbefore B.
    assert (GetMethod B method = Some mB) as HB.
    { apply H1. exists before, (after ++ method_chain A). repeat split; try assumption.
      subst B. cbn [method_chain]. now rewrite <- app_assoc. }
    split; [exact HB|]. intros k. unfold HasMethod. now rewrite HB.
  - intros nameB methodsB A method Hnone B.
    assert (GetMethod B method = GetMethod A method) as HB.
    { subst B. cbn [GetMethod].
      destruct (List.find _ methodsB) as [m|] eqn:Hfind; [|reflexivity].
      apply List.find_some in Hfind as [Hin Heq]. apply String.eqb_eq in Heq.
      rewrite Forall_forall in Hnone. apply list_elem_of_In in Hin.
      now destruct (Hnone m Hin). }
    split; [exact HB|]. intros k. unfold HasMethod. now rewrite HB.
Qed.

Lemma method_resolution_order_witness :
  (GetMethod class_B "m" = Some (method_m ["x"; "y"])
   /\ HasMethod class_B "m" 2 = true /\ HasMethod class_B "m" 1 = false)
  /\ (GetMethod class_B' "m" = Some (method_m ["x"])
      /\ HasMethod class_B' "m" 1 = true).
Proof.
  destruct method_resolution_order as (_ & _ & Hshadow & Hinherit).
  split.
  - destruct (Hshadow "B" [] (method_m ["x"; "y"]) [] class_A "m" eq_refl
                (Forall_nil_2 _)) as [Hget Hhas].
    split; [exact Hget|]. split; [exact (Hhas 2%nat)|exact (Hhas 1%nat)].
  - assert (Forall (fun x => name x <> "m")
              [{| name := "g"; formal_params := []; body := ast.None |}]) as Hg
      by (constructor; [discriminate|constructor]).
    destruct (Hinherit "B" _ class_A "m" Hg) as [Hget Hhas].
    split; [exact Hget|exact (Hhas 1%nat)].
Defined.

Lemma ExecuteArgs_app_Throw exec before s after env vs env1 e env2 :
  ExecuteArgs exec before env = (Ok vs, env1) ->
  exec s env1 = (Throw e, env2) ->
  ExecuteArgs exec (before ++ s :: after) env = (Throw e, env2).
Proof.
  revert env vs. induction before as [|b before IH]; intros env vs Hb Hs.
  - injection Hb as _ <-. cbn [app ExecuteArgs]. now apply bind_Throw.
  - cbn [app ExecuteArgs] in Hb |- *.
    unfold mbind, M_bind in Hb |- *.
    destruct (exec b env) as [[v| | |] env0]; try discriminate Hb.
    destruct (ExecuteArgs exec before env0) as [[vs0| | |] env0'] eqn:Hrest;
      try discriminate Hb.
    injection Hb as _ <-. now rewrite (IH _ _ Hrest Hs).
Qed.

Lemma ExecuteParams_app exec before : forall params rest env params1 env1,
  ExecuteParams exec params before env = (Ok params1, env1) ->
  ExecuteParams exec params (before ++ rest) env = ExecuteParams exec params1 rest env1.
Proof.
  induction before as [|b before IH]; intros params rest env params1 env1 H.
  - injection H as <- <-. reflexivity.
  - cbn [app ExecuteParams] in H |- *. unfold mbind, M_bind in H |- *.
    destruct (holding params (exec b) env) as [[v| | |] env0]; try discriminate H.
    now apply IH.
Qed.

Lemma PrintArgs_next exec print arg rest env closure1 st1 :
  PrintArgs exec print [arg] env = (Ok tt, (closure1, st1)) ->
  rest <> [] ->
  PrintArgs exec print (arg :: rest) env
  = PrintArgs exec print rest (closure1, written " " st1).
Proof.
  intros H Hrest. destruct rest as [|s rest]; [contradiction|].
  cbn [PrintArgs] in H |- *. unfold mbind, M_bind in H |- *.
  destruct (exec arg env) as [[h| | |] [c0 st0]]; try discriminate H.
  cbn [get_closure get_st on_state get_state] in H |- *.
  match type of H with
  | (let (_, _) := ?b in _) = _ => destruct b as [[[]| | |] [c1' st1']]; try discriminate H
  end.
  injection H as <- <-. reflexivity.
Qed.

Lemma Print_Throw fuel args_ env e env' :
  Execute (S fuel) (ast.Print args_) env = (Throw e, env')
  <-> PrintArgs (Execute fuel) (Object_Print fuel) args_ env = (Throw e, env').
Proof.
  cbn [Execute]. unfold mbind, M_bind.
  destruct (PrintArgs _ _ args_ env) as [[[]| | |] [c s]]; cbn; split; intros H;
    first [discriminate H | injection H as <- <-; reflexivity].
Qed.

(** C9: Return runs its expression and throws the resulting handle.
    Whatever a node other than MethodBody runs (an operand, an argument,
    a branch, a statement of a Compound, a call of a method, the printing
    of an object: the computations [runs] lists), an exception thrown
    there, the handle of a Return included, leaves the node unchanged, and
    the same holds of Call, of Print on an instance and of the comparators.
    MethodBody turns a thrown handle into its return value and never lets
    one through; a body that returns normally makes MethodBody return the
    empty handle, and a runtime_error is not caught by MethodBody. *)
Theorem Return_unwinds_to_MethodBody :
  (forall fuel statement_ env v env',
     Execute fuel statement_ env = (Ok v, env') ->
     Execute (S fuel) (ast.Return statement_) env = (Throw (thrown_ObjectHolder v), env'))
  /\ (forall fuel s env A (m : M Env A) env_m e env',
        runs fuel s env A m env_m ->
        m env_m = (Throw e, env') ->
        Execute (S fuel) s env = (Throw e, env'))
  /\ (forall fuel self method actual_args st cls fields m e closure' st',
        heap st !! self = Some (ClassInstance cls fields) ->
        GetMethod cls method = Some m ->
        length (formal_params m) = length actual_args ->
        Execute fuel (body m)
          (emplace "self" (Share self) (emplace_args (formal_params m) actual_args ∅), st)
        = (Throw e, (closure', st')) ->
        Call (S fuel) self method actual_args st = (Throw e, st'))
  /\ (forall fuel self st cls fields e st',
        heap st !! self = Some (ClassInstance cls fields) ->
        HasMethod cls "__str__" 0 = true ->
        (Call fuel self "__str__" [] st = (Throw e, st') ->
           Object_Print (S fuel) self st = (Throw e, st'))
        /\ (forall a st1,
              Call fuel self "__str__" [] st = (Ok (Some a), st1) ->
              Object_Print fuel a st1 = (Throw e, st') ->
              Object_Print (S fuel) self st = (Throw e, st')))
  /\ (forall fuel a rhs st cls fields e st',
        heap st !! a = Some (ClassInstance cls fields) ->
        (HasMethod cls "__eq__" 1 = true ->
           Call fuel a "__eq__" [rhs] st = (Throw e, st') ->
           Equal (S fuel) (Some a) rhs st = (Throw e, st'))
        /\ (HasMethod cls "__lt__" 1 = true ->
              Call fuel a "__lt__" [rhs] st = (Throw e, st') ->
              Less (S fuel) (Some a) rhs st = (Throw e, st')))
  /\ (forall (equal less : ObjectHolder -> ObjectHolder -> M State bool) cmp_ lhs rhs st e st',
        (cmp_ = ast.Equal \/ cmp_ = ast.NotEqual ->
           equal lhs rhs st = (Throw e, st') ->
           apply_Comparator equal less cmp_ lhs rhs st = (Throw e, st'))
        /\ (cmp_ <> ast.Equal -> cmp_ <> ast.NotEqual ->
              less lhs rhs st = (Throw e, st') ->
              apply_Comparator equal less cmp_ lhs rhs st = (Throw e, st'))
        /\ (forall st1,
              cmp_ = ast.LessOrEqual \/ cmp_ = ast.Greater ->
              less lhs rhs st = (Ok false, st1) ->
              equal lhs rhs st1 = (Throw e, st') ->
              apply_Comparator equal less cmp_ lhs rhs st = (Throw e, st')))
  /\ (forall fuel body_ env v env',
        Execute fuel body_ env = (Throw (thrown_ObjectHolder v), env') ->
        Execute (S fuel) (ast.MethodBody body_) env = (Ok v, env'))
  /\ (forall fuel body_ env r env',
        Execute fuel body_ env = (Ok r, env') ->
        Execute (S fuel) (ast.MethodBody body_) env = (Ok None, env'))
  /\ (forall fuel body_ env what env',
        Execute fuel body_ env = (Throw (runtime_error what), env') ->
        Execute (S fuel) (ast.MethodBody body_) env = (Throw (runtime_error what), env'))
  /\ (forall fuel body_ env v env',
        Execute fuel (ast.MethodBody body_) env <> (Throw (thrown_ObjectHolder v), env')).
Proof.
  repeat apply conj.
  - intros fuel statement_ env v env' H. cbn [Execute].
    erewrite bind_Ok by exact H. reflexivity.
  - intros fuel s env A m env_m e env' Hruns.
    induction Hruns; intros Hm.
    all: try (cbn [Execute]; apply bind_Throw; exact Hm).
    + cbn [Execute].
      erewrite bind_Ok by (unfold VariableValue_Execute; rewrite H; reflexivity).
      erewrite bind_Ok by reflexivity. cbn [Get mbind option_bind]. rewrite H0.
      apply bind_Throw. exact Hm.
    + apply Print_Throw. cbn [PrintArgs]. apply bind_Throw. exact Hm.
    + apply Print_Throw. cbn [PrintArgs]. erewrite bind_Ok by exact H.
      do 2 erewrite bind_Ok by reflexivity. cbn [Get mbind option_bind].
      rewrite H0, H1. apply bind_Throw. apply bind_Throw. exact Hm.
    + apply Print_Throw. rewrite (PrintArgs_next _ _ _ _ _ _ _ H H0).
      apply Print_Throw. apply IHHruns. exact Hm.
    + cbn [Execute]. erewrite bind_Ok by exact H. erewrite bind_Ok by reflexivity.
      cbn [Get mbind option_bind]. rewrite H0. apply bind_Throw.
      rewrite (ExecuteParams_app _ _ _ _ _ _ _ H1). cbn [ExecuteParams].
      apply bind_Throw. exact Hm.
    + cbn [Execute]. erewrite bind_Ok by exact H. erewrite bind_Ok by reflexivity.
      cbn [Get mbind option_bind]. rewrite H0. erewrite bind_Ok by exact H1. exact Hm.
    + cbn [Execute]. erewrite bind_Ok by reflexivity. rewrite H, H0.
      apply bind_Throw. apply bind_Throw.
      rewrite (ExecuteParams_app _ _ _ _ _ _ _ H1). cbn [ExecuteParams].
      apply bind_Throw. exact Hm.
    + cbn [Execute]. erewrite bind_Ok by reflexivity. rewrite H, H0.
      apply bind_Throw. erewrite bind_Ok by exact H1. apply bind_Throw. exact Hm.
    + cbn [Execute]. erewrite bind_Ok by exact H.
      do 2 erewrite bind_Ok by reflexivity. cbn [Get mbind option_bind].
      rewrite H0, H1. apply bind_Throw. exact Hm.
    + destruct H; cbn [Execute]; apply bind_Throw; exact Hm.
    + destruct H; cbn [Execute]; erewrite bind_Ok by exact H0; apply bind_Throw; exact Hm.
    + cbn [Execute]. erewrite bind_Ok by exact H. erewrite bind_Ok by exact H0.
      erewrite bind_Ok by reflexivity. cbn [Get mbind option_bind]. rewrite H1. exact Hm.
    + cbn [Execute]. erewrite bind_Ok by exact H. erewrite bind_Ok by exact H0.
      apply bind_Throw. exact Hm.
    + cbn [Execute]. erewrite bind_Ok by exact H. erewrite bind_Ok by reflexivity.
      rewrite H0. cbn [negb]. apply bind_Throw. exact Hm.
    + cbn [Execute]. erewrite bind_Ok by exact H. erewrite bind_Ok by reflexivity.
      rewrite H0. apply bind_Throw. exact Hm.
    + cbn [Execute]. apply bind_Throw. eapply ExecuteArgs_app_Throw; eassumption.
    + cbn [Execute]. erewrite bind_Ok by exact H. erewrite bind_Ok by reflexivity.
      rewrite H0. exact Hm.
    + cbn [Execute]. erewrite bind_Ok by exact H. erewrite bind_Ok by reflexivity.
      rewrite H0. exact Hm.
  - intros fuel self method actual_args st cls fields m e closure' st' Hself Hm Hlen Hbody.
    cbn [Call]. erewrite bind_Ok by reflexivity. rewrite Hself.
    unfold HasMethod. rewrite Hm, Hlen, Nat.eqb_refl.
    unfold with_closure. now rewrite Hbody.
  - intros fuel self st cls fields e st' Hself Hstr. split.
    + intros Hcall. cbn [Object_Print].
      erewrite bind_Ok by reflexivity. rewrite Hself, Hstr.
      apply bind_Throw. exact Hcall.
    + intros a st1 Hcall Hprint. cbn [Object_Print].
      erewrite bind_Ok by reflexivity. rewrite Hself, Hstr.
      erewrite bind_Ok by exact Hcall. exact Hprint.
  - intros fuel a rhs st cls fields e st' Ha. split.
    + intros Heq Hcall. cbn [Equal].
      erewrite bind_Ok by reflexivity. cbn [Get mbind option_bind]. rewrite Ha, Heq.
      apply bind_Throw. exact Hcall.
    + intros Hlt Hcall. cbn [Less].
      erewrite bind_Ok by reflexivity. cbn [Get mbind option_bind]. rewrite Ha, Hlt.
      apply bind_Throw. exact Hcall.
  - intros equal less cmp_ lhs rhs st e st'. split; [|split].
    + intros [-> | ->] H; cbn [apply_Comparator].
      * exact H.
      * unfold NotEqual. apply bind_Throw. exact H.
    + intros H1 H2 H.
      destruct cmp_; try congruence; cbn [apply_Comparator];
        unfold Greater, LessOrEqual, GreaterOrEqual;
        repeat (first [exact H | apply bind_Throw]).
    + intros st1 [-> | ->] Hl He; cbn [apply_Comparator]; unfold Greater, LessOrEqual.
      * erewrite bind_Ok by exact Hl. exact He.
      * apply bind_Throw. erewrite bind_Ok by exact Hl. exact He.
  - intros fuel body_ env v env' H. cbn [Execute]. unfold catch_ObjectHolder.
    now rewrite H.
  - intros fuel body_ env r env' H. cbn [Execute]. unfold catch_ObjectHolder.
    now rewrite H.
  - intros fuel body_ env what env' H. cbn [Execute]. unfold catch_ObjectHolder.
    now rewrite H.
  - intros [|fuel] body_ env v env'; [discriminate|].
    cbn [Execute]. unfold catch_ObjectHolder.
    destruct (Execute fuel body_ env) as [[r|[what|v0]| |] env0] eqn:E; discriminate.
Qed.

Lemma Return_unwinds_to_MethodBody_witness :
  Execute 5 body_f (closure_f, state_f) = (Ok (Some 1%nat), (closure_f, state_f))
  /\ Execute 5 body_deep (closure_f, state_f) = (Ok (Some 1%nat), (closure_f, state_f))
  /\ Execute 2 (ast.MethodBody ast.None) (closure_f, state_f)
     = (Ok None, (closure_f, state_f)).
Proof.
  destruct Return_unwinds_to_MethodBody
    as (HReturn & Hruns & _ & _ & _ & _ & Hcatch & Hnormal & _).
  repeat apply conj.
  - apply (Hcatch 4%nat).
    apply (Hruns 3%nat _ _ _ _ _ _ _
             (runs_Compound 3 []
                (ast.IfElse (ast.VariableValue ["n"]) (ast.Return (ast.VariableValue ["n"])) None)
                [ast.Return (ast.ValueStatement 0)]
                (closure_f, state_f) [] (closure_f, state_f) eq_refl)).
    apply (Hruns 2%nat _ _ _ _ _ _ _
             (runs_IfElse_if 2 (ast.VariableValue ["n"]) (ast.Return (ast.VariableValue ["n"]))
                None (closure_f, state_f) (Some 1%nat) closure_f state_f eq_refl eq_refl)).
    apply (HReturn 1%nat). reflexivity.
  - apply (Hcatch 4%nat).
    apply (Hruns 3%nat _ _ _ _ _ _ _ (runs_Not 3 _ (closure_f, state_f))).
    apply (Hruns 2%nat _ _ _ _ _ _ _
             (runs_lhs 2 ast.Add _ _ (closure_f, state_f) binary_Add)).
    apply (HReturn 1%nat). reflexivity.
  - apply (Hnormal 1%nat ast.None _ None). reflexivity.
Defined.

(** C2, as the code has it: a NewInstance node that returns always returns
    the handle Share(cls_) to the instance it holds as a member, so all
    executions of one node yield the same instance.  Whatever the class
    and however the execution ends, it makes no instance and resets no
    field: every instance is still at its address with its class and with
    every field it had still set, and every instance there is afterwards
    was there before.  When the class has an __init__ of the given arity,
    the arguments are run, __init__ is called on the member instance as it
    is and its result is dropped; when it has none, the execution changes
    nothing at all. *)
Theorem NewInstance_shares_its_member :
  (forall fuel cls_ args_ env r env',
     Execute fuel (ast.NewInstance cls_ args_) env = (Ok r, env') -> r = Share cls_)
  /\ (forall fuel cls_ args_ closure st r closure' st',
        Execute fuel (ast.NewInstance cls_ args_) (closure, st) = (r, (closure', st')) ->
        (forall a cls fields,
           heap st !! a = Some (ClassInstance cls fields) ->
           exists fields',
             heap st' !! a = Some (ClassInstance cls fields')
             /\ forall k, is_Some (fields !! k) -> is_Some (fields' !! k))
        /\ (forall a cls fields',
              heap st' !! a = Some (ClassInstance cls fields') ->
              exists fields, heap st !! a = Some (ClassInstance cls fields)))
  /\ (forall fuel cls_ args_ closure st cls fields params env1 v env2,
        heap st !! cls_ = Some (ClassInstance cls fields) ->
        HasMethod cls "__init__" (length args_) = true ->
        ExecuteParams (Execute fuel) [] args_ (closure, st) = (Ok params, env1) ->
        in_call params (Call fuel cls_ "__init__" params) env1 = (Ok v, env2) ->
        Execute (S fuel) (ast.NewInstance cls_ args_) (closure, st) = (Ok (Share cls_), env2))
  /\ (forall fuel cls_ args_ closure st cls fields,
        heap st !! cls_ = Some (ClassInstance cls fields) ->
        HasMethod cls "__init__" (length args_) = false ->
        Execute (S fuel) (ast.NewInstance cls_ args_) (closure, st)
        = (Ok (Share cls_), (closure, st))).
Proof.
  repeat apply conj.
  - intros [|fuel] cls_ args_ [closure st] r env'; [discriminate|].
    cbn [Execute]. erewrite bind_Ok by reflexivity.
    destruct (heap st !! cls_) as [[| | | |cls fields]|]; try discriminate.
    destruct (HasMethod cls "__init__" (length args_)).
    + unfold mbind, M_bind.
      destruct (ExecuteParams _ [] args_ (closure, st)) as [[params| | |] env1];
        try discriminate.
      destruct (in_call params (Call fuel cls_ "__init__" params) env1) as [[v| | |] env2];
        try discriminate.
      cbn. now intros [= <- _].
    + cbn. now intros [= <- _].
  - intros fuel cls_ args_ closure st r closure' st' H.
    destruct (Execute_mono_all fuel) as (HE & _).
    destruct (HE _ _ _ _ _ _ H) as (_ & _ & _ & _ & Hkeep & Hnone & _).
    split; [exact Hkeep|exact Hnone].
  - intros fuel cls_ args_ closure st cls fields params env1 v env2 Hcls Hinit Hargs Hcall.
    cbn [Execute]. erewrite bind_Ok by reflexivity. rewrite Hcls, Hinit.
    erewrite bind_Ok; [reflexivity|].
    erewrite bind_Ok by exact Hargs. erewrite bind_Ok by exact Hcall. reflexivity.
  - intros fuel cls_ args_ closure st cls fields Hcls Hinit.
    cbn [Execute]. erewrite bind_Ok by reflexivity.
    rewrite Hcls, Hinit. reflexivity.
Qed.

Lemma NewInstance_shares_its_member_witness :
  let st' := {| heap := [ClassInstance class_Init
                           (<["x" := Some 2%nat]> (<["y" := Some 1%nat]> ∅));
                         Number 1; Number 2];
                output := EmptyString; owned := []; held := [] |} in
  Execute 1 (ast.NewInstance 1 []) (∅, state_factory) = (Ok (Some 1%nat), (∅, state_factory))
  /\ Some 1%nat = Share 1
  /\ Execute 4 (ast.NewInstance 0 [ast.ValueStatement 2]) (∅, state_init)
     = (Ok (Share 0), (∅, st'))
  /\ exists fields',
       heap st' !! 0%nat = Some (ClassInstance class_Init fields')
       /\ forall k, is_Some ((<["y" := Some 1%nat]> ∅ : Closure) !! k) ->
                    is_Some (fields' !! k).
Proof.
  intros st'.
  destruct NewInstance_shares_its_member as (Hshare & Hkeep & Hinit & Hnone).
  assert (Execute 1 (ast.NewInstance 1 []) (∅, state_factory)
          = (Ok (Some 1%nat), (∅, state_factory))) as Hrun.
  { apply (Hnone 0%nat 1%nat [] ∅ state_factory class_C ∅); reflexivity. }
  assert (Execute 4 (ast.NewInstance 0 [ast.ValueStatement 2]) (∅, state_init)
          = (Ok (Share 0), (∅, st'))) as Hrun'.
  { apply (Hinit 3%nat 0%nat [ast.ValueStatement 2] ∅ state_init class_Init
             (<["y" := Some 1%nat]> ∅) [Some 2%nat] (∅, state_init) (Some 2%nat));
      [reflexivity|reflexivity|reflexivity|vm_compute; reflexivity]. }
  split; [exact Hrun|]. split; [exact (Hshare _ _ _ _ _ _ Hrun)|].
  split; [exact Hrun'|].
  exact (proj1 (Hkeep _ _ _ _ _ _ _ _ Hrun') 0%nat class_Init _ eq_refl).
Defined.

(** C2 as the spec words it fails on the factory program: the node [C()]
    is run twice, [a] and [b] hold the same instance, and the instance the
    second run returned already has the field [x] set through [a]. *)
Lemma NewInstance_twice_same_instance :
  exists closure st,
    Execute 8 program_factory (∅, state_factory) = (Ok None, (closure, st))
    /\ closure !! "a" = Some (Some 1%nat)
    /\ closure !! "b" = Some (Some 1%nat)
    /\ (exists fields, heap st !! 1%nat = Some (ClassInstance class_C fields)
                       /\ fields !! "x" = Some (Some 2%nat))
    /\ output st = ("7" ++ String.String parse.newline EmptyString)%string.
Proof.
  eexists _, _. split; [vm_compute; reflexivity|].
  split; [reflexivity|]. split; [reflexivity|].
  split; [|reflexivity].
  eexists. split; reflexivity.
Qed.

End EvalFacts.

(** * Further properties of the lexer *)

Module LexerMore.
Import parse LexerSpec LexerSpec2 LexerFacts.
Local Open Scope list_scope.

(** X1: operator== on tokens holds exactly of equal tokens (same
    alternative and, for Number, Id, String and Char, same payload), and
    operator!= is its negation. *)
Theorem Token_eq_spec lhs rhs :
  (Token_eq lhs rhs = true <-> lhs = rhs)
  /\ (Token_ne lhs rhs = true <-> lhs <> rhs).
Proof.
  assert (Token_eq lhs rhs = true <-> lhs = rhs) as H.
  { destruct lhs, rhs; cbn;
      try (split; (discriminate || reflexivity));
      [rewrite Z.eqb_eq | rewrite String.eqb_eq | rewrite Ascii.eqb_eq | rewrite String.eqb_eq];
      split; congruence. }
  split; [exact H|]. unfold Token_ne. rewrite negb_true_iff, <- H.
  destruct (Token_eq lhs rhs); split; congruence.
Qed.

Lemma append_inv_tail c : forall s1 s2 : string,
  (s1 ++ String.String c EmptyString)%string = (s2 ++ String.String c EmptyString)%string ->
  s1 = s2.
Proof.
  induction s1 as [|a s1 IH]; intros [|b s2] H; cbn in H.
  - reflexivity.
  - injection H as _ H. now destruct s2.
  - injection H as _ H. now destruct s1.
  - injection H as -> H. f_equal. auto.
Qed.

Lemma braced_inj type v1 v2 : braced type v1 = braced type v2 -> v1 = v2.
Proof.
  unfold braced. intros H. apply String.app_inj in H. injection H as H.
  now apply append_inv_tail in H.
Qed.

Ltac expose_output :=
  cbv [Token_output TryAs Number_ Id_ String_ Char_ braced String.append
       unvalued_output UNVALUED_OUTPUT Is marker index Nat.eqb].

(** X2: operator<< gives different tokens different texts, and the
    fallback text "Unknown token :(" is never produced. *)
Theorem Token_output_inj :
  (forall a b, Token_output a = Token_output b -> a = b)
  /\ (forall t, Token_output t <> "Unknown token :(").
Proof.
  split.
  - intros a b. destruct a, b; try reflexivity; intros H;
      try (apply braced_inj in H;
           first [apply (inj pretty) in H | injection H as H | idtac]; congruence);
      exfalso; revert H; expose_output; discriminate.
  - intros t. destruct t; expose_output; discriminate.
Qed.

Lemma Token_output_inj_witness :
  Token_output (token_type.Id "If") = "Id{If}"
  /\ Token_output token_type.If = "If"
  /\ token_type.Id "If" <> token_type.If.
Proof.
  split; [reflexivity|]. split; [reflexivity|].
  intros H. apply (f_equal Token_output) in H.
  pose proof (proj1 Token_output_inj _ _ H). discriminate.
Defined.

(** X3: Expect<T>() returns the payload exactly when the current token is
    a T, and Expect<T>(value) succeeds exactly when the current token is
    T{value}; otherwise both throw LexerError. *)
Theorem Expect_accepts :
  (forall lx v, Expect Number_ lx = Ok v <-> CurrentToken lx = token_type.Number v)
  /\ (forall lx v, Expect Id_ lx = Ok v <-> CurrentToken lx = token_type.Id v)
  /\ (forall lx v, Expect String_ lx = Ok v <-> CurrentToken lx = token_type.String v)
  /\ (forall lx v, Expect Char_ lx = Ok v <-> CurrentToken lx = token_type.Char v)
  /\ (forall lx t, index t <> 0%nat -> index t <> 1%nat -> index t <> 2%nat -> index t <> 3%nat ->
        (Expect (marker t) lx = Ok tt <-> CurrentToken lx = t))
  /\ (forall lx v,
        Expect_value Number_ (fun a b => negb (a =? b)) v lx = Ok tt
        <-> CurrentToken lx = token_type.Number v)
  /\ (forall lx v,
        Expect_value Id_ (fun a b => negb (String.eqb a b)) v lx = Ok tt
        <-> CurrentToken lx = token_type.Id v)
  /\ (forall lx v,
        Expect_value String_ (fun a b => negb (String.eqb a b)) v lx = Ok tt
        <-> CurrentToken lx = token_type.String v)
  /\ (forall lx v,
        Expect_value Char_ (fun a b => negb (Ascii.eqb a b)) v lx = Ok tt
        <-> CurrentToken lx = token_type.Char v)
  /\ (forall A (T : token_struct A) lx,
        (exists a, Expect T lx = Ok a)
        \/ Expect T lx = Throw (Build_LexerError "The token is not of the appropriate type"))
  /\ (forall A (T : token_struct A) ne value lx,
        Expect_value T ne value lx = Ok tt
        \/ Expect_value T ne value lx
           = Throw (Build_LexerError "The token is not of the appropriate type")
        \/ Expect_value T ne value lx
           = Throw (Build_LexerError "A token with an invalid value")).
Proof.
  unfold Expect_value, Expect, CurrentToken.
  repeat apply conj.
  1-9: intros lx v.
  1-4: destruct (current_token_ lx); cbn; split; congruence.
  - intros H0 H1 H2 H3.
    destruct (current_token_ lx), v; cbn in *; split; congruence.
  - destruct (current_token_ lx) as [x| | | | | | | | | | | | | | | | | | | | | | |];
      cbn; try (split; discriminate).
    destruct (Z.eqb_spec x v); cbn; split; congruence.
  - destruct (current_token_ lx) as [|x| | | | | | | | | | | | | | | | | | | | | |];
      cbn; try (split; discriminate).
    destruct (String.eqb_spec x v); cbn; split; congruence.
  - destruct (current_token_ lx) as [| | |x| | | | | | | | | | | | | | | | | | | |];
      cbn; try (split; discriminate).
    destruct (String.eqb_spec x v); cbn; split; congruence.
  - destruct (current_token_ lx) as [| |x| | | | | | | | | | | | | | | | | | | | |];
      cbn; try (split; discriminate).
    destruct (Ascii.eqb_spec x v); cbn; split; congruence.
  - intros A T lx. destruct (TryAs T (current_token_ lx)); eauto.
  - intros A T ne value lx. destruct (TryAs T (current_token_ lx)) as [a|]; cbn; auto.
    destruct (ne a value); auto.
Qed.

Lemma Expect_accepts_witness :
  Expect (marker token_type.Eof)
    {| current_token_ := token_type.Eof; tokens_ := [token_type.Eof];
       current_index_ := 1%nat; indent_size_ := 0 |} = Ok tt
  /\ Expect (marker token_type.Eof) Lexer_init <> Ok tt.
Proof.
  pose proof (proj1 (proj2 (proj2 (proj2 (proj2 Expect_accepts))))) as H.
  split.
  - apply H; [cbn; discriminate .. | reflexivity].
  - intros E. apply H in E; [discriminate E | cbn; discriminate ..].
Defined.

(** The lexer the constructor returns stands on the first token. *)
Lemma Lexer_ctor_cursor fuel input lx :
  Lexer_ctor fuel input = Ok lx ->
  current_index_ lx = 1%nat
  /\ tokens_ lx !! 0%nat = Some (current_token_ lx)
  /\ (exists body, tokens_ lx = body ++ [token_type.Eof]).
Proof.
  intros H. apply Lexer_ctor_inv in H
    as (lx1 & lx2 & n & _ & _ & -> & _ & Hinv & _ & _).
  unfold NextToken. cbn [LoadEof push_back tokens_ current_index_].
  rewrite (inv_cursor _ Hinv).
  destruct ((tokens_ lx2 ++ [token_type.Eof]) !! 0%nat) as [t|] eqn:H0.
  - cbn [snd tokens_ current_index_ current_token_]. eauto.
  - now destruct (tokens_ lx2).
Qed.

(** X4: the cursor walks the stream in order.  After the constructor and
    [n] calls of NextToken the current token is token number [n] of the
    stream while there is one, and the last token (Eof) from then on; the
    stream itself is never changed. *)
Theorem NextToken_enumerates fuel input lx n :
  Lexer_ctor fuel input = Ok lx ->
  let lx_n := Nat.iter n (fun l => snd (NextToken l)) lx in
  tokens_ lx_n = tokens_ lx
  /\ tokens_ lx !! Nat.min n (length (tokens_ lx) - 1) = Some (CurrentToken lx_n)
  /\ (length (tokens_ lx) - 1 <= n -> CurrentToken lx_n = token_type.Eof)%nat.
Proof.
  intros H. cbv zeta. unfold CurrentToken.
  destruct (Lexer_ctor_cursor _ _ _ H) as (Hidx & Hcur & body & Hbody).
  assert (length (tokens_ lx) = S (length body)) as Hlen
    by (rewrite Hbody, length_app; cbn; lia).
  assert (tokens_ (Nat.iter n (fun l => snd (NextToken l)) lx) = tokens_ lx
          /\ current_index_ (Nat.iter n (fun l => snd (NextToken l)) lx)
             = S (Nat.min n (length body))
          /\ tokens_ lx !! Nat.min n (length body)
             = Some (current_token_ (Nat.iter n (fun l => snd (NextToken l)) lx)))
    as (Ht & Hi & Hc).
  { induction n as [|n (IHt & IHi & IHc)]; [cbn; auto|].
    rewrite Nat.iter_succ. set (l := Nat.iter n _ lx) in *.
    unfold NextToken. rewrite IHt, IHi.
    destruct (tokens_ lx !! S (Nat.min n (length body))) as [t|] eqn:Hnext.
    - apply lookup_lt_Some in Hnext as Hlt. rewrite Hlen in Hlt.
      cbn [snd tokens_ current_index_ current_token_].
      replace (Nat.min (S n) (length body)) with (S (Nat.min n (length body))) by lia.
      auto.
    - apply lookup_ge_None in Hnext. rewrite Hlen in Hnext. cbn [snd].
      replace (Nat.min (S n) (length body)) with (Nat.min n (length body)) by lia.
      auto. }
  rewrite Hlen. replace (S (length body) - 1)%nat with (length body) by lia.
  split; [exact Ht|]. split; [exact Hc|].
  intros Hge. rewrite Nat.min_r in Hc by exact Hge.
  rewrite Hbody, list_lookup_middle in Hc by reflexivity. congruence.
Qed.

Lemma NextToken_enumerates_witness :
  exists lx, Lexer_ctor 8 src_assign = Ok lx
    /\ CurrentToken (Nat.iter 2 (fun l => snd (NextToken l)) lx) = token_type.Number 1
    /\ CurrentToken (Nat.iter 9 (fun l => snd (NextToken l)) lx) = token_type.Eof.
Proof.
  eexists. split; [vm_compute; reflexivity|].
  destruct (NextToken_enumerates 8 src_assign _ 2 eq_refl) as (_ & H2 & _).
  destruct (NextToken_enumerates 8 src_assign _ 9 eq_refl) as (_ & _ & H9).
  split; [|apply H9; vm_compute; lia].
  symmetry. apply (inj Some). exact H2.
Defined.

Lemma NextToken_stays_at_Eof lx :
  reachable lx -> current_token_ lx = token_type.Eof ->
  NextToken lx = (token_type.Eof, lx).
Proof.
  intros Hreach Hcur.
  destruct (reachable_cursor_inv _ Hreach) as (body & i & Ht & Hb & Hi & Hlook).
  unfold NextToken. rewrite Hcur in *.
  destruct (Nat.lt_ge_cases i (length body)) as [Hlt|Hge].
  - exfalso. rewrite Ht, lookup_app_l in Hlook by exact Hlt.
    rewrite Forall_forall in Hb. apply (Hb token_type.Eof); [|reflexivity].
    eapply list_elem_of_lookup_2. exact Hlook.
  - rewrite Hi, (lookup_ge_None_2 (tokens_ lx) (S i)); [reflexivity|].
    rewrite Ht, length_app. cbn. lia.
Qed.

(** X5: at the end of the stream ExpectNext<Eof>() succeeds and leaves the
    lexer as it is, while ExpectNext<T>() for a payload type T and
    ExpectNext<Newline>() throw LexerError, also without moving. *)
Theorem ExpectNext_at_Eof lx :
  reachable lx -> CurrentToken lx = token_type.Eof ->
  ExpectNext (marker token_type.Eof) lx = (Ok tt, lx)
  /\ ExpectNext Id_ lx
     = (Throw (Build_LexerError "The token is not of the appropriate type"), lx)
  /\ ExpectNext Number_ lx
     = (Throw (Build_LexerError "The token is not of the appropriate type"), lx)
  /\ ExpectNext (marker token_type.Newline) lx
     = (Throw (Build_LexerError "The token is not of the appropriate type"), lx).
Proof.
  intros Hreach Hcur. unfold ExpectNext, CurrentToken in *.
  rewrite (NextToken_stays_at_Eof _ Hreach Hcur). cbn [snd].
  unfold Expect. rewrite Hcur. repeat split.
Qed.

Lemma ExpectNext_at_Eof_witness :
  exists lx, Lexer_ctor 1 EmptyString = Ok lx
    /\ CurrentToken lx = token_type.Eof
    /\ ExpectNext (marker token_type.Eof) lx = (Ok tt, lx).
Proof.
  eexists. split; [vm_compute; reflexivity|]. split; [reflexivity|].
  apply ExpectNext_at_Eof; [|reflexivity].
  apply (reachable_ctor 1 EmptyString). reflexivity.
Defined.

Lemma StringIsEmpty_spaces n rest :
  StringIsEmpty (spaces n ++ rest)%string = StringIsEmpty rest.
Proof. induction n as [|n IH]; [reflexivity|exact IH]. Qed.

(** X6: StringIsEmpty holds exactly of the lines made of spaces only, or of
    spaces followed by a comment that starts with #. *)
Theorem StringIsEmpty_blank_line line :
  StringIsEmpty line = true <-> blank_line line.
Proof.
  unfold blank_line. split.
  - induction line as [|c line IH]; intros H.
    + exists 0%nat, EmptyString. auto.
    + cbn [StringIsEmpty] in H. destruct (Ascii.eqb_spec c " ") as [->|Hc]; cbn [negb] in H.
      * destruct (IH H) as (n & rest & -> & Hrest).
        exists (S n), rest. auto.
      * destruct (Ascii.eqb_spec c "#") as [->|]; [|discriminate].
        exists 0%nat, (String.String "#" line). eauto.
  - intros (n & rest & -> & Hrest). rewrite StringIsEmpty_spaces.
    destruct Hrest as [->|[comment ->]]; reflexivity.
Qed.

Lemma ParseLines_filter fuel lines : forall lx,
  ParseLines fuel lines lx
  = ParseLines fuel (List.filter (fun line => negb (StringIsEmpty line)) lines) lx.
Proof.
  induction lines as [|line lines IH]; intros lx; [reflexivity|].
  cbn [ParseLines List.filter]. destruct (negb (StringIsEmpty line)) eqn:Hl.
  - cbn [ParseLines]. rewrite Hl.
    destruct (ParseString fuel lx (stringstream line)) as [[lx1 i1]| | |]; cbn; auto.
  - apply IH.
Qed.

(** X7: blank and comment-only lines leave no trace: the line loop does to
    the lexer what it does on the remaining lines alone, and a source all
    of whose lines are blank lexes to the single token Eof, which is
    current. *)
Theorem blank_lines_are_skipped :
  (forall fuel lines lx,
     ParseLines fuel lines lx
     = ParseLines fuel (List.filter (fun line => negb (StringIsEmpty line)) lines) lx)
  /\ (forall fuel input,
        Forall blank_line (getlines input EmptyString) ->
        Lexer_ctor (S fuel) input
        = Ok {| current_token_ := token_type.Eof; tokens_ := [token_type.Eof];
                current_index_ := 1; indent_size_ := 0 |}).
Proof.
  split; [intros; apply ParseLines_filter|].
  intros fuel input Hblank. unfold Lexer_ctor, ParseTextOnTokens.
  rewrite ParseLines_filter.
  replace (List.filter _ (getlines input EmptyString)) with (@nil string); [reflexivity|].
  induction Hblank as [|line lines Hline _ IH]; [reflexivity|].
  cbn [List.filter]. apply StringIsEmpty_blank_line in Hline. now rewrite Hline.
Qed.

Lemma blank_lines_are_skipped_witness :
  Lexer_ctor 1 ("  # nothing here" ++ String.String newline (String.String newline "    "))%string
  = Ok {| current_token_ := token_type.Eof; tokens_ := [token_type.Eof];
          current_index_ := 1; indent_size_ := 0 |}.
Proof.
  apply (proj2 blank_lines_are_skipped 0%nat). vm_compute getlines.
  repeat constructor.
  - exists 2%nat, "# nothing here"%string. split; [reflexivity|]. right. eauto.
  - exists 0%nat, EmptyString. auto.
  - exists 4%nat, EmptyString. auto.
Defined.

Lemma prefix_balanced_snoc l t :
  prefix_balanced l ->
  (count Is_Dedent (l ++ [t]) <= count Is_Indent (l ++ [t]))%nat ->
  prefix_balanced (l ++ [t]).
Proof.
  intros Hl Hall k. destruct (Nat.le_gt_cases k (length l)) as [Hle|Hgt].
  - rewrite take_app_le by exact Hle. apply Hl.
  - rewrite take_ge by (rewrite length_app; cbn; lia). exact Hall.
Qed.

Lemma lexing_inv_balance lx :
  lexing_inv lx -> (count Is_Dedent (tokens_ lx) <= count Is_Indent (tokens_ lx))%nat.
Proof. intros [Hr Hb _ _ _]. lia. Qed.

Lemma emit_prefix_balanced lx lx' :
  emit lx lx' -> lexing_inv lx -> prefix_balanced (tokens_ lx) ->
  prefix_balanced (tokens_ lx').
Proof.
  intros Hstep Hinv Hp.
  pose proof (lexing_inv_balance _ (emit_inv _ _ Hstep Hinv)) as Hb.
  destruct Hstep; cbn [push_back set_indent_size tokens_] in *;
    now apply prefix_balanced_snoc.
Qed.

Lemma emits_prefix_balanced lx lx' :
  emits lx lx' -> lexing_inv lx -> prefix_balanced (tokens_ lx) ->
  prefix_balanced (tokens_ lx').
Proof.
  induction 1 as [|lx lx1 lx' Hstep _ IH]; [auto|].
  intros Hinv Hp. apply IH; eauto using emit_inv, emit_prefix_balanced.
Qed.

Lemma push_plain_prefix_balanced t lx :
  Is_Indent t = false -> Is_Dedent t = false ->
  prefix_balanced (tokens_ lx) -> prefix_balanced (tokens_ (push_back t lx)).
Proof.
  intros Hi Hd Hp. cbn [push_back tokens_]. apply prefix_balanced_snoc; [exact Hp|].
  rewrite !count_snoc, Hi, Hd, !Nat.add_0_r.
  specialize (Hp (length (tokens_ lx))). now rewrite firstn_all in Hp.
Qed.

Lemma LoadEndl_prefix_balanced lx :
  prefix_balanced (tokens_ lx) -> prefix_balanced (tokens_ (LoadEndl lx)).
Proof.
  intros Hp. unfold LoadEndl.
  destruct (last (tokens_ lx)) as [t|]; [|exact Hp].
  destruct t; try exact Hp; now apply push_plain_prefix_balanced.
Qed.

Lemma ParseLines_prefix_balanced fuel lines : forall lx lx',
  lexing_inv lx -> prefix_balanced (tokens_ lx) ->
  ParseLines fuel lines lx = Ok lx' ->
  lexing_inv lx' /\ prefix_balanced (tokens_ lx').
Proof.
  induction lines as [|line lines IH]; intros lx lx' Hinv Hp H.
  - injection H as <-. now split.
  - cbn [ParseLines] in H. destruct (negb (StringIsEmpty line)); [|eauto].
    bind_ok H. destruct a as [lx1 input1].
    apply ParseString_emits in E; [|exact Hinv].
    apply (IH (LoadEndl lx1)); [| |exact H].
    + apply LoadEndl_inv. eauto using emits_inv.
    + apply LoadEndl_prefix_balanced. eauto using emits_prefix_balanced.
Qed.

(** X8: in every prefix of the token stream there are at least as many
    Indent as Dedent tokens: no block is closed before it is opened. *)
Theorem Dedent_never_ahead fuel input lx :
  Lexer_ctor fuel input = Ok lx ->
  forall k, (count Is_Dedent (take k (tokens_ lx)) <= count Is_Indent (take k (tokens_ lx)))%nat.
Proof.
  intros H. pose proof H as H'. apply Lexer_ctor_inv in H'
    as (lx1 & lx2 & n & Hlines & Hded & -> & _ & _ & _ & _).
  rewrite tokens_NextToken.
  destruct Lexer_init_inv as [Hinv0 _].
  assert (prefix_balanced (tokens_ Lexer_init)) as Hp0 by (intros [|k]; cbn; lia).
  destruct (ParseLines_prefix_balanced _ _ _ _ Hinv0 Hp0 Hlines) as [Hinv1 Hp1].
  destruct (LoadDedent_emits _ _ _ _ (Z.le_refl 0) Hinv1 Hded) as (Hem & _ & _).
  apply (push_plain_prefix_balanced token_type.Eof lx2); [reflexivity|reflexivity|].
  eauto using emits_prefix_balanced.
Qed.

Lemma Dedent_never_ahead_witness :
  exists lx, Lexer_ctor 12 src_nested = Ok lx
    /\ (count Is_Dedent (take 9 (tokens_ lx)) <= count Is_Indent (take 9 (tokens_ lx)))%nat.
Proof.
  eexists. split; [vm_compute; reflexivity|].
  apply (Dedent_never_ahead 12 src_nested). vm_compute. reflexivity.
Defined.

Lemma pushes_refl P lx : pushes P lx lx.
Proof. exists []. split; [now rewrite app_nil_r|constructor]. Qed.

Lemma pushes_trans P lx1 lx2 lx3 : pushes P lx1 lx2 -> pushes P lx2 lx3 -> pushes P lx1 lx3.
Proof.
  intros (n1 & H1 & F1) (n2 & H2 & F2). exists (n1 ++ n2).
  split; [now rewrite H2, H1, app_assoc|now apply Forall_app].
Qed.

Lemma pushes_one (P : Token -> Prop) t lx : P t -> pushes P lx (push_back t lx).
Proof. intros Ht. exists [t]. split; [reflexivity|now constructor]. Qed.

Lemma stoi_digits_nonneg s : forall acc, 0 <= acc -> 0 <= stoi_digits s acc.
Proof.
  induction s as [|c s IH]; intros acc Hacc; [exact Hacc|].
  cbn [stoi_digits]. destruct (isdigit c) eqn:Hd; [|exact Hacc].
  apply IH. unfold isdigit, in_range in Hd. apply andb_true_iff in Hd as [Hlo _].
  apply Nat.leb_le in Hlo. change (nat_of_ascii "0") with 48%nat in Hlo.
  unfold digit_value. lia.
Qed.

Lemma stoi_range s v : stoi s = Ok v -> 0 <= v <= INT_MAX.
Proof.
  unfold stoi. destruct s as [|c s]; [discriminate|].
  destruct (isdigit c); [|discriminate].
  destruct (Z.leb_spec (stoi_digits (String.String c s) 0) INT_MAX); [|discriminate].
  intros [= <-]. split; [|assumption].
  apply (stoi_digits_nonneg (String.String c s) 0). lia.
Qed.

Lemma special_operators_token_ok sign t :
  special_operators_token_ sign = Some t -> token_ok t.
Proof.
  unfold special_operators_token_.
  repeat (destruct (String.eqb sign _); [intros [= <-]; exact I|]).
  discriminate.
Qed.

Lemma key_words_token_ok word t : key_words_token_ word = Some t -> token_ok t.
Proof.
  unfold key_words_token_.
  repeat (destruct (String.eqb word _); [intros [= <-]; exact I|]).
  discriminate.
Qed.

Lemma LoadNumber_pushes fuel lx input lx' input' :
  LoadNumber fuel lx input = Ok (lx', input') -> pushes token_ok lx lx'.
Proof.
  unfold LoadNumber. intros H.
  bind_ok H. destruct a as [number input1]. bind_ok H.
  injection H as <- _. apply pushes_one. cbn. eauto using stoi_range.
Qed.

Lemma LoadString_pushes fuel lx input lx' input' :
  LoadString fuel lx input = Ok (lx', input') -> pushes token_ok lx lx'.
Proof.
  unfold LoadString. destruct (get input) as [p input1]. intros H.
  bind_ok H. destruct a as [dest input2].
  injection H as <- _. now apply pushes_one.
Qed.

Lemma LoadWord_pushes fuel lx input lx' input' :
  LoadWord fuel lx input = Ok (lx', input') -> pushes token_ok lx lx'.
Proof.
  unfold LoadWord. intros H.
  bind_ok H. destruct a as [word input1].
  destruct (key_words_token_ word) as [t|] eqn:Hkw; injection H as <- _;
    apply pushes_one; [eauto using key_words_token_ok|exact Hkw].
Qed.

(** peek() that saw a punctuation character left the stream as it was, and
    get() then extracts that character. *)
Lemma peek_IsChar input p input' :
  peek input = (p, input') -> IsChar (char_of_int p) = true ->
  exists c rest,
    p = Some c /\ input' = input /\ peek input = (Some c, input)
    /\ get input = (Some c, {| buf := rest; eofbit := false; failbit := false |}).
Proof.
  unfold peek, get. destruct (good input).
  - destruct (buf input) as [|c rest].
    + intros [= <- _]. discriminate.
    + intros [= <- <-] _. exists c, rest. auto.
  - intros [= <- _]. discriminate.
Qed.

Lemma LoadSign_pushes lx input lx' input' c input1 :
  get input = (Some c, input1) -> IsChar c = true ->
  LoadSign lx input = Ok (lx', input') -> pushes token_ok lx lx'.
Proof.
  unfold LoadSign. intros -> Hc. change (char_of_int (Some c)) with c.
  destruct (peek input1) as [q input2].
  destruct (peek_is q "=").
  - destruct (get input2) as [r input3].
    destruct (special_operators_token_ _) as [t|] eqn:Hop; [|discriminate].
    intros [= <- _]. apply pushes_one. eauto using special_operators_token_ok.
  - intros [= <- _]. apply pushes_one. exact Hc.
Qed.

Lemma LoadTokens_body_pushes fuel lx input brk lx' input' :
  LoadTokens_body fuel lx input = Ok (brk, lx', input') -> pushes token_ok lx lx'.
Proof.
  unfold LoadTokens_body.
  destruct (peek input) as [p0 i0].
  destruct (peek (if peek_is p0 " " then ignore i0 else i0)) as [p1 i1].
  destruct (peek_is p1 "#"); [intros [= _ <- _]; apply pushes_refl|].
  destruct (peek i1) as [p2 i2].
  intros H. bind_ok H. destruct a as [lx1 i3].
  assert (pushes token_ok lx lx1) as H1.
  { destruct (peek_sat isdigit p2); [eauto using LoadNumber_pushes|].
    injection E as <- _. apply pushes_refl. }
  clear E. destruct (peek i3) as [p4 i4].
  destruct (if peek_is p4 dquote then (true, i4)
            else let '(q, input) := peek i4 in (peek_is q "'", input)) as [quote i5].
  bind_ok H. destruct a as [lx2 i6].
  assert (pushes token_ok lx1 lx2) as H2.
  { destruct quote; [eauto using LoadString_pushes|].
    injection E as <- _. apply pushes_refl. }
  clear E. destruct (peek i6) as [p7 i7].
  destruct (if peek_is p7 "_" then (true, i7)
            else let '(q, input) := peek i7 in (peek_sat isalpha q, input)) as [letter i8].
  bind_ok H. destruct a as [lx3 i9].
  assert (pushes token_ok lx2 lx3) as H3.
  { destruct letter; [eauto using LoadWord_pushes|].
    injection E as <- _. apply pushes_refl. }
  clear E. destruct (peek i9) as [p10 i10] eqn:Hpeek.
  assert (pushes token_ok lx lx3) as H03 by eauto using pushes_trans.
  destruct (IsChar (char_of_int p10)) eqn:Hchar.
  - destruct (peek_IsChar _ _ _ Hpeek Hchar) as (c & rest & -> & -> & Hpeek' & Hget).
    rewrite Hpeek' in H. change (char_of_int (Some c)) with c in H, Hchar.
    destruct (special_operators_ c).
    + bind_ok H. destruct a as [lx4 i12]. injection H as _ <- _.
      eauto using pushes_trans, LoadSign_pushes.
    + rewrite Hget in H. injection H as _ <- _.
      eapply pushes_trans; [exact H03|]. now apply pushes_one.
  - injection H as _ <- _. exact H03.
Qed.

Lemma LoadTokens_loop_pushes fuel k : forall lx input lx' input',
  LoadTokens_loop fuel k lx input = Ok (lx', input') -> pushes token_ok lx lx'.
Proof.
  induction k as [|k IH]; intros lx input lx' input' H; [discriminate|].
  cbn [LoadTokens_loop] in H.
  destruct (eofbit input); [injection H as <- _; apply pushes_refl|].
  bind_ok H. destruct a as [[brk lx1] input1].
  apply LoadTokens_body_pushes in E.
  destruct brk.
  - injection H as <- _. exact E.
  - eauto using pushes_trans.
Qed.

Lemma LoadDedent_pushes fuel current_indent : forall lx lx',
  LoadDedent fuel current_indent lx = Ok lx' -> pushes token_ok lx lx'.
Proof.
  induction fuel as [|fuel IH]; intros lx lx' H; [discriminate|].
  cbn [LoadDedent] in H. destruct (indent_size_ lx >? current_indent).
  - apply IH in H. eapply pushes_trans; [|exact H].
    exists [token_type.Dedent]. split; [reflexivity|now repeat constructor].
  - injection H as <-. apply pushes_refl.
Qed.

Lemma LoadIndent_pushes fuel current_indent : forall lx lx',
  LoadIndent fuel current_indent lx = Ok lx' -> pushes token_ok lx lx'.
Proof.
  induction fuel as [|fuel IH]; intros lx lx' H; [discriminate|].
  cbn [LoadIndent] in H. destruct (indent_size_ lx <? current_indent).
  - apply IH in H. eapply pushes_trans; [|exact H].
    exists [token_type.Indent]. split; [reflexivity|now repeat constructor].
  - injection H as <-. apply pushes_refl.
Qed.

Lemma ParseString_pushes fuel lx input lx' input' :
  ParseString fuel lx input = Ok (lx', input') -> pushes token_ok lx lx'.
Proof.
  unfold ParseString, LoadTokens, LoadTab. intros H.
  bind_ok H. destruct a as [lx1 input1].
  eapply pushes_trans; [|eauto using LoadTokens_loop_pushes].
  destruct (peek input) as [p i1]. destruct (peek_is p " ").
  - bind_ok E. destruct a as [i i2]. bind_ok E. injection E as <- _.
    destruct (i >? indent_size_ lx); eauto using LoadIndent_pushes, LoadDedent_pushes.
  - bind_ok E. injection E as <- _. eauto using LoadDedent_pushes.
Qed.

Lemma LoadEndl_pushes lx : pushes token_ok lx (LoadEndl lx).
Proof.
  unfold LoadEndl. destruct (last (tokens_ lx)) as [t|]; [|apply pushes_refl].
  destruct t; try apply pushes_refl; now apply pushes_one.
Qed.

Lemma ParseLines_pushes fuel lines : forall lx lx',
  ParseLines fuel lines lx = Ok lx' -> pushes token_ok lx lx'.
Proof.
  induction lines as [|line lines IH]; intros lx lx' H.
  - injection H as <-. apply pushes_refl.
  - cbn [ParseLines] in H. destruct (negb (StringIsEmpty line)); [|eauto].
    bind_ok H. destruct a as [lx1 input1].
    eauto using pushes_trans, ParseString_pushes, LoadEndl_pushes.
Qed.

(** X9: what the tokens of a stream carry.  A Number token holds a value
    between 0 and INT_MAX (the lexer reads no sign), an Id token never holds
    a reserved word, and a Char token holds a character of the punctuation
    set IsChar accepts; this holds of every token the cursor can stand on. *)
Theorem tokens_well_formed lx :
  reachable lx ->
  Forall token_ok (tokens_ lx) /\ token_ok (CurrentToken lx).
Proof.
  intros Hreach.
  assert (Forall token_ok (tokens_ lx)) as Hall.
  { induction Hreach as [fuel input lx H | lx _ IH]; [|now rewrite tokens_NextToken].
    unfold Lexer_ctor, ParseTextOnTokens in H.
    bind_ok H. rename a into lx1. bind_ok H. rename a into lx2. injection H as <-.
    rewrite tokens_NextToken. cbn [LoadEof push_back tokens_].
    destruct (pushes_trans _ _ _ _ (ParseLines_pushes _ _ _ _ E) (LoadDedent_pushes _ _ _ _ E0))
      as (new & -> & Hnew).
    cbn [Lexer_init tokens_ app]. apply Forall_app. split; [exact Hnew|].
    now repeat constructor. }
  split; [exact Hall|].
  destruct (reachable_cursor_inv _ Hreach) as (body & i & _ & _ & _ & Hlook).
  rewrite Forall_forall in Hall. apply Hall.
  eapply list_elem_of_lookup_2. exact Hlook.
Qed.

Lemma tokens_well_formed_witness :
  exists lx, Lexer_ctor 12 src_compare = Ok lx
    /\ tokens_ lx = [token_type.If; token_type.Id "x"; token_type.LessOrEq;
                     token_type.Number 10; token_type.Char ":"; token_type.Print;
                     token_type.Char "-"; token_type.Id "y"; token_type.Newline;
                     token_type.Eof]
    /\ Forall token_ok (tokens_ lx).
Proof.
  eexists. split; [vm_compute; reflexivity|]. split; [reflexivity|].
  apply tokens_well_formed. apply (reachable_ctor 12 src_compare). vm_compute. reflexivity.
Defined.

Lemma ignore_cons c rest :
  ignore {| buf := String.String c rest; eofbit := false; failbit := false |}
  = {| buf := rest; eofbit := false; failbit := false |}.
Proof. reflexivity. Qed.

Lemma peek_cons c rest :
  peek {| buf := String.String c rest; eofbit := false; failbit := false |}
  = (Some c, {| buf := String.String c rest; eofbit := false; failbit := false |}).
Proof. reflexivity. Qed.

Lemma peek_nil :
  peek {| buf := EmptyString; eofbit := false; failbit := false |}
  = (None, {| buf := EmptyString; eofbit := true; failbit := false |}).
Proof. reflexivity. Qed.

(** The do-while of LoadTab drops all the leading spaces and counts them. *)
Lemma LoadTab_loop_counts fuel : forall k i rest i' input',
  starts_with_space rest = false ->
  LoadTab_loop fuel i
    {| buf := String.String " " (spaces k ++ rest); eofbit := false; failbit := false |}
  = Ok (i', input') ->
  i' = wrap_size_t (i + Z.of_nat (S k)) /\ buf input' = rest.
Proof.
  induction fuel as [|fuel IH]; intros k i rest i' input' Hrest H; [discriminate|].
  cbn [LoadTab_loop] in H. rewrite ignore_cons in H.
  destruct k as [|k].
  - change (spaces 0 ++ rest)%string with rest in H.
    destruct rest as [|c rest].
    + rewrite peek_nil in H. injection H as <- <-. split; [f_equal; lia|reflexivity].
    + rewrite peek_cons in H. unfold peek_is in H. cbn [starts_with_space] in Hrest.
      rewrite Hrest in H. injection H as <- <-. split; [f_equal; lia|reflexivity].
  - change (spaces (S k) ++ rest)%string with (String.String " " (spaces k ++ rest)) in H.
    rewrite peek_cons in H. change (peek_is (Some " "%char) " ") with true in H.
    apply IH in H as [-> ->]; [|exact Hrest].
    split; [|reflexivity].
    unfold wrap_size_t. rewrite Zplus_mod_idemp_l. f_equal. lia.
Qed.

Lemma LoadIndent_result fuel current_indent : forall lx lx',
  0 <= current_indent < size_t_modulus ->
  lexing_inv lx ->
  LoadIndent fuel current_indent lx = Ok lx' ->
  indent_size_ lx'
  = (if indent_size_ lx <? current_indent then current_indent + current_indent mod 2
     else indent_size_ lx)
  /\ exists n, 2 * Z.of_nat n = indent_size_ lx' - indent_size_ lx
               /\ tokens_ lx' = tokens_ lx ++ replicate n token_type.Indent.
Proof.
  induction fuel as [|fuel IH]; intros lx lx' Hc Hinv H; [discriminate|].
  cbn [LoadIndent] in H.
  destruct (Z.ltb_spec (indent_size_ lx) current_indent) as [Hlt|Hge].
  - pose proof (inv_balance _ Hinv) as Hb. pose proof (inv_range _ Hinv) as Hr.
    destruct (Z.lt_ge_cases (indent_size_ lx + 2) size_t_modulus) as [Hfit|Hwrap].
    + rewrite wrap_size_t_small in H by lia.
      assert (emit lx (push_back token_type.Indent
                         (set_indent_size (indent_size_ lx + 2) lx))) as Hstep
        by (constructor; lia).
      apply IH in H as (Hs & n & Hn & Ht); [|exact Hc|eauto using emit_inv].
      cbn [push_back set_indent_size indent_size_ tokens_] in Hs, Hn, Ht.
      split.
      * rewrite Hs. pose proof (Z.mod_pos_bound current_indent 2 ltac:(lia)).
        pose proof (Z.div_mod current_indent 2 ltac:(lia)).
        destruct (Z.ltb_spec (indent_size_ lx + 2) current_indent); lia.
      * exists (S n). split; [lia|]. rewrite Ht, <- app_assoc. reflexivity.
    + exfalso.
      assert (current_indent = size_t_modulus - 1) as -> by lia.
      revert H. apply LoadIndent_max; cbn [push_back set_indent_size indent_size_].
      * replace (indent_size_ lx + 2) with size_t_modulus by lia.
        exists 0. reflexivity.
      * unfold wrap_size_t. apply Z.mod_pos_bound. reflexivity.
  - injection H as <-. split; [reflexivity|].
    exists 0%nat. split; [lia|]. cbn. now rewrite app_nil_r.
Qed.

Lemma LoadDedent_result fuel current_indent : forall lx lx',
  0 <= current_indent ->
  lexing_inv lx ->
  LoadDedent fuel current_indent lx = Ok lx' ->
  indent_size_ lx'
  = (if indent_size_ lx >? current_indent then current_indent - current_indent mod 2
     else indent_size_ lx)
  /\ exists n, 2 * Z.of_nat n = indent_size_ lx - indent_size_ lx'
               /\ tokens_ lx' = tokens_ lx ++ replicate n token_type.Dedent.
Proof.
  induction fuel as [|fuel IH]; intros lx lx' Hc Hinv H; [discriminate|].
  cbn [LoadDedent] in H.
  destruct (Z.gtb_spec (indent_size_ lx) current_indent) as [Hgt|Hle].
  - pose proof (inv_balance _ Hinv) as Hb. pose proof (inv_range _ Hinv) as Hr.
    rewrite wrap_size_t_small in H by lia.
    assert (emit lx (push_back token_type.Dedent
                       (set_indent_size (indent_size_ lx - 2) lx))) as Hstep
      by (constructor; lia).
    apply IH in H as (Hs & n & Hn & Ht); [|exact Hc|eauto using emit_inv].
    cbn [push_back set_indent_size indent_size_ tokens_] in Hs, Hn, Ht.
    split.
    + rewrite Hs. pose proof (Z.mod_pos_bound current_indent 2 ltac:(lia)).
      pose proof (Z.div_mod current_indent 2 ltac:(lia)).
      destruct (Z.gtb_spec (indent_size_ lx - 2) current_indent); lia.
    + exists (S n). split; [lia|]. rewrite Ht, <- app_assoc. reflexivity.
  - injection H as <-. split; [reflexivity|].
    exists 0%nat. split; [lia|]. cbn. now rewrite app_nil_r.
Qed.

(** X10: indentation is counted in steps of two spaces.  On a line with
    [k] leading spaces LoadTab drops exactly these spaces, moves
    indent_size_ to [k] rounded to an even number (upwards when the line is
    deeper than before, downwards otherwise), and pushes one Indent
    (respectively Dedent) for every two spaces of the change and no other
    token. *)
Theorem LoadTab_quantizes fuel lx k rest lx' input' :
  lexing_inv lx ->
  Z.of_nat k < size_t_modulus ->
  starts_with_space rest = false ->
  LoadTab fuel lx (stringstream (spaces k ++ rest)) = Ok (lx', input') ->
  buf input' = rest
  /\ indent_size_ lx' = quantized_indent (indent_size_ lx) (Z.of_nat k)
  /\ exists n,
       2 * Z.of_nat n = Z.abs (indent_size_ lx' - indent_size_ lx)
       /\ tokens_ lx'
          = tokens_ lx ++ replicate n (if indent_size_ lx <? Z.of_nat k
                                       then token_type.Indent else token_type.Dedent).
Proof.
  intros Hinv Hk Hrest H. unfold LoadTab, quantized_indent in *.
  pose proof (inv_range _ Hinv) as Hr. pose proof (inv_balance _ Hinv) as Hb.
  unfold stringstream in H. destruct k as [|k].
  - change (spaces 0 ++ rest)%string with rest in H.
    assert (LoadDedent fuel 0 lx = Ok lx' /\ buf input' = rest) as [Hd Hbuf].
    { destruct rest as [|c rest].
      - rewrite peek_nil in H. change (peek_is None " ") with false in H.
        cbv iota in H. bind_ok H. injection H as <- <-. auto.
      - rewrite peek_cons in H. unfold peek_is in H. cbn [starts_with_space] in Hrest.
        rewrite Hrest in H. cbv iota in H. bind_ok H. injection H as <- <-. auto. }
    split; [exact Hbuf|].
    apply LoadDedent_result in Hd as (Hs & n & Hn & Ht); [|lia|exact Hinv].
    change (Z.of_nat 0) with 0 in *. change (0 mod 2) with 0 in *.
    destruct (Z.ltb_spec (indent_size_ lx) 0) as [|_]; [lia|].
    split.
    + rewrite Hs. destruct (Z.gtb_spec (indent_size_ lx) 0); lia.
    + exists n. split; [lia|exact Ht].
  - change (spaces (S k) ++ rest)%string with (String.String " " (spaces k ++ rest)) in H.
    rewrite peek_cons in H. change (peek_is (Some " "%char) " ") with true in H.
    cbv iota in H.
    bind_ok H. destruct a as [i input2].
    apply LoadTab_loop_counts in E as [-> Hbuf]; [|exact Hrest].
    rewrite Z.add_0_l, wrap_size_t_small in H by lia.
    bind_ok H. injection H as <- <-. split; [exact Hbuf|].
    destruct (Z.gtb_spec (Z.of_nat (S k)) (indent_size_ lx)) as [Hgt|Hle].
    + apply LoadIndent_result in E as (Hs & n & Hn & Ht); [|lia|exact Hinv].
      destruct (Z.ltb_spec (indent_size_ lx) (Z.of_nat (S k))) as [_|]; [|lia].
      split; [exact Hs|]. exists n. split; [lia|exact Ht].
    + apply LoadDedent_result in E as (Hs & n & Hn & Ht); [|lia|exact Hinv].
      destruct (Z.ltb_spec (indent_size_ lx) (Z.of_nat (S k))) as [|_]; [lia|].
      split.
      * rewrite Hs. pose proof (Z.mod_pos_bound (Z.of_nat (S k)) 2 ltac:(lia)).
        pose proof (Z.div_mod (Z.of_nat (S k)) 2 ltac:(lia)).
        destruct (Z.gtb_spec (indent_size_ lx) (Z.of_nat (S k))); lia.
      * exists n. split; [lia|exact Ht].
Qed.

Lemma LoadTab_quantizes_witness :
  exists lx' input',
    LoadTab 5 Lexer_init (stringstream (spaces 3 ++ "x")) = Ok (lx', input')
    /\ buf input' = "x"
    /\ indent_size_ lx' = 4
    /\ tokens_ lx' = [token_type.Indent; token_type.Indent].
Proof.
  eexists _, _. split; [vm_compute; reflexivity|].
  destruct (LoadTab_quantizes 5 Lexer_init 3 "x" _ _ (proj1 Lexer_init_inv)
              ltac:(reflexivity) eq_refl eq_refl) as (Hbuf & Hs & _).
  split; [exact Hbuf|]. split; [exact Hs|reflexivity].
Defined.

Lemma get_cons c rest :
  get {| buf := String.String c rest; eofbit := false; failbit := false |}
  = (Some c, {| buf := rest; eofbit := false; failbit := false |}).
Proof. reflexivity. Qed.

Lemma append_snoc (res : string) c s :
  ((res ++ String.String c EmptyString) ++ s = res ++ String.String c s)%string.
Proof.
  induction res as [|a res IH]; [reflexivity|].
  change (String.String a ((res ++ String.String c EmptyString) ++ s)
          = String.String a (res ++ String.String c s))%string.
  now rewrite IH.
Qed.

Lemma append_nil_r (s : string) : (s ++ EmptyString)%string = s.
Proof.
  induction s as [|c s IH]; [reflexivity|].
  change (String.String c (s ++ EmptyString) = String.String c s)%string. now rewrite IH.
Qed.

(** ReadString's loop on a text up to its closing quote. *)
Lemma ReadString_loop_closed q s : forall fuel res c0 rest,
  plain_text q s = true ->
  (String.length s < fuel)%nat ->
  ReadString_loop fuel (fun c => negb (Ascii.eqb c q))
    {| buf := (s ++ String.String q rest)%string; eofbit := false; failbit := false |} res c0
  = Ok ({| buf := rest; eofbit := false; failbit := false |}, (res ++ s)%string, Some q).
Proof.
  induction s as [|c s IH]; intros [|fuel] res c0 rest Hplain Hfuel; cbn in Hfuel; try lia.
  - cbn [ReadString_loop eofbit]. change (EmptyString ++ String.String q rest)%string
      with (String.String q rest). rewrite get_cons, Ascii.eqb_refl. cbn [negb].
    now rewrite append_nil_r.
  - cbn [plain_text] in Hplain. apply andb_true_iff in Hplain as [Hc Hplain].
    apply andb_true_iff in Hc as [Hq Hb]. apply negb_true_iff in Hb.
    cbn [ReadString_loop eofbit].
    change (String.String c s ++ String.String q rest)%string
      with (String.String c (s ++ String.String q rest)).
    rewrite get_cons, Hq, Hb. cbn [negb].
    rewrite IH by (assumption || lia). now rewrite append_snoc.
Qed.

(** ReadString's loop on a text that ends without a closing quote. *)
Lemma ReadString_loop_open q s : forall fuel res c0,
  plain_text q s = true ->
  (S (String.length s) < fuel)%nat ->
  ReadString_loop fuel (fun c => negb (Ascii.eqb c q))
    {| buf := s; eofbit := false; failbit := false |} res c0
  = Ok ({| buf := EmptyString; eofbit := true; failbit := true |}, (res ++ s)%string,
        match s with
        | EmptyString => c0
        | _ => Some (char_of_int (String.get (String.length s - 1) s))
        end).
Proof.
  induction s as [|c s IH]; intros [|fuel] res c0 Hplain Hfuel; cbn in Hfuel; try lia.
  - destruct fuel as [|fuel]; [lia|]. cbn. now rewrite append_nil_r.
  - cbn [plain_text] in Hplain. apply andb_true_iff in Hplain as [Hc Hplain].
    apply andb_true_iff in Hc as [Hq Hb]. apply negb_true_iff in Hb.
    cbn [ReadString_loop eofbit]. rewrite get_cons, Hq, Hb. cbn [negb].
    rewrite IH by (assumption || lia). rewrite append_snoc. do 2 f_equal.
    destruct s as [|c' s']; [reflexivity|].
    cbn [String.length].
    replace (S (S (String.length s')) - 1)%nat with (S (String.length s')) by lia.
    replace (S (String.length s') - 1)%nat with (String.length s') by lia.
    reflexivity.
Qed.

Lemma plain_text_last q s c s' :
  plain_text q s = true -> s = String.String c s' ->
  negb (Ascii.eqb (char_of_int (String.get (String.length s - 1) s)) q) = true.
Proof.
  intros Hplain ->. revert c Hplain. induction s' as [|c' s' IH]; intros c Hplain.
  - cbn in *. now apply andb_true_iff in Hplain as [Hq%andb_true_iff _].
  - cbn [plain_text] in Hplain. apply andb_true_iff in Hplain as [_ Hplain].
    specialize (IH c' Hplain). cbn [String.length] in *.
    replace (S (S (String.length s')) - 1)%nat with (S (String.length s')) by lia.
    replace (S (String.length s') - 1)%nat with (String.length s') in IH by lia.
    exact IH.
Qed.

(** X11: a string literal without escapes.  After the opening quote [q],
    LoadString pushes one String token with exactly the characters up to the
    matching quote and leaves the stream right after that quote; when the
    line ends before a matching quote it pushes the characters read so far
    and raises no error; and when the opening quote is the last character of
    the line, ReadString tests a char that was never written (undefined). *)
Theorem LoadString_plain fuel lx q s :
  is_quote q = true ->
  plain_text q s = true ->
  (S (S (String.length s)) < fuel)%nat ->
  (forall rest,
     LoadString fuel lx (stringstream (String.String q (s ++ String.String q rest)))
     = Ok (push_back (token_type.String s) lx,
           {| buf := rest; eofbit := false; failbit := false |}))
  /\ (s <> EmptyString ->
      LoadString fuel lx (stringstream (String.String q s))
      = Ok (push_back (token_type.String s) lx,
            {| buf := EmptyString; eofbit := true; failbit := true |}))
  /\ LoadString fuel lx (stringstream (String.String q EmptyString)) = Undefined.
Proof.
  intros Hq Hplain Hfuel. unfold LoadString, stringstream.
  rewrite !get_cons. cbv beta iota zeta. change (char_of_int (Some q)) with q.
  repeat apply conj.
  - intros rest. rewrite get_cons. cbv beta iota zeta. change (char_of_int (Some q)) with q.
    unfold ReadString.
    rewrite (ReadString_loop_closed q s) by (assumption || lia).
    cbn [mbind result_bind]. rewrite Ascii.eqb_refl. cbn [negb andb].
    unfold is_quote in Hq. apply orb_true_iff in Hq as [Hq|Hq]; rewrite Hq;
      cbn [negb andb]; rewrite ?andb_false_r; reflexivity.
  - intros Hne. unfold ReadString.
    rewrite (ReadString_loop_open q s) by (assumption || lia).
    cbn [mbind result_bind]. destruct s as [|c s'] eqn:Hs; [congruence|].
    rewrite (plain_text_last q _ c s' Hplain eq_refl). reflexivity.
  - unfold ReadString.
    rewrite (ReadString_loop_open q EmptyString) by (reflexivity || (cbn; lia)).
    reflexivity.
Qed.

Lemma LoadString_plain_witness :
  LoadString 9 Lexer_init (stringstream "'it is' + x")
  = Ok (push_back (token_type.String "it is") Lexer_init,
        {| buf := " + x"; eofbit := false; failbit := false |})
  /\ LoadString 9 Lexer_init (stringstream "'it is")
     = Ok (push_back (token_type.String "it is") Lexer_init,
           {| buf := EmptyString; eofbit := true; failbit := true |}).
Proof.
  destruct (LoadString_plain 9 Lexer_init "'" "it is" eq_refl eq_refl ltac:(cbn; lia))
    as (Hclosed & Hopen & _).
  split; [exact (Hclosed " + x"%string)|]. apply Hopen. discriminate.
Defined.

End LexerMore.

(** * Further properties of the evaluator *)

Module EvalMore.
Import runtime eval EvalSpec EvalSpec2 EvalFacts.
Local Open Scope list_scope.

(** X12: on two Numbers each of the six comparators returns what the order
    of the integers says, throws nothing and leaves the state alone. *)
Theorem comparators_on_Numbers fuel cmp_ lhs rhs st l r :
  Get st lhs = Some (Number l) ->
  Get st rhs = Some (Number r) ->
  apply_Comparator (Equal (S fuel)) (Less (S fuel)) cmp_ lhs rhs st
  = (Ok (compare_int cmp_ l r), st).
Proof.
  intros Hl Hr.
  assert (Equal (S fuel) lhs rhs st = (Ok (l =? r), st)) as HE.
  { cbn [Equal]. erewrite bind_Ok by reflexivity. now rewrite Hl, Hr. }
  assert (Less (S fuel) lhs rhs st = (Ok (l <? r), st)) as HL.
  { cbn [Less]. erewrite bind_Ok by reflexivity. now rewrite Hl, Hr. }
  assert (LessOrEqual (Equal (S fuel)) (Less (S fuel)) lhs rhs st = (Ok (l <=? r), st)) as HLE.
  { unfold LessOrEqual. erewrite bind_Ok by exact HL.
    destruct (Z.ltb_spec l r), (Z.leb_spec l r); try lia;
      first [reflexivity | rewrite HE; do 2 f_equal; destruct (Z.eqb_spec l r); lia]. }
  destruct cmp_; cbn [apply_Comparator compare_int];
    unfold NotEqual, Greater, GreaterOrEqual.
  - exact HE.
  - exact HL.
  - erewrite bind_Ok by exact HE. reflexivity.
  - erewrite bind_Ok by exact HLE. cbn. do 2 f_equal.
    destruct (Z.leb_spec l r), (Z.gtb_spec l r); cbn; lia || reflexivity.
  - exact HLE.
  - erewrite bind_Ok by exact HL. cbn. do 2 f_equal.
    destruct (Z.ltb_spec l r), (Z.geb_spec l r); cbn; lia || reflexivity.
Qed.

Lemma comparators_on_Numbers_witness :
  apply_Comparator (Equal 1) (Less 1) ast.GreaterOrEqual (Some 0%nat) (Some 1%nat) state_7_2
  = (Ok true, state_7_2).
Proof.
  apply (comparators_on_Numbers 0 ast.GreaterOrEqual (Some 0%nat) (Some 1%nat) state_7_2 7 (-7));
    reflexivity.
Defined.

(** X13: two empty handles are Equal and not NotEqual, but Less throws, and
    so do LessOrEqual, Greater and GreaterOrEqual, which all start with
    Less. *)
Theorem comparators_on_none fuel st :
  Equal (S fuel) None None st = (Ok true, st)
  /\ NotEqual (Equal (S fuel)) None None st = (Ok false, st)
  /\ forall cmp_,
       cmp_ <> ast.Equal -> cmp_ <> ast.NotEqual ->
       apply_Comparator (Equal (S fuel)) (Less (S fuel)) cmp_ None None st
       = (Throw (runtime_error "Cannot compare objects for less"), st).
Proof.
  split; [reflexivity|]. split; [reflexivity|].
  intros [] H1 H2; try congruence; reflexivity.
Qed.

Lemma comparators_on_none_witness :
  apply_Comparator (Equal 1) (Less 1) ast.GreaterOrEqual None None state_7_2
  = (Throw (runtime_error "Cannot compare objects for less"), state_7_2).
Proof.
  apply (proj2 (proj2 (comparators_on_none 0 state_7_2))); discriminate.
Defined.

(** X14: names are read back as they were bound.  An Assignment returns
    the value of its right-hand side and binds the name to it (overwriting
    an older binding), a ClassDefinition binds the name of its class, and
    VariableValue on a bound name returns what is bound without changing
    anything; on an unbound name it throws "Not field" followed by the name. *)
Theorem names_round_trip :
  (forall fuel var_ rv_ env v closure1 st1,
     Execute fuel rv_ env = (Ok v, (closure1, st1)) ->
     Execute (S fuel) (ast.Assignment var_ rv_) env = (Ok v, (<[var_ := v]> closure1, st1))
     /\ forall fuel',
          Execute (S fuel') (ast.VariableValue [var_]) (<[var_ := v]> closure1, st1)
          = (Ok v, (<[var_ := v]> closure1, st1)))
  /\ (forall fuel cls_ c (closure : Closure) st,
        Get st cls_ = Some (Class_ c) ->
        Execute (S fuel) (ast.ClassDefinition cls_) (closure, st)
        = (Ok cls_, (<[name_ c := cls_]> closure, st))
        /\ forall fuel',
             Execute (S fuel') (ast.VariableValue [name_ c]) (<[name_ c := cls_]> closure, st)
             = (Ok cls_, (<[name_ c := cls_]> closure, st)))
  /\ (forall fuel var_ rest (closure : Closure) st,
        closure !! var_ = None ->
        Execute (S fuel) (ast.VariableValue (var_ :: rest)) (closure, st)
        = (Throw (runtime_error ("Not field" ++ var_)), (closure, st))).
Proof.
  repeat apply conj.
  - intros fuel var_ rv_ env v closure1 st1 H. split.
    + cbn [Execute]. erewrite bind_Ok by exact H. reflexivity.
    + intros fuel'. cbn [Execute]. unfold VariableValue_Execute. cbn [resolve].
      now rewrite lookup_insert_eq.
  - intros fuel cls_ c closure st H. split.
    + cbn [Execute]. erewrite bind_Ok by reflexivity. rewrite H. reflexivity.
    + intros fuel'. cbn [Execute]. unfold VariableValue_Execute. cbn [resolve].
      now rewrite lookup_insert_eq.
  - intros fuel var_ rest closure st H. cbn [Execute].
    unfold VariableValue_Execute. cbn [resolve]. now rewrite H.
Qed.

Lemma names_round_trip_witness :
  Execute 2 (ast.Assignment "x" (ast.ValueStatement 0)) (∅, state_7_2)
  = (Ok (Some 0%nat), (<["x" := Some 0%nat]> ∅, state_7_2))
  /\ Execute 1 (ast.VariableValue ["y"]) (<["x" := Some 0%nat]> ∅, state_7_2)
     = (Throw (runtime_error "Not fieldy"), (<["x" := Some 0%nat]> ∅, state_7_2)).
Proof.
  destruct names_round_trip as (Hassign & _ & Hmissing).
  split.
  - apply (Hassign 1%nat "x" (ast.ValueStatement 0) (∅, state_7_2) (Some 0%nat) ∅ state_7_2).
    reflexivity.
  - apply (Hmissing 0%nat "y" []). reflexivity.
Defined.

(** The state after [a.field_name = v] on the instance at address [a]. *)
Lemma set_field_instance a field_name v st cls fields :
  heap st !! a = Some (ClassInstance cls fields) ->
  set_field a field_name v st
  = (Ok tt, {| heap := <[a := ClassInstance cls (<[field_name := v]> fields)]> (heap st);
               output := output st; owned := owned st; held := held st |}).
Proof. intros H. unfold set_field. now rewrite H. Qed.

(** X15: a field is read back as it was assigned.  When [object] names an
    instance, [object.field = rv] returns the value of [rv], stores it in
    the fields of that instance (the other fields, the class of the
    instance, the closure and the output are kept), and [object.field] then
    evaluates to that value. *)
Theorem field_round_trip fuel object field_name_ rv_ (closure : Closure) st a cls0 fields0
    v (closure1 : Closure) st1 cls fields :
  closure !! object = Some (Some a) ->
  heap st !! a = Some (ClassInstance cls0 fields0) ->
  Execute fuel rv_ (closure, st) = (Ok v, (closure1, st1)) ->
  closure1 !! object = Some (Some a) ->
  heap st1 !! a = Some (ClassInstance cls fields) ->
  let st2 := {| heap := <[a := ClassInstance cls (<[field_name_ := v]> fields)]> (heap st1);
                output := output st1; owned := owned st1; held := held st1 |} in
  Execute (S fuel) (ast.FieldAssignment [object] field_name_ rv_) (closure, st)
  = (Ok v, (closure1, st2))
  /\ forall fuel',
       Execute (S fuel') (ast.VariableValue [object; field_name_]) (closure1, st2)
       = (Ok v, (closure1, st2)).
Proof.
  intros Hobj Hinst Hrv Hobj1 Hinst1 st2. split.
  - cbn [Execute]. erewrite bind_Ok; cycle 1.
    { unfold VariableValue_Execute. cbn [resolve]. rewrite Hobj. reflexivity. }
    erewrite bind_Ok by reflexivity.
    cbn [Get mbind option_bind]. rewrite Hinst.
    erewrite bind_Ok by exact Hrv.
    erewrite bind_Ok; cycle 1.
    { unfold on_state. erewrite set_field_instance by exact Hinst1. reflexivity. }
    reflexivity.
  - intros fuel'. cbn [Execute]. unfold VariableValue_Execute. cbn [resolve].
    rewrite Hobj1. cbn [Get mbind option_bind]. subst st2. cbn [heap].
    rewrite list_lookup_insert_eq by (eapply lookup_lt_Some; exact Hinst1).
    now rewrite lookup_insert_eq.
Qed.

Lemma field_round_trip_witness :
  let closure : Closure := <["a" := Some 1%nat]> ∅ in
  exists st2,
    Execute 2 (ast.FieldAssignment ["a"] "x" (ast.ValueStatement 2)) (closure, state_factory)
    = (Ok (Some 2%nat), (closure, st2))
    /\ Execute 1 (ast.VariableValue ["a"; "x"]) (closure, st2) = (Ok (Some 2%nat), (closure, st2)).
Proof.
  cbv zeta. eexists.
  assert ((<["a" := Some 1%nat]> ∅ : Closure) !! "a" = Some (Some 1%nat)) as Ha
    by (vm_compute; reflexivity).
  destruct (field_round_trip 1 "a" "x" (ast.ValueStatement 2) (<["a" := Some 1%nat]> ∅)
              state_factory 1 class_C ∅ (Some 2%nat) (<["a" := Some 1%nat]> ∅) state_factory
              class_C ∅ Ha eq_refl eq_refl Ha eq_refl) as [Hset Hget].
  split; [exact Hset|exact (Hget 0%nat)].
Defined.

(** X16: a method call on something that is not a class instance (a
    Number, a String, a Class, an empty handle) returns the empty handle and
    raises nothing; the arguments of the call are not run. *)
Theorem MethodCall_on_non_instance fuel object_ method_ args_ env h closure1 st1 :
  Execute fuel object_ env = (Ok h, (closure1, st1)) ->
  (forall cls fields, Get st1 h <> Some (ClassInstance cls fields)) ->
  Execute (S fuel) (ast.MethodCall object_ method_ args_) env = (Ok None, (closure1, st1)).
Proof.
  intros Hobj Hnot. cbn [Execute].
  erewrite bind_Ok by exact Hobj. erewrite bind_Ok by reflexivity.
  destruct h as [a|]; [|reflexivity].
  destruct (Get st1 (Some a)) as [[| | | |cls fields]|] eqn:Hget; try reflexivity.
  now destruct (Hnot cls fields).
Qed.

Lemma MethodCall_on_non_instance_witness :
  Execute 2 (ast.MethodCall (ast.ValueStatement 0) "f" [print_one]) (∅, state_01)
  = (Ok None, (∅, state_01)).
Proof.
  apply (MethodCall_on_non_instance 1 (ast.ValueStatement 0) "f" [print_one] (∅, state_01)
           (Some 0%nat) ∅ state_01 eq_refl).
  intros cls fields. discriminate.
Defined.

Lemma emplace_args_lookup params : forall actual_args (closure : Closure) x,
  emplace_args params actual_args closure !! x
  = match closure !! x with
    | Some v => Some v
    | None =>
        match List.find (fun pv => String.eqb (fst pv) x) (combine params actual_args) with
        | Some pv => Some (snd pv)
        | None => None
        end
    end.
Proof.
  induction params as [|p params IH]; intros [|v actual_args] closure x;
    cbn [emplace_args combine List.find]; try (now destruct (closure !! x)).
  rewrite IH. unfold emplace. cbn [fst snd].
  destruct (closure !! p) as [w|] eqn:Hp.
  - destruct (closure !! x) as [u|] eqn:Hx; [reflexivity|].
    destruct (String.eqb_spec p x) as [->|Hne]; [congruence|reflexivity].
  - destruct (String.eqb_spec p x) as [->|Hne].
    + now rewrite lookup_insert_eq, Hp.
    + now rewrite lookup_insert_ne by exact Hne.
Qed.

(** X17: how a call binds names.  In the closure the body of a method runs
    in, a name stands for the argument of the first formal parameter of that
    name, [self] stands for the receiver unless a parameter is called
    [self], and no other name is bound.  A call with the arity of the method
    runs the body in this closure; a call of a method the class chain does
    not have, or with another number of arguments, throws "No method" and
    the name, and changes nothing. *)
Theorem Call_binds_arguments :
  (forall self params actual_args x,
     emplace "self" (Share self) (emplace_args params actual_args ∅) !! x
     = bound_in_call self params actual_args x)
  /\ (forall fuel self method actual_args st cls fields m,
        heap st !! self = Some (ClassInstance cls fields) ->
        GetMethod cls method = Some m ->
        length (formal_params m) = length actual_args ->
        Call (S fuel) self method actual_args st
        = with_closure (emplace "self" (Share self)
                          (emplace_args (formal_params m) actual_args ∅))
            (Execute fuel (body m)) st)
  /\ (forall fuel self method actual_args st cls fields,
        heap st !! self = Some (ClassInstance cls fields) ->
        HasMethod cls method (length actual_args) = false ->
        Call (S fuel) self method actual_args st
        = (Throw (runtime_error ("No method " ++ method)), st)).
Proof.
  repeat apply conj.
  - intros self params actual_args x. unfold bound_in_call, emplace.
    pose proof (emplace_args_lookup params actual_args ∅) as Hargs.
    destruct (emplace_args params actual_args ∅ !! "self") as [w|] eqn:Hself.
    + rewrite Hargs, lookup_empty.
      destruct (List.find _ _) as [pv|] eqn:Hfind; [reflexivity|].
      destruct (String.eqb_spec x "self") as [->|]; [|reflexivity].
      rewrite Hargs, lookup_empty, Hfind in Hself. discriminate.
    + destruct (String.eqb_spec x "self") as [->|Hne].
      * rewrite lookup_insert_eq. rewrite Hargs, lookup_empty in Hself.
        destruct (List.find _ _); [discriminate|reflexivity].
      * rewrite lookup_insert_ne by congruence. now rewrite Hargs, lookup_empty.
  - intros fuel self method actual_args st cls fields m Hself Hm Hlen.
    cbn [Call]. erewrite bind_Ok by reflexivity. rewrite Hself.
    unfold HasMethod. now rewrite Hm, Hlen, Nat.eqb_refl.
  - intros fuel self method actual_args st cls fields Hself Hno.
    cbn [Call]. erewrite bind_Ok by reflexivity. now rewrite Hself, Hno.
Qed.

Lemma Call_binds_arguments_witness :
  Call 5 0 "first" [Some 1%nat; Some 2%nat] state_echo = (Ok (Some 1%nat), state_echo)
  /\ Call 5 0 "me" [] state_echo = (Ok (Some 0%nat), state_echo)
  /\ Call 5 0 "hidden" [Some 2%nat] state_echo = (Ok (Some 2%nat), state_echo)
  /\ Call 5 0 "me" [Some 1%nat] state_echo
     = (Throw (runtime_error "No method me"), state_echo).
Proof.
  destruct Call_binds_arguments as (_ & Hrun & Hno).
  split; [|split; [|split]].
  - erewrite (Hrun 4%nat 0%nat "first" _ state_echo) by reflexivity.
    vm_compute. reflexivity.
  - erewrite (Hrun 4%nat 0%nat "me" _ state_echo) by reflexivity.
    vm_compute. reflexivity.
  - erewrite (Hrun 4%nat 0%nat "hidden" _ state_echo) by reflexivity.
    vm_compute. reflexivity.
  - apply (Hno 4%nat 0%nat "me" [Some 1%nat] state_echo class_Echo ∅); reflexivity.
Defined.

Lemma ExecuteArgs_app_Ok exec l1 : forall l2 env vs1 env1,
  ExecuteArgs exec l1 env = (Ok vs1, env1) ->
  ExecuteArgs exec (l1 ++ l2) env
  = (vs2 ← ExecuteArgs exec l2; mret (vs1 ++ vs2)) env1.
Proof.
  induction l1 as [|s l1 IH]; intros l2 env vs1 env1 H.
  - injection H as <- <-. cbn [app]. unfold mbind, M_bind, mret, M_ret.
    destruct (ExecuteArgs exec l2 env) as [[vs2| | |] env2]; reflexivity.
  - cbn [app ExecuteArgs] in H |- *. unfold mbind, M_bind in H |- *.
    destruct (exec s env) as [[v| | |] env0]; try discriminate H.
    destruct (ExecuteArgs exec l1 env0) as [[vs0| | |] env0'] eqn:Hrest; try discriminate H.
    injection H as <- <-. rewrite (IH l2 _ _ _ Hrest). unfold mbind, M_bind, mret, M_ret.
    destruct (ExecuteArgs exec l2 env0') as [[vs2| | |] env2]; reflexivity.
Qed.

Lemma ExecuteArgs_app_fail exec l1 : forall l2 env r env1,
  ExecuteArgs exec l1 env = (r, env1) ->
  (forall vs, r <> Ok vs) ->
  ExecuteArgs exec (l1 ++ l2) env = (r, env1).
Proof.
  induction l1 as [|s l1 IH]; intros l2 env r env1 H Hr.
  - injection H as <- _. now destruct (Hr []).
  - cbn [app ExecuteArgs] in H |- *. unfold mbind, M_bind in H |- *.
    destruct (exec s env) as [[v| | |] env0]; try exact H.
    destruct (ExecuteArgs exec l1 env0) as [r0 env0'] eqn:Hrest.
    assert (forall vs, r0 <> Ok vs) as Hr0.
    { intros vs ->. injection H as <- _. now destruct (Hr (v :: vs)). }
    rewrite (IH l2 _ _ _ Hrest Hr0). exact H.
Qed.

(** X18: a Compound runs its statements from left to right and returns the
    empty handle: running [l1 ++ l2] is running [l1] and, when that
    returned, running [l2] in the closure and state it left; when a
    statement of [l1] throws (a return included), nothing of [l2] is run. *)
Theorem Compound_sequences fuel l1 l2 env :
  Execute (S fuel) (ast.Compound []) env = (Ok None, env)
  /\ (forall r env1,
        Execute (S fuel) (ast.Compound l1) env = (Ok r, env1) ->
        r = None
        /\ Execute (S fuel) (ast.Compound (l1 ++ l2)) env
           = Execute (S fuel) (ast.Compound l2) env1)
  /\ (forall e env1,
        Execute (S fuel) (ast.Compound l1) env = (Throw e, env1) ->
        Execute (S fuel) (ast.Compound (l1 ++ l2)) env = (Throw e, env1)).
Proof.
  cbn [Execute]. split; [reflexivity|]. split.
  - intros r env1 H. unfold mbind, M_bind in H |- *.
    destruct (ExecuteArgs (Execute fuel) l1 env) as [[vs1| | |] env1'] eqn:H1;
      try discriminate H.
    injection H as <- <-. split; [reflexivity|].
    rewrite (ExecuteArgs_app_Ok _ _ l2 _ _ _ H1). unfold mbind, M_bind, mret, M_ret.
    destruct (ExecuteArgs (Execute fuel) l2 env1') as [[vs2| | |] env2]; reflexivity.
  - intros e env1 H. unfold mbind, M_bind in H |- *.
    destruct (ExecuteArgs (Execute fuel) l1 env) as [[vs1| | |] env1'] eqn:H1;
      try discriminate H.
    injection H as <- <-.
    now rewrite (ExecuteArgs_app_fail _ _ l2 _ _ _ H1) by discriminate.
Qed.

Lemma Compound_sequences_witness :
  Execute 3 (ast.Compound ([ast.Assignment "x" (ast.ValueStatement 0)] ++ [print_one]))
    (∅, state_01)
  = Execute 3 (ast.Compound [print_one]) (<["x" := Some 0%nat]> ∅, state_01).
Proof.
  destruct (Compound_sequences 2 [ast.Assignment "x" (ast.ValueStatement 0)] [print_one]
              (∅, state_01)) as (_ & Hseq & _).
  exact (proj2 (Hseq None (<["x" := Some 0%nat]> ∅, state_01) eq_refl)).
Defined.

(** X19: what + does.  With both operands run: two Numbers give a new
    Number with their sum when the sum fits an int; two Strings give a new
    String with their concatenation; a class instance on the left makes the
    node call __add__ with the right operand, so an instance whose class has
    no __add__ of one parameter raises "No method __add__"; and any other
    pair, a Number with an instance on the right included, raises "The
    operator is not overloaded +". *)
Theorem Add_dispatch fuel lhs_ rhs_ env lhs env1 rhs closure2 st2 :
  Execute fuel lhs_ env = (Ok lhs, env1) ->
  holding [lhs] (Execute fuel rhs_) env1 = (Ok rhs, (closure2, st2)) ->
  (forall l r,
     Get st2 lhs = Some (Number l) -> Get st2 rhs = Some (Number r) ->
     in_int (l + r) = true ->
     Execute (S fuel) (ast.Add lhs_ rhs_) env
     = (Ok (Some (length (heap st2))), (closure2, allocated (Number (l + r)) st2)))
  /\ (forall l r,
        Get st2 lhs = Some (String l) -> Get st2 rhs = Some (String r) ->
        Execute (S fuel) (ast.Add lhs_ rhs_) env
        = (Ok (Some (length (heap st2))), (closure2, allocated (String (l ++ r)) st2)))
  /\ (forall a cls fields,
        lhs = Some a -> heap st2 !! a = Some (ClassInstance cls fields) ->
        Execute (S fuel) (ast.Add lhs_ rhs_) env
        = in_call [lhs; rhs] (Call fuel a "__add__" [rhs]) (closure2, st2))
  /\ (forall fuel' a cls fields,
        fuel = S fuel' ->
        lhs = Some a -> heap st2 !! a = Some (ClassInstance cls fields) ->
        HasMethod cls "__add__" 1 = false ->
        Execute (S fuel) (ast.Add lhs_ rhs_) env
        = (Throw (runtime_error "No method __add__"), (closure2, st2)))
  /\ (forall l cls fields,
        Get st2 lhs = Some (Number l) -> Get st2 rhs = Some (ClassInstance cls fields) ->
        Execute (S fuel) (ast.Add lhs_ rhs_) env
        = (Throw (runtime_error "The operator is not overloaded +"), (closure2, st2))).
Proof.
  intros Hl Hr. repeat apply conj.
  - intros l r Hgl Hgr Hfit. cbn [Execute].
    erewrite bind_Ok by exact Hl. erewrite bind_Ok by exact Hr.
    erewrite bind_Ok by reflexivity. rewrite Hgl, Hgr.
    unfold int_result. rewrite Hfit. reflexivity.
  - intros l r Hgl Hgr. cbn [Execute].
    erewrite bind_Ok by exact Hl. erewrite bind_Ok by exact Hr.
    erewrite bind_Ok by reflexivity. rewrite Hgl, Hgr. reflexivity.
  - intros a cls fields -> Ha. cbn [Execute].
    erewrite bind_Ok by exact Hl. erewrite bind_Ok by exact Hr.
    erewrite bind_Ok by reflexivity. cbn [Get mbind option_bind]. rewrite Ha. reflexivity.
  - intros fuel' a cls fields -> -> Ha Hno. cbn [Execute].
    erewrite bind_Ok by exact Hl. erewrite bind_Ok by exact Hr.
    erewrite bind_Ok by reflexivity. cbn [Get mbind option_bind]. rewrite Ha.
    unfold in_call. cbn [Call]. erewrite bind_Ok by reflexivity.
    cbn [length pin heap] in *. rewrite Ha, Hno. cbn. now rewrite restore_pin.
  - intros l cls fields Hgl Hgr. cbn [Execute].
    erewrite bind_Ok by exact Hl. erewrite bind_Ok by exact Hr.
    erewrite bind_Ok by reflexivity. rewrite Hgl, Hgr. reflexivity.
Qed.

Lemma Add_dispatch_witness :
  Execute 3 (ast.Add (ast.NewInstance 1 []) (ast.ValueStatement 2)) (∅, state_mute)
  = (Throw (runtime_error "No method __add__"), (∅, state_mute))
  /\ Execute 3 (ast.Add (ast.ValueStatement 2) (ast.NewInstance 1 [])) (∅, state_mute)
     = (Throw (runtime_error "The operator is not overloaded +"), (∅, state_mute))
  /\ Execute 3 (ast.Add (ast.ValueStatement 2) (ast.ValueStatement 2)) (∅, state_mute)
     = (Ok (Some 3%nat), (∅, allocated (Number 2) state_mute)).
Proof.
  split; [|split].
  - destruct (Add_dispatch 2 (ast.NewInstance 1 []) (ast.ValueStatement 2) (∅, state_mute)
                (Some 1%nat) (∅, state_mute) (Some 2%nat) ∅ state_mute eq_refl eq_refl)
      as (_ & _ & _ & Hno & _).
    apply (Hno 1%nat 1%nat class_C ∅); reflexivity.
  - destruct (Add_dispatch 2 (ast.ValueStatement 2) (ast.NewInstance 1 []) (∅, state_mute)
                (Some 2%nat) (∅, state_mute) (Some 1%nat) ∅ state_mute eq_refl eq_refl)
      as (_ & _ & _ & _ & Hmixed).
    apply (Hmixed 1 class_C ∅); reflexivity.
  - destruct (Add_dispatch 2 (ast.ValueStatement 2) (ast.ValueStatement 2) (∅, state_mute)
                (Some 2%nat) (∅, state_mute) (Some 2%nat) ∅ state_mute eq_refl eq_refl)
      as (Hsum & _).
    apply (Hsum 1 1); reflexivity.
Defined.

(** X20: printing an instance whose __str__ returns the empty handle is
    undefined: ClassInstance::Print calls Print through the null pointer
    that Get() gives for the result of the call. *)
Theorem Print_of_mute_instance fuel self st cls fields st' :
  heap st !! self = Some (ClassInstance cls fields) ->
  HasMethod cls "__str__" 0 = true ->
  Call fuel self "__str__" [] st = (Ok None, st') ->
  Object_Print (S fuel) self st = (Undefined, st').
Proof.
  intros Hself Hstr Hcall. cbn [Object_Print].
  erewrite bind_Ok by reflexivity. rewrite Hself, Hstr.
  erewrite bind_Ok by exact Hcall. reflexivity.
Qed.

Lemma Print_of_mute_instance_witness :
  Call 2 0 "__str__" [] state_mute = (Ok None, state_mute)
  /\ Object_Print 3 0 state_mute = (Undefined, state_mute)
  /\ Execute 5 (ast.Print [ast.NewInstance 0 []]) (∅, state_mute) = (Undefined, (∅, state_mute)).
Proof.
  split; [reflexivity|]. split; [|reflexivity].
  apply (Print_of_mute_instance 2 0 state_mute class_Mute ∅); reflexivity.
Defined.

Lemma written_written t1 t2 st : written t2 (written t1 st) = written (t1 ++ t2) st.
Proof. unfold written. cbn [heap output]. now rewrite string_app_assoc. Qed.

Lemma Object_Print_value fuel a st o text :
  heap st !! a = Some o -> value_text o = Some text ->
  Object_Print (S fuel) a st = (Ok text, st).
Proof.
  intros Ha Ht. cbn [Object_Print]. erewrite bind_Ok by reflexivity. rewrite Ha.
  destruct o; cbn in Ht; try discriminate Ht; injection Ht as <-; reflexivity.
Qed.

Lemma in_call_Object_Print_value fuel hs a (closure : Closure) st o text :
  heap st !! a = Some o -> value_text o = Some text ->
  in_call hs (Object_Print (S fuel) a) (closure, st) = (Ok text, (closure, st)).
Proof.
  intros Ha Ht. unfold in_call.
  erewrite Object_Print_value by (cbn [pin heap]; eassumption).
  now rewrite restore_pin.
Qed.

Lemma Execute_constant fuel s st text (closure : Closure) :
  constant_text st s = Some text ->
  exists h,
    Execute (S fuel) s (closure, st) = (Ok h, (closure, st))
    /\ match h, Get st h with
       | Some a, Some o => value_text o = Some text /\ alive closure st a = true
       | _, _ => text = "None"%string
       end.
Proof.
  destruct s; try discriminate.
  - cbn [constant_text].
    destruct (bool_decide (value_ ∈ owned st)) eqn:Hown; [discriminate|].
    destruct (heap st !! value_) as [o|] eqn:Ho; [|discriminate].
    cbn [mbind option_bind]. intros Ht. exists (Some value_). split; [reflexivity|].
    cbn [Get mbind option_bind]. rewrite Ho. split; [exact Ht|].
    unfold alive. now rewrite Hown.
  - intros [= <-]. exists None. split; reflexivity.
Qed.

Lemma PrintArgs_constants fuel st (closure : Closure) args_ texts :
  Forall2 (fun s text => constant_text st s = Some text) args_ texts ->
  forall before,
    PrintArgs (Execute (S fuel)) (Object_Print (S fuel)) args_ (closure, written before st)
    = (Ok tt, (closure, written (before ++ join_with_space texts) st)).
Proof.
  induction 1 as [|s text args_ texts Hs Hrest IH]; intros before.
  - cbn [PrintArgs join_with_space]. now rewrite string_app_nil_r.
  - cbn [PrintArgs].
    destruct (Execute_constant fuel s (written before st) text closure Hs) as (h & Hrun & Hh).
    erewrite bind_Ok by exact Hrun. do 2 erewrite bind_Ok by reflexivity.
    match goal with
    | |- mbind _ ?m ?e = _ =>
        assert (m e = (Ok tt, (closure, written (before ++ text) st))) as Hwrite
    end.
    { destruct h as [a|]; [|subst text; now rewrite <- written_written].
      destruct (Get (written before st) (Some a)) as [o|] eqn:Hget;
        [|subst text; now rewrite <- written_written].
      destruct Hh as [Hh Halive]. rewrite Halive.
      erewrite bind_Ok by (eapply in_call_Object_Print_value; eassumption).
      now rewrite <- written_written. }
    erewrite bind_Ok by exact Hwrite.
    destruct Hrest as [|s' text' args' texts' Hs' Hrest'].
    + erewrite bind_Ok by reflexivity. reflexivity.
    + erewrite bind_Ok; cycle 1.
      { unfold on_state, write. reflexivity. }
      change ({| heap := heap (written (before ++ text) st);
                 output := (output (written (before ++ text) st) ++ " ")%string;
                 owned := owned (written (before ++ text) st);
                 held := held (written (before ++ text) st) |})
        with (written " " (written (before ++ text) st)).
      rewrite written_written, IH. do 3 f_equal.
      change (join_with_space (text :: text' :: texts'))
        with (text ++ " " ++ join_with_space (text' :: texts'))%string.
      now rewrite !string_app_assoc.
Qed.

(** X21: the line a Print writes.  When every argument is a constant (a
    Number, String, Bool or Class held by the node) or the None node, Print
    appends to the output the texts of its arguments (decimal digits, the
    string itself, True or False, Class and the name, None) with single
    spaces between them and a line feed at the end, returns the empty
    handle and changes nothing else; without arguments it writes the line
    feed alone. *)
Theorem Print_writes_line fuel st (closure : Closure) args_ texts :
  Forall2 (fun s text => constant_text st s = Some text) args_ texts ->
  Execute (S (S fuel)) (ast.Print args_) (closure, st)
  = (Ok None, (closure, written (join_with_space texts ++ end_of_line) st)).
Proof.
  intros Hargs. cbn [Execute].
  pose proof (PrintArgs_constants fuel st closure args_ texts Hargs EmptyString) as Hprint.
  assert (written EmptyString st = st) as Hst
    by (destruct st; unfold written; cbn; now rewrite string_app_nil_r).
  rewrite Hst in Hprint.
  change (EmptyString ++ join_with_space texts)%string with (join_with_space texts) in Hprint.
  erewrite bind_Ok by exact Hprint.
  erewrite bind_Ok; cycle 1.
  { unfold on_state, write. reflexivity. }
  unfold mret, M_ret. do 2 f_equal.
  rewrite <- written_written. reflexivity.
Qed.

Lemma Print_writes_line_witness :
  Execute 2 (ast.Print [ast.ValueStatement 1; ast.None; ast.ValueStatement 2])
    (∅, state_7_2)
  = (Ok None, (∅, written ("-7 None 2" ++ end_of_line) state_7_2)).
Proof.
  apply (Print_writes_line 0 state_7_2 ∅ _ ["-7"; "None"; "2"]%string).
  repeat constructor.
Defined.

(** X22: str() gives the text print would write.  For a constant or the
    None node, Stringify returns a newly allocated String holding exactly
    the text Print writes for that argument, and writes nothing itself. *)
Theorem Stringify_constant fuel st (closure : Closure) argument_ text :
  constant_text st argument_ = Some text ->
  Execute (S (S fuel)) (ast.Stringify argument_) (closure, st)
  = (Ok (Some (length (heap st))), (closure, allocated (String text) st))
  /\ Execute (S (S fuel)) (ast.Print [argument_]) (closure, st)
     = (Ok None, (closure, written (text ++ end_of_line) st)).
Proof.
  intros Ht. split.
  - cbn [Execute].
    destruct (Execute_constant fuel argument_ st text closure Ht) as (h & Hrun & Hh).
    erewrite bind_Ok by exact Hrun. do 2 erewrite bind_Ok by reflexivity.
    destruct h as [a|]; [|now subst text].
    destruct (Get st (Some a)) as [o|] eqn:Hget; [|now subst text].
    destruct Hh as [Hh Halive]. rewrite Halive.
    erewrite bind_Ok by (eapply in_call_Object_Print_value; eassumption).
    reflexivity.
  - apply (Print_writes_line fuel st closure [argument_] [text]). now repeat constructor.
Qed.

Lemma Stringify_constant_witness :
  Execute 2 (ast.Stringify (ast.ValueStatement 1)) (∅, state_7_2)
  = (Ok (Some 4%nat), (∅, allocated (String "-7") state_7_2)).
Proof.
  apply (Stringify_constant 0 state_7_2 ∅ (ast.ValueStatement 1) "-7"). reflexivity.
Defined.

(** X23: what a run can do to the objects.  Whatever a statement or a
    method call does (return, throw, be undefined, run out of the bound),
    afterwards the output is the old output with text appended; every
    instance is still at its address with its class and with every field
    it had still set; no instance and no class has appeared or gone, so
    what the run has made are Numbers, Strings and Bools, and these are
    made by Own; and the Numbers, Strings and Bools that are members of
    nodes are unchanged. *)
Theorem evaluation_only_extends fuel :
  (forall s closure st r closure' st',
     Execute fuel s (closure, st) = (r, (closure', st')) -> extends st st')
  /\ (forall self method actual_args st r st',
        Call fuel self method actual_args st = (r, st') -> extends st st').
Proof.
  destruct (Execute_mono_all fuel) as (HE & HC & _).
  split.
  - intros s closure st r closure' st'. apply HE.
  - intros self method actual_args st r st'. apply HC.
Qed.

Lemma evaluation_only_extends_witness :
  exists closure st,
    Execute 8 program_factory (∅, state_factory) = (Ok None, (closure, st))
    /\ extends state_factory st
    /\ heap st !! 2%nat = Some (Number 7).
Proof.
  eexists _, _. split; [vm_compute; reflexivity|].
  match goal with
  | |- extends _ ?st /\ _ => assert (extends state_factory st) as Hext
  end.
  { eapply (proj1 (evaluation_only_extends 8) program_factory ∅ state_factory (Ok None)).
    vm_compute. reflexivity. }
  split; [exact Hext|].
  destruct Hext as (_ & _ & _ & _ & _ & _ & _ & Hconst).
  exact (Hconst 2%nat (Number 7) eq_refl eq_refl (not_elem_of_nil 2%nat)).
Defined.

(** X24: subtraction and multiplication work on two Numbers only.  With
    both operands run, two Numbers give a new Number with their difference
    or product when it fits an int, and the operation is undefined (signed
    overflow) when it does not; any other pair raises the runtime_error
    "The operator is not overloaded" with the sign of the operation.
    Unlike +, no method of a class instance is ever called, and Strings are
    not accepted. *)
Theorem Sub_Mult_only_on_Numbers fuel lhs_ rhs_ env lhs env1 rhs closure2 st2 :
  Execute fuel lhs_ env = (Ok lhs, env1) ->
  holding [lhs] (Execute fuel rhs_) env1 = (Ok rhs, (closure2, st2)) ->
  (forall l r,
     Get st2 lhs = Some (Number l) -> Get st2 rhs = Some (Number r) ->
     Execute (S fuel) (ast.Sub lhs_ rhs_) env
     = (if in_int (l - r)
        then (Ok (Some (length (heap st2))), (closure2, allocated (Number (l - r)) st2))
        else (Undefined, (closure2, st2)))
     /\ Execute (S fuel) (ast.Mult lhs_ rhs_) env
        = (if in_int (l * r)
           then (Ok (Some (length (heap st2))), (closure2, allocated (Number (l * r)) st2))
           else (Undefined, (closure2, st2))))
  /\ (~ (exists l r, Get st2 lhs = Some (Number l) /\ Get st2 rhs = Some (Number r)) ->
      Execute (S fuel) (ast.Sub lhs_ rhs_) env
      = (Throw (runtime_error "The operator is not overloaded -"), (closure2, st2))
      /\ Execute (S fuel) (ast.Mult lhs_ rhs_) env
         = (Throw (runtime_error "The operator is not overloaded *"), (closure2, st2))).
Proof.
  intros Hl Hr. split.
  - intros l r Hgl Hgr. split; cbn [Execute];
      erewrite bind_Ok by exact Hl; erewrite bind_Ok by exact Hr;
      erewrite bind_Ok by reflexivity; rewrite Hgl, Hgr; unfold int_result.
    + now destruct (in_int (l - r)).
    + now destruct (in_int (l * r)).
  - intros Hno. split; cbn [Execute];
      erewrite bind_Ok by exact Hl; erewrite bind_Ok by exact Hr;
      erewrite bind_Ok by reflexivity;
      destruct (Get st2 lhs) as [[]|], (Get st2 rhs) as [[]|];
      first [reflexivity | exfalso; eauto].
Qed.

Lemma Sub_Mult_only_on_Numbers_witness :
  Execute 3 (ast.Sub (ast.NewInstance 0 []) (ast.ValueStatement 1)) (∅, state_minus)
  = (Throw (runtime_error "The operator is not overloaded -"), (∅, state_minus))
  /\ Execute 3 (ast.Mult (ast.ValueStatement 1) (ast.ValueStatement 2)) (∅, state_minus)
     = (Ok (Some 3%nat), (∅, allocated (Number 15) state_minus)).
Proof.
  split.
  - destruct (Sub_Mult_only_on_Numbers 2 (ast.NewInstance 0 []) (ast.ValueStatement 1)
                (∅, state_minus) (Some 0%nat) (∅, state_minus) (Some 1%nat) ∅ state_minus
                eq_refl eq_refl) as (_ & Hno).
    apply Hno. intros (l & r & H & _). discriminate H.
  - destruct (Sub_Mult_only_on_Numbers 2 (ast.ValueStatement 1) (ast.ValueStatement 2)
                (∅, state_minus) (Some 1%nat) (∅, state_minus) (Some 2%nat) ∅ state_minus
                eq_refl eq_refl) as (Hnum & _).
    apply (Hnum 5 3); reflexivity.
Defined.

(** X25: not not e is the truth value of e.  When [argument_] runs to [v],
    the double negation returns a new Bool that holds IsTrue of [v]; on the
    way it allocates the Bool of the inner negation and nothing else. *)
Theorem Not_Not_is_truth fuel argument_ env v closure1 st1 :
  Execute fuel argument_ env = (Ok v, (closure1, st1)) ->
  Execute (S (S fuel)) (ast.Not (ast.Not argument_)) env
  = (Ok (Some (S (length (heap st1)))),
     (closure1,
      allocated (Bool (IsTrue st1 v)) (allocated (Bool (negb (IsTrue st1 v))) st1))).
Proof.
  intros H.
  assert (Execute (S fuel) (ast.Not argument_) env
          = (Ok (Some (length (heap st1))),
             (closure1, allocated (Bool (negb (IsTrue st1 v))) st1))) as Hin.
  { cbn [Execute]. erewrite bind_Ok by exact H. erewrite bind_Ok by reflexivity.
    reflexivity. }
  assert (forall b, IsTrue (allocated (Bool b) st1) (Some (length (heap st1))) = b) as Hb.
  { intros b. unfold IsTrue. cbn [Get mbind option_bind].
    now rewrite (proj2 (proj2 (Own_fresh (Bool b) st1))). }
  change (Execute (S (S fuel)) (ast.Not (ast.Not argument_)))
    with (v ← Execute (S fuel) (ast.Not argument_);
          st ← get_st;
          on_state (Own (Bool (negb (IsTrue st v))))).
  erewrite bind_Ok by exact Hin. erewrite bind_Ok by reflexivity.
  rewrite Hb, negb_involutive. unfold on_state, Own, allocated. cbn [heap output].
  rewrite length_app, Nat.add_1_r. reflexivity.
Qed.

Lemma Not_Not_is_truth_witness :
  Execute 3 (ast.Not (ast.Not (ast.ValueStatement 1))) (∅, state_minus)
  = (Ok (Some 4%nat), (∅, allocated (Bool true) (allocated (Bool false) state_minus))).
Proof.
  apply (Not_Not_is_truth 1 (ast.ValueStatement 1) (∅, state_minus) (Some 1%nat) ∅ state_minus).
  reflexivity.
Defined.
Lemma holds_insert (closure : Closure) k a : holds (<[k := Some a]> closure) a = true.
Proof.
  unfold holds. apply bool_decide_eq_true. apply list_elem_of_fmap.
  exists (k, Some a). split; [reflexivity|].
  apply elem_of_map_to_list. apply lookup_insert_eq.
Qed.

Lemma kept_allocated (closure : Closure) st o a :
  is_value o = true -> kept closure (allocated o st) a = kept closure st a.
Proof.
  intros Hval. unfold kept, allocated. cbn [heap held].
  rewrite existsb_app. cbn [existsb]. destruct o; try discriminate Hval;
    now rewrite !orb_false_r.
Qed.

(** X26: a value printed straight from the operation that made it.  Print
    and Stringify keep only the pointer Get() of the holder an argument
    returns.  When the argument returns an object made by Own that no other
    holder has, the object is destroyed with that holder and the call of
    Print on the pointer is undefined; this is so for [print not e]
    whenever no holder refers to the address the new Bool gets.  Bound to
    a name first, the same object is kept by the closure and is printed. *)
Theorem Print_of_temporary fuel argument_ env :
  (forall a closure1 st1 o,
     Execute fuel argument_ env = (Ok (Some a), (closure1, st1)) ->
     heap st1 !! a = Some o ->
     alive closure1 st1 a = false ->
     (forall rest,
        Execute (S fuel) (ast.Print (argument_ :: rest)) env = (Undefined, (closure1, st1)))
     /\ Execute (S fuel) (ast.Stringify argument_) env = (Undefined, (closure1, st1)))
  /\ (forall v closure1 st1,
        Execute fuel argument_ env = (Ok v, (closure1, st1)) ->
        kept closure1 st1 (length (heap st1)) = false ->
        Execute (S (S fuel)) (ast.Print [ast.Not argument_]) env
        = (Undefined, (closure1, allocated (Bool (negb (IsTrue st1 v))) st1)))
  /\ (forall a closure1 st1 o var_ text,
        Execute fuel argument_ env = (Ok (Some a), (closure1, st1)) ->
        heap st1 !! a = Some o ->
        value_text o = Some text ->
        Execute (S (S fuel)) (ast.Print [ast.Assignment var_ argument_]) env
        = (Ok None, (<[var_ := Some a]> closure1, written (text ++ end_of_line) st1))).
Proof.
  assert (forall a closure1 st1 o,
            Execute fuel argument_ env = (Ok (Some a), (closure1, st1)) ->
            heap st1 !! a = Some o ->
            alive closure1 st1 a = false ->
            forall rest,
              Execute (S fuel) (ast.Print (argument_ :: rest)) env
              = (Undefined, (closure1, st1))) as Hdangle.
  { intros a closure1 st1 o Hrun Ha Hdead rest. cbn [Execute PrintArgs].
    apply bind_Undefined.
    erewrite bind_Ok by exact Hrun. do 2 erewrite bind_Ok by reflexivity.
    cbn [Get mbind option_bind]. rewrite Ha, Hdead. reflexivity. }
  repeat apply conj.
  - intros a closure1 st1 o Hrun Ha Hdead. split; [now apply (Hdangle a closure1 st1 o)|].
    cbn [Execute]. erewrite bind_Ok by exact Hrun. do 2 erewrite bind_Ok by reflexivity.
    cbn [Get mbind option_bind]. now rewrite Ha, Hdead.
  - intros v closure1 st1 Hrun Hkept.
    assert (Execute (S fuel) (ast.Not argument_) env
            = (Ok (Some (length (heap st1))),
               (closure1, allocated (Bool (negb (IsTrue st1 v))) st1))) as Hnot.
    { cbn [Execute]. erewrite bind_Ok by exact Hrun. erewrite bind_Ok by reflexivity.
      reflexivity. }
    cbn [Execute PrintArgs]. apply bind_Undefined.
    erewrite bind_Ok by exact Hnot. do 2 erewrite bind_Ok by reflexivity.
    cbn [Get mbind option_bind].
    rewrite (proj2 (proj2 (Own_fresh (Bool (negb (IsTrue st1 v))) st1))).
    unfold alive. rewrite kept_allocated by reflexivity. rewrite Hkept.
    cbn [allocated owned]. rewrite bool_decide_eq_true_2 by apply list_elem_of_here.
    reflexivity.
  - intros a closure1 st1 o var_ text Hrun Ha Ht.
    assert (Execute (S fuel) (ast.Assignment var_ argument_) env
            = (Ok (Some a), (<[var_ := Some a]> closure1, st1))) as Hassign.
    { cbn [Execute]. erewrite bind_Ok by exact Hrun. reflexivity. }
    cbn [Execute PrintArgs]. erewrite bind_Ok; cycle 1.
    { erewrite bind_Ok by exact Hassign. do 2 erewrite bind_Ok by reflexivity.
      cbn [Get mbind option_bind]. rewrite Ha.
      unfold alive, kept. rewrite holds_insert, orb_true_r.
      erewrite bind_Ok; cycle 1.
      { erewrite bind_Ok by (eapply in_call_Object_Print_value; eassumption).
        reflexivity. }
      erewrite bind_Ok by reflexivity. reflexivity. }
    erewrite bind_Ok by reflexivity. unfold mret, M_ret. do 2 f_equal.
    unfold written, end_of_line. cbn [heap output owned held].
    now rewrite string_app_assoc.
Qed.

Lemma Print_of_temporary_witness :
  let quotient := ast.Div (ast.ValueStatement 0) (ast.ValueStatement 2) in
  Execute 3 (ast.Print [quotient]) (∅, state_7_2)
  = (Undefined, (∅, allocated (Number 3) state_7_2))
  /\ Execute 4 (ast.Print [ast.Not quotient]) (∅, state_7_2)
     = (Undefined, (∅, allocated (Bool false) (allocated (Number 3) state_7_2)))
  /\ Execute 4 (ast.Print [ast.Assignment "x" quotient]) (∅, state_7_2)
     = (Ok None, (<["x" := Some 4%nat]> ∅, written ("3" ++ end_of_line)
                                             (allocated (Number 3) state_7_2))).
Proof.
  intros quotient.
  destruct (Print_of_temporary 2 quotient (∅, state_7_2)) as (Hdangle & Hnot & Hbound).
  repeat apply conj.
  - apply (proj1 (Hdangle 4%nat ∅ (allocated (Number 3) state_7_2) (Number 3)
                   eq_refl eq_refl eq_refl) []).
  - apply (Hnot (Some 4%nat) ∅ (allocated (Number 3) state_7_2)); reflexivity.
  - apply (Hbound 4%nat ∅ (allocated (Number 3) state_7_2) (Number 3) "x" "3");
      reflexivity.
Defined.

End EvalMore.
